(** * Chunk pruning rule of the optimizer: a shallow embedding

    The development follows [chunk_pruning_rule.cpp]: the predicate chain
    finder ([find_predicate_chains_recursively]), the exclusion evaluator
    ([_compute_exclude_list], [_can_prune]), the chain intersector
    ([intersect_chunk_ids]), the statistics corrector
    ([_prune_table_statistics]) and the rule driver
    ([_apply_to_plan_without_subqueries]).

    Conventions of the embedding:
    - a [std::shared_ptr] to a plan node is the node's identity ([NodeId]);
      the plan is a store from identities to nodes;
    - [std::set<ChunkID>] is a [gset ChunkID], [std::unordered_map] a [gmap];
    - a failed [DebugAssert], an exception and an unchecked access past the
      end of a vector end a run with a [Failure]; every function that can
      reach one returns a [result];
    - [float] values ([Cardinality], [Selectivity]) are IEEE binary32 numbers,
      given by [SpecFloat] at precision 24 and exponent bound 128. *)

From Stdlib Require Import Floats.SpecFloat.
From stdpp Require Import gmap list sorting strings.

Set Warnings "-register-all,-clear-no-such-hyp".

(** ** Results of fallible code *)

Inductive Failure :=
  | Aborted (message : string)          (* assertion failing in a debug build *)
  | FatalError (message : string)       (* fatal error, exception *)
  | OutOfRange                          (* unchecked vector access past the end *)
  | OutOfFuel.                          (* recursion budget of the model used up *)

Inductive result (A : Type) :=
  | Ok (a : A)
  | Fault (f : Failure).
Arguments Ok {A} a.
Arguments Fault {A} f.

Definition bind {A B} (r : result A) (k : A → result B) : result B :=
  match r with
  | Ok a => k a
  | Fault f => Fault f
  end.

Declare Scope result_scope.
Delimit Scope result_scope with result.
Notation "x ← r ; k" := (bind r (λ x, k))
  (at level 20, r at level 100, k at level 200, right associativity,
   only parsing) : result_scope.
Notation "' p ← r ; k" := (bind r (λ p, k))
  (at level 20, p pattern, r at level 100, k at level 200,
   right associativity, only parsing) : result_scope.
Local Open Scope result_scope.

Inductive Build := DebugBuild | ProductionBuild.

(** Modelled from the spec: [DebugAssert] comes from [utils/assert.hpp], which
    is not part of the sources. The spec describes the violation of a checked
    precondition as a fatal assertion that aborts the pass loudly in a debug
    build and degrades to a fatal error in a production build. *)
Definition DebugAssert (build : Build) (expr : bool) (msg : string) : result unit :=
  if expr then Ok ()
  else match build with
       | DebugBuild => Fault (Aborted msg)
       | ProductionBuild => Fault (FatalError msg)
       end.

(** ** Scalars *)

(** Identities of plan nodes (the address a [shared_ptr] holds). *)
Abbreviation NodeId := positive (only parsing).

(** [ChunkID] and [ColumnID] are unsigned integers that are only used as
    positions in the chunk and column vectors. *)
Abbreviation ChunkID := nat (only parsing).
Abbreviation ColumnID := nat (only parsing).
Abbreviation ParameterID := nat (only parsing).

(** [float]: IEEE binary32. *)
Definition float_prec : Z := 24.
Definition float_emax : Z := 128.
Definition float := spec_float.
Definition Cardinality := float.
Definition Selectivity := float.

(** [static_cast<float>(n)] for an unsigned integer, rounding to nearest even. *)
Definition float_of_nat (n : nat) : float :=
  binary_normalize float_prec float_emax (Z.of_nat n) 0 false.
Definition float_sub : float → float → float := SFsub float_prec float_emax.
Definition float_div : float → float → float := SFdiv float_prec float_emax.
Definition float_ltb : float → float → bool := SFltb.
Arguments float_of_nat : simpl never.
Arguments float_sub : simpl never.
Arguments float_div : simpl never.

Inductive DataType := DT_Null | DT_Int | DT_Long | DT_Float | DT_Double | DT_String.

(** [std::is_arithmetic_v] of the C++ type a [DataType] resolves to. *)
Definition is_arithmetic (t : DataType) : bool :=
  match t with
  | DT_Int | DT_Long | DT_Float | DT_Double => true
  | DT_Null | DT_String => false
  end.

Inductive AllTypeVariant :=
  | NullValue
  | IntValue (v : Z)
  | LongValue (v : Z)
  | FloatValue (v : float)
  | DoubleValue (v : float)
  | StringValue (v : string).

(** [AllParameterVariant]: a placeholder, a column or a plain value. *)
Inductive AllParameterVariant :=
  | PV_Parameter (p : ParameterID)
  | PV_Column (c : ColumnID)
  | PV_Variant (v : AllTypeVariant).

Definition is_variant (v : AllParameterVariant) : bool :=
  match v with PV_Variant _ => true | _ => false end.

(** [boost::get<AllTypeVariant>] throws when the variant holds something else. *)
Definition get_AllTypeVariant (v : AllParameterVariant) : result AllTypeVariant :=
  match v with
  | PV_Variant x => Ok x
  | _ => Fault (FatalError "boost::bad_get")
  end.

Inductive PredicateCondition :=
  | Equals | NotEquals | LessThan | LessThanEquals | GreaterThan
  | GreaterThanEquals | BetweenInclusive | IsNull | IsNotNull | Like.

Record OperatorScanPredicate := {
  column_id : ColumnID;
  predicate_condition : PredicateCondition;
  value : AllParameterVariant;
  value2 : option AllParameterVariant;
}.

(** ** Chain intersector *)

(** The loop of [intersect_chunk_ids] from [set_idx = 1] on. *)
Fixpoint intersect_loop (chunk_id_set : gset ChunkID)
    (rest : list (gset ChunkID)) : gset ChunkID :=
  match rest with
  | [] => chunk_id_set
  | current_chunk_id_set :: rest' =>
      if decide (current_chunk_id_set = ∅) then ∅
      else intersect_loop (chunk_id_set ∩ current_chunk_id_set) rest'
  end.

Definition intersect_chunk_ids (chunk_id_sets : list (gset ChunkID)) : gset ChunkID :=
  match chunk_id_sets with
  | [] => ∅
  | first :: rest =>
      if decide (first = ∅) then ∅
      else match rest with
           | [] => first
           | _ => intersect_loop first rest
           end
  end.

(** ** Expressions *)

Inductive ExpressionKind :=
  | PredicateExpression (condition : PredicateCondition)
  | ArithmeticExpression
  | LogicalExpression
  | ListExpression
  | FunctionExpression.

(** An expression tree. A column expression refers to the plan node it was
    defined on through a [weak_ptr], which is [None] once expired. *)
Inductive Expression :=
  | LQPColumnExpression (original_node : option NodeId) (original_column_id : ColumnID)
  | ValueExpression (v : AllTypeVariant)
  | PlaceholderExpression (p : ParameterID)
  | CompositeExpression (kind : ExpressionKind) (arguments : list Expression).

Inductive ExpressionVisitation := VisitArguments | DoNotVisitArguments.

(** Modelled from the spec: [visit_expression] comes from
    [expression/expression_utils.hpp], which is not part of the sources. It
    calls the visitor on an expression and, when the visitor asks for it, on
    the expression's arguments in turn. *)
Fixpoint visit_expression {S : Type}
    (visitor : Expression → S → S * ExpressionVisitation)
    (expression : Expression) (s : S) : S :=
  let '(s', visitation) := visitor expression s in
  match visitation with
  | DoNotVisitArguments => s'
  | VisitArguments =>
      match expression with
      | CompositeExpression _ arguments =>
          (fix visit_all (l : list Expression) (acc : S) : S :=
             match l with
             | [] => acc
             | argument :: l' => visit_all l' (visit_expression visitor argument acc)
             end) arguments s'
      | _ => s'
      end
  end.

(** The visitor of [find_predicate_chains_recursively], lines 613-622: the
    state is the flag [predicate_matches_table]. The [Assert] on the dynamic
    cast cannot fail here, since only [LQPColumnExpression] has the type
    [LQPColumn]. *)
Definition column_visitor (stored_table_node : NodeId)
    (expression : Expression) (predicate_matches_table : bool)
    : bool * ExpressionVisitation :=
  match expression with
  | LQPColumnExpression original_node _ =>
      (if decide (original_node = Some stored_table_node)
       then predicate_matches_table else false,
       DoNotVisitArguments)
  | _ => (predicate_matches_table, VisitArguments)
  end.

Definition predicate_matches_table (stored_table_node : NodeId)
    (predicate_expression : Expression) : bool :=
  visit_expression (column_visitor stored_table_node) predicate_expression true.

(** ** Statistics objects *)

(** A pruning filter of a segment ([RangeFilter], [MinMaxFilter]). Their
    classes are not part of the sources; a filter is given by its
    [does_not_contain] query. *)
Record Filter := {
  does_not_contain :
    PredicateCondition → AllTypeVariant → option AllTypeVariant → bool;
}.

Inductive Transformation :=
  | Scaled (selectivity : Selectivity)
  | Pruned (num_values_pruned : nat) (condition : PredicateCondition)
      (variant_value : AllTypeVariant) (variant_value2 : option AllTypeVariant).

(** Modelled from the spec: the statistics classes are not part of the
    sources. A column statistics object has a data type, at most one filter
    of each kind, and supports the two transformations [scaled] and [pruned].
    What the transformations do to the estimates is outside the rule, so an
    object records the transformations applied to it, the latest first. *)
Record BaseAttributeStatistics := {
  data_type : DataType;
  range_filter : option Filter;
  min_max_filter : option Filter;
  transformations : list Transformation;
}.

Definition transform (t : Transformation) (s : BaseAttributeStatistics)
    : BaseAttributeStatistics :=
  {| data_type := data_type s; range_filter := range_filter s;
     min_max_filter := min_max_filter s;
     transformations := t :: transformations s |}.

Definition scaled (selectivity : Selectivity) := transform (Scaled selectivity).
Definition pruned (num_values_pruned : nat) (condition : PredicateCondition)
    (variant_value : AllTypeVariant) (variant_value2 : option AllTypeVariant) :=
  transform (Pruned num_values_pruned condition variant_value variant_value2).

Record TableStatistics := {
  column_statistics : list BaseAttributeStatistics;
  row_count : Cardinality;
}.

(** ** Storage *)

Record Chunk := {
  size : nat;
  pruning_statistics : option (list BaseAttributeStatistics);
}.

(** A table: its chunks ([get_chunk] may return a null pointer), the data
    types of its columns and its statistics. *)
Record Table := {
  chunks : list (option Chunk);
  column_data_types : list DataType;
  table_table_statistics : TableStatistics;
}.

(** ** Plan nodes *)

Module LQPNodeType.
Inductive t :=
  | Predicate | Validate | StoredTable | Join | Alias | Projection | Sort
  | Other.
End LQPNodeType.

Record StoredTableNode := {
  table_name : string;
  pruned_column_ids : list ColumnID;
  pruned_chunk_ids : list ChunkID;
  table_statistics : option TableStatistics;
}.

Definition set_pruned_column_ids (ids : list ColumnID) (n : StoredTableNode) :=
  {| table_name := table_name n; pruned_column_ids := ids;
     pruned_chunk_ids := pruned_chunk_ids n;
     table_statistics := table_statistics n |}.

Definition set_pruned_chunk_ids (ids : list ChunkID) (n : StoredTableNode) :=
  {| table_name := table_name n; pruned_column_ids := pruned_column_ids n;
     pruned_chunk_ids := ids;
     table_statistics := table_statistics n |}.

Definition set_table_statistics (s : TableStatistics) (n : StoredTableNode) :=
  {| table_name := table_name n; pruned_column_ids := pruned_column_ids n;
     pruned_chunk_ids := pruned_chunk_ids n;
     table_statistics := Some s |}.

Inductive NodeImpl :=
  | PredicateNode (predicate : Expression)
  | StoredTableNodeImpl (node : StoredTableNode)
  | ValidateNode | JoinNode | AliasNode | ProjectionNode | SortNode
  | OtherNode.

Record AbstractLQPNode := {
  impl : NodeImpl;
  outputs : list NodeId;
}.

Definition type (node : AbstractLQPNode) : LQPNodeType.t :=
  match impl node with
  | PredicateNode _ => LQPNodeType.Predicate
  | StoredTableNodeImpl _ => LQPNodeType.StoredTable
  | ValidateNode => LQPNodeType.Validate
  | JoinNode => LQPNodeType.Join
  | AliasNode => LQPNodeType.Alias
  | ProjectionNode => LQPNodeType.Projection
  | SortNode => LQPNodeType.Sort
  | OtherNode => LQPNodeType.Other
  end.

(** A [shared_ptr<PredicateNode>]: the node's identity and, since the rule
    never changes a predicate node, the predicate it wraps. *)
Record PredicateNodePtr := {
  node_id : NodeId;
  predicate : Expression;
}.

Abbreviation PredicateChain := (list PredicateNodePtr) (only parsing).

(** ** External collaborators *)

(** What the rule consumes from the rest of the system: the build kind, the
    storage manager's tables, [OperatorScanPredicate::from_expression] (the
    scan-predicate normalizer, applied to the predicate and to the copy of the
    scan without column pruning) and [lossless_variant_cast]. Neither function
    is part of the sources; both are black boxes here. *)
Record Environment := {
  build : Build;
  storage_manager : gmap string Table;
  from_expression :
    Expression → StoredTableNode → option (list OperatorScanPredicate);
  lossless_variant_cast : AllTypeVariant → DataType → option AllTypeVariant;
}.

(** [storage_manager.get_table(name)]: asking for a table that does not exist
    is a failed assertion. *)
Definition get_table (env : Environment) (name : string) : result Table :=
  match storage_manager env !! name with
  | Some table => Ok table
  | None => Fault (FatalError "No such table")
  end.

(** ** Exclusion evaluator *)

Definition _can_prune (b : Build) (base_segment_statistics : BaseAttributeStatistics)
    (predicate_condition : PredicateCondition) (variant_value : AllTypeVariant)
    (variant_value2 : option AllTypeVariant) : result bool :=
  let segment_statistics := base_segment_statistics in
  can_prune ←
    (if is_arithmetic (data_type segment_statistics) then
       let can_prune :=
         match range_filter segment_statistics with
         | Some filter =>
             does_not_contain filter predicate_condition variant_value variant_value2
         | None => false
         end in
       _ ← DebugAssert b
             (bool_decide (min_max_filter segment_statistics = None))
             "Segment should not have a MinMaxFilter and a RangeFilter at the same time";
       Ok can_prune
     else Ok false);
  match min_max_filter segment_statistics with
  | Some filter =>
      if does_not_contain filter predicate_condition variant_value variant_value2
      then Ok true else Ok can_prune
  | None => Ok can_prune
  end.

(** The statistics corrector. [column_id] runs over the columns of
    [old_statistics] from [first] on. *)
Fixpoint prune_columns (first : ColumnID) (columns : list BaseAttributeStatistics)
    (predicate : OperatorScanPredicate) (num_rows_pruned : nat) (scale : float)
    : result (list BaseAttributeStatistics) :=
  match columns with
  | [] => Ok []
  | column :: columns' =>
      new_column ←
        (if decide (first = column_id predicate) then
           variant_value ← get_AllTypeVariant (value predicate);
           variant_value2 ←
             match value2 predicate with
             | Some v2 => x ← get_AllTypeVariant v2; Ok (Some x)
             | None => Ok None
             end;
           Ok (pruned num_rows_pruned (predicate_condition predicate)
                 variant_value variant_value2 column)
         else Ok (scaled scale column));
      rest ← prune_columns (S first) columns' predicate num_rows_pruned scale;
      Ok (new_column :: rest)
  end.

Definition float_one : float := float_of_nat 1.
Arguments float_one : simpl never.

Definition _prune_table_statistics (old_statistics : TableStatistics)
    (predicate : OperatorScanPredicate) (num_rows_pruned : nat)
    : result TableStatistics :=
  let scale :=
    float_sub float_one
      (float_div (float_of_nat num_rows_pruned) (row_count old_statistics)) in
  column_statistics ←
    prune_columns 0 (column_statistics old_statistics) predicate num_rows_pruned scale;
  Ok {| column_statistics := column_statistics;
        row_count := float_sub (row_count old_statistics)
                       (float_of_nat num_rows_pruned) |}.

(** The loop over the chunks of the table, lines 487-507. The accumulator is
    [num_rows_pruned] and [local_excluded_chunk_ids]; [chunk_id] is the
    identifier of the first chunk of [remaining]. *)
Fixpoint scan_chunks (b : Build) (already_pruned_chunk_ids : list ChunkID)
    (column : ColumnID) (condition : PredicateCondition)
    (variant_value : AllTypeVariant) (variant_value2 : option AllTypeVariant)
    (chunk_id : ChunkID) (remaining : list (option Chunk))
    (num_rows_pruned : nat) (local_excluded_chunk_ids : gset ChunkID)
    : result (nat * gset ChunkID) :=
  match remaining with
  | [] => Ok (num_rows_pruned, local_excluded_chunk_ids)
  | chunk :: remaining' =>
      '(num_rows_pruned', local') ←
        match chunk with
        | None => Ok (num_rows_pruned, local_excluded_chunk_ids)
        | Some chunk =>
            match pruning_statistics chunk with
            | None => Ok (num_rows_pruned, local_excluded_chunk_ids)
            | Some statistics =>
                match statistics !! column with
                | None => Fault OutOfRange
                | Some segment_statistics =>
                    can_prune ← _can_prune b segment_statistics condition
                                  variant_value variant_value2;
                    if can_prune : bool then
                      Ok (if bool_decide (chunk_id ∈ already_pruned_chunk_ids)
                          then num_rows_pruned
                          else num_rows_pruned + size chunk,
                          {[chunk_id]} ∪ local_excluded_chunk_ids)
                    else Ok (num_rows_pruned, local_excluded_chunk_ids)
                end
            end
        end;
      scan_chunks b already_pruned_chunk_ids column condition variant_value
        variant_value2 (S chunk_id) remaining' num_rows_pruned' local'
  end.

(** Lines 483-514: the per-chunk statistics scan for one normalized tuple,
    whose values were cast to the column's type, and the statistics
    correction that follows it. *)
Definition scan_and_correct (env : Environment) (table : Table)
    (operator_predicate : OperatorScanPredicate)
    (variant_value : AllTypeVariant) (variant_value2 : option AllTypeVariant)
    (local_excluded_chunk_ids : gset ChunkID) (stored_table_node : StoredTableNode)
    : result (gset ChunkID * StoredTableNode) :=
  '(num_rows_pruned, local') ←
    scan_chunks (build env) (pruned_chunk_ids stored_table_node)
      (column_id operator_predicate) (predicate_condition operator_predicate)
      variant_value variant_value2 0 (chunks table) 0 local_excluded_chunk_ids;
  if decide (0 < num_rows_pruned) then
    let old_statistics :=
      match table_statistics stored_table_node with
      | Some statistics => statistics
      | None => table_table_statistics table
      end in
    pruned_statistics ←
      _prune_table_statistics old_statistics operator_predicate num_rows_pruned;
    Ok (local', set_table_statistics pruned_statistics stored_table_node)
  else Ok (local', stored_table_node).

(** The body of the loop over the normalized tuples, lines 452-515. *)
Definition prune_with_operator_predicate (env : Environment) (table : Table)
    (operator_predicate : OperatorScanPredicate)
    (local_excluded_chunk_ids : gset ChunkID) (stored_table_node : StoredTableNode)
    : result (gset ChunkID * StoredTableNode) :=
  let skip := Ok (local_excluded_chunk_ids, stored_table_node) in
  match value operator_predicate with
  | PV_Variant variant =>
      match column_data_types table !! column_id operator_predicate with
      | None => Fault OutOfRange
      | Some column_data_type =>
          match lossless_variant_cast env variant column_data_type with
          | None => skip
          | Some value =>
              match value2 operator_predicate with
              | None =>
                  scan_and_correct env table operator_predicate value None
                    local_excluded_chunk_ids stored_table_node
              | Some (PV_Variant variant2) =>
                  match lossless_variant_cast env variant2 column_data_type with
                  | None => skip
                  | Some value2 =>
                      scan_and_correct env table operator_predicate value
                        (Some value2) local_excluded_chunk_ids stored_table_node
                  end
              | Some _ => skip
              end
          end
      end
  | _ => skip
  end.

Fixpoint prune_with_operator_predicates (env : Environment) (table : Table)
    (operator_predicates : list OperatorScanPredicate)
    (local_excluded_chunk_ids : gset ChunkID) (stored_table_node : StoredTableNode)
    : result (gset ChunkID * StoredTableNode) :=
  match operator_predicates with
  | [] => Ok (local_excluded_chunk_ids, stored_table_node)
  | operator_predicate :: rest =>
      '(local', node') ←
        prune_with_operator_predicate env table operator_predicate
          local_excluded_chunk_ids stored_table_node;
      prune_with_operator_predicates env table rest local' node'
  end.

(** The rule object. Its only member is the memo
    [_excluded_chunk_ids_by_predicate_node], keyed by the identity of the
    predicate node. [statistics_scans] is not in the program: it lists, latest
    first, the predicate nodes whose tuples went through the loop of lines
    452-515, so that statements can count these scans. *)
Record ChunkPruningRule := {
  _excluded_chunk_ids_by_predicate_node : gmap NodeId (gset ChunkID);
  statistics_scans : list NodeId;
}.

(** The body of the loop over the chain, lines 419-521, up to the update of
    [global_excluded_chunk_ids]: the set of chunks excluded by one predicate
    node, or [None] where the function leaves through [return {}]. *)
Definition evaluate_predicate_node (env : Environment) (table : Table)
    (predicate_node : PredicateNodePtr)
    (stored_table_node : StoredTableNode) (rule : ChunkPruningRule)
    : result (option (gset ChunkID) * StoredTableNode * ChunkPruningRule) :=
  match _excluded_chunk_ids_by_predicate_node rule !! node_id predicate_node with
  | Some local_excluded_chunk_ids =>
      Ok (Some local_excluded_chunk_ids, stored_table_node, rule)
  | None =>
      let stored_table_node_without_column_pruning :=
        set_pruned_column_ids [] stored_table_node in
      match from_expression env (predicate predicate_node)
              stored_table_node_without_column_pruning with
      | None => Ok (None, stored_table_node, rule)
      | Some operator_predicates =>
          '(local_excluded_chunk_ids, node') ←
            prune_with_operator_predicates env table operator_predicates
              ∅ stored_table_node;
          Ok (Some local_excluded_chunk_ids, node',
              {| _excluded_chunk_ids_by_predicate_node :=
                   <[node_id predicate_node := local_excluded_chunk_ids]>
                     (_excluded_chunk_ids_by_predicate_node rule);
                 statistics_scans :=
                   node_id predicate_node :: statistics_scans rule |})
      end
  end.

(** The loop over the chain, with [global_excluded_chunk_ids] as accumulator. *)
Fixpoint compute_exclude_list_from (env : Environment) (table : Table)
    (predicate_chain : PredicateChain) (global_excluded_chunk_ids : gset ChunkID)
    (stored_table_node : StoredTableNode) (rule : ChunkPruningRule)
    : result (gset ChunkID * StoredTableNode * ChunkPruningRule) :=
  match predicate_chain with
  | [] => Ok (global_excluded_chunk_ids, stored_table_node, rule)
  | predicate_node :: rest =>
      '(local, node', rule') ←
        evaluate_predicate_node env table predicate_node stored_table_node rule;
      match local with
      | None => Ok (∅, node', rule')
      | Some local_excluded_chunk_ids =>
          compute_exclude_list_from env table rest
            (global_excluded_chunk_ids ∪ local_excluded_chunk_ids) node' rule'
      end
  end.

Definition _compute_exclude_list (env : Environment) (table : Table)
    (predicate_chain : PredicateChain)
    (stored_table_node : StoredTableNode) (rule : ChunkPruningRule)
    : result (gset ChunkID * StoredTableNode * ChunkPruningRule) :=
  compute_exclude_list_from env table predicate_chain ∅ stored_table_node rule.

(** ** Predicate chain finder *)

Definition _is_non_filtering_node (node : AbstractLQPNode) : bool :=
  match type node with
  | LQPNodeType.Alias | LQPNodeType.Projection | LQPNodeType.Sort => true
  | _ => false
  end.

(** The test of lines 604-606. *)
Definition chain_compatible (node : AbstractLQPNode) : bool :=
  match type node with
  | LQPNodeType.Predicate | LQPNodeType.Validate | LQPNodeType.StoredTable
  | LQPNodeType.Join => true
  | _ => _is_non_filtering_node node
  end.

Inductive LQPUpwardVisitation := VisitOutputs | DoNotVisitOutputs.

(** Following a pointer to a plan node. The store holds every node of the
    plan; an identity outside it stands for a dangling pointer. *)
Definition deref (lqp : gmap NodeId AbstractLQPNode) (node : NodeId)
    : result AbstractLQPNode :=
  match lqp !! node with
  | Some n => Ok n
  | None => Fault (FatalError "dangling node pointer")
  end.

(** Modelled from the spec: [visit_lqp_upwards] comes from
    [logical_query_plan/lqp_utils.hpp], which is not part of the sources. It
    is the upward traversal primitive: nodes wait in a queue, the visitor is
    called on the node at the front, and the node's consumers are queued when
    the visitor answers [VisitOutputs]. One unit of [fuel] is spent per
    visited node. *)
Fixpoint visit_lqp_upwards {S : Type} (fuel : nat) (lqp : gmap NodeId AbstractLQPNode)
    (visitor : NodeId → AbstractLQPNode → S → result (S * LQPUpwardVisitation))
    (node_queue : list NodeId) (s : S) : result S :=
  match node_queue with
  | [] => Ok s
  | node :: node_queue' =>
      match fuel with
      | 0 => Fault OutOfFuel
      | S fuel' =>
          current_node ← deref lqp node;
          '(s', visitation) ← visitor node current_node s;
          match visitation with
          | VisitOutputs =>
              visit_lqp_upwards fuel' lqp visitor
                (node_queue' ++ outputs current_node) s'
          | DoNotVisitOutputs =>
              visit_lqp_upwards fuel' lqp visitor node_queue' s'
          end
      end
  end.

(** Line 607-628: the chain after the visit of [current_node]. *)
Definition extend_chain (stored_table_node : NodeId) (node : NodeId)
    (current_node : AbstractLQPNode) (current_predicate_chain : PredicateChain)
    : PredicateChain :=
  match impl current_node with
  | PredicateNode predicate_expression =>
      if predicate_matches_table stored_table_node predicate_expression
      then current_predicate_chain ++
             [ {| node_id := node; predicate := predicate_expression |} ]
      else current_predicate_chain
  | _ => current_predicate_chain
  end.

(** Lines 632-638: one recursive call per consumer, results appended. *)
Fixpoint visit_branches
    (recurse : NodeId → PredicateChain → result (list PredicateChain))
    (output_nodes : list NodeId) (current_predicate_chain : PredicateChain)
    (predicate_chains : list PredicateChain) : result (list PredicateChain) :=
  match output_nodes with
  | [] => Ok predicate_chains
  | output_node :: rest =>
      continued_predicate_chains ← recurse output_node current_predicate_chain;
      visit_branches recurse rest current_predicate_chain
        (predicate_chains ++ continued_predicate_chains)
  end.

(** The visitor of lines 603-649. Its state is the pair of the captured
    variables [current_predicate_chain] and [predicate_chains]. *)
Definition chain_visitor
    (recurse : NodeId → PredicateChain → result (list PredicateChain))
    (stored_table_node : NodeId) (node : NodeId) (current_node : AbstractLQPNode)
    (s : PredicateChain * list PredicateChain)
    : result ((PredicateChain * list PredicateChain) * LQPUpwardVisitation) :=
  let '(current_predicate_chain, predicate_chains) := s in
  if chain_compatible current_node then
    let current_predicate_chain :=
      extend_chain stored_table_node node current_node current_predicate_chain in
    if decide (1 < length (outputs current_node)) then
      predicate_chains ←
        visit_branches recurse (outputs current_node) current_predicate_chain
          predicate_chains;
      Ok ((current_predicate_chain, predicate_chains), DoNotVisitOutputs)
    else Ok ((current_predicate_chain, predicate_chains), VisitOutputs)
  else
    Ok ((current_predicate_chain, predicate_chains ++ [current_predicate_chain]),
        DoNotVisitOutputs).

Fixpoint find_predicate_chains_recursively (fuel : nat)
    (lqp : gmap NodeId AbstractLQPNode) (stored_table_node : NodeId)
    (node : NodeId) (current_predicate_chain : PredicateChain)
    : result (list PredicateChain) :=
  match fuel with
  | 0 => Fault OutOfFuel
  | S fuel' =>
      '(_, predicate_chains) ←
        visit_lqp_upwards fuel' lqp
          (chain_visitor
             (find_predicate_chains_recursively fuel' lqp stored_table_node)
             stored_table_node)
          [node] (current_predicate_chain, []);
      Ok predicate_chains
  end.

(** ** Rule driver *)

(** What one application of the rule reads and writes: the plan, whose
    stored-table nodes it mutates, and the rule object. *)
Record PlanState := {
  lqp : gmap NodeId AbstractLQPNode;
  rule : ChunkPruningRule;
}.

(** The stored-table node behind an identity, if there is one. *)
Definition stored_table (st : PlanState) (n : NodeId) : option StoredTableNode :=
  match lqp st !! n with
  | Some {| impl := StoredTableNodeImpl s |} => Some s
  | _ => None
  end.

(** Step (1), lines 380-384. [std::unordered_map::emplace] leaves the map as it
    is when the key is present. The model keeps the entries in the order of
    their insertion; the order in which the leafs are given is arbitrary. *)
Definition emplace {V : Type} (key : NodeId) (v : V) (m : list (NodeId * V))
    : list (NodeId * V) :=
  if bool_decide (key ∈ m.*1) then m else m ++ [(key, v)].

Definition collect_stored_table_nodes (stored_table_nodes : list NodeId)
    : list (NodeId * list PredicateChain) :=
  foldl (λ m node, emplace node [] m) [] stored_table_nodes.

(** Step (2), lines 387-389. *)
Fixpoint collect_predicate_chains (fuel : nat) (plan : gmap NodeId AbstractLQPNode)
    (entries : list (NodeId * list PredicateChain))
    : result (list (NodeId * list PredicateChain)) :=
  match entries with
  | [] => Ok []
  | (stored_table_node, _) :: rest =>
      predicate_chains ←
        find_predicate_chains_recursively fuel plan stored_table_node
          stored_table_node [];
      rest' ← collect_predicate_chains fuel plan rest;
      Ok ((stored_table_node, predicate_chains) :: rest')
  end.

(** Step (3.1), lines 397-401: one exclusion set per chain, in order. *)
Fixpoint compute_pruned_chunk_id_sets (env : Environment) (table : Table)
    (predicate_chains : list PredicateChain)
    (stored_table_node : StoredTableNode) (r : ChunkPruningRule)
    : result (list (gset ChunkID) * StoredTableNode * ChunkPruningRule) :=
  match predicate_chains with
  | [] => Ok ([], stored_table_node, r)
  | predicate_chain :: rest =>
      '(exclusions, node', r') ←
        _compute_exclude_list env table predicate_chain stored_table_node r;
      '(pruned_chunk_id_sets, node'', r'') ←
        compute_pruned_chunk_id_sets env table rest node' r';
      Ok (exclusions :: pruned_chunk_id_sets, node'', r'')
  end.

(** [std::vector<ChunkID>(pruned_chunk_ids.begin(), pruned_chunk_ids.end())]:
    the elements of the set in ascending order. *)
Definition to_sorted_vector (chunk_ids : gset ChunkID) : list ChunkID :=
  merge_sort Nat.le (elements chunk_ids).

Definition store_node (stored_table_node : NodeId) (current : AbstractLQPNode)
    (node : StoredTableNode) (plan : gmap NodeId AbstractLQPNode)
    : gmap NodeId AbstractLQPNode :=
  <[stored_table_node :=
      {| impl := StoredTableNodeImpl node; outputs := outputs current |}]> plan.

(** Steps (3.1) and (3.2), lines 395-411, for one stored-table node and the
    chains found for it. *)
Definition set_pruned_chunks (env : Environment)
    (stored_table_node : NodeId) (predicate_chains : list PredicateChain)
    (st : PlanState) : result PlanState :=
  current ← deref (lqp st) stored_table_node;
  match impl current with
  | StoredTableNodeImpl node =>
      table ← get_table env (table_name node);
      '(pruned_chunk_id_sets, node', rule') ←
        compute_pruned_chunk_id_sets env table predicate_chains node (rule st);
      let pruned_chunk_ids' := intersect_chunk_ids pruned_chunk_id_sets in
      if decide (pruned_chunk_ids' = ∅) then
        Ok {| lqp := store_node stored_table_node current node' (lqp st);
              rule := rule' |}
      else
        _ ← DebugAssert (build env)
              (bool_decide (pruned_chunk_ids node' = []))
              "Did not expect a StoredTableNode with an already existing set of pruned chunk ids.";
        Ok {| lqp := store_node stored_table_node current
                       (set_pruned_chunk_ids
                          (to_sorted_vector pruned_chunk_ids') node')
                       (lqp st);
              rule := rule' |}
  | _ => Fault (FatalError "not a StoredTableNode")
  end.

(** The body of the loop of step (3), lines 392-412. *)
Definition prune_stored_table_node (env : Environment)
    (stored_table_node : NodeId) (predicate_chains : list PredicateChain)
    (st : PlanState) : result PlanState :=
  match predicate_chains with
  | [] => Ok st
  | _ => set_pruned_chunks env stored_table_node predicate_chains st
  end.

Fixpoint prune_stored_table_nodes (env : Environment)
    (entries : list (NodeId * list PredicateChain)) (st : PlanState)
    : result PlanState :=
  match entries with
  | [] => Ok st
  | (stored_table_node, predicate_chains) :: rest =>
      st' ← prune_stored_table_node env stored_table_node predicate_chains st;
      prune_stored_table_nodes env rest st'
  end.

(** One application of the rule. [stored_table_nodes] is what
    [lqp_find_leafs<StoredTableNode>(lqp_root)] returns; that function is not
    part of the sources. *)
Definition _apply_to_plan_without_subqueries (env : Environment) (fuel : nat)
    (stored_table_nodes : list NodeId) (st : PlanState) : result PlanState :=
  let predicate_chains_by_stored_table_node :=
    collect_stored_table_nodes stored_table_nodes in
  predicate_chains_by_stored_table_node ←
    collect_predicate_chains fuel (lqp st) predicate_chains_by_stored_table_node;
  prune_stored_table_nodes env predicate_chains_by_stored_table_node st.

(** The exclusion sets of the chains of one scan, as step (3.1) computes
    them one after the other. *)
Definition exclusion_sets_of (env : Environment) (node : StoredTableNode)
    (predicate_chains : list PredicateChain) (r : ChunkPruningRule)
    : list (gset ChunkID) :=
  match get_table env (table_name node) with
  | Ok table =>
      match compute_pruned_chunk_id_sets env table predicate_chains node r with
      | Ok (pruned_chunk_id_sets, _, _) => pruned_chunk_id_sets
      | Fault _ => []
      end
  | Fault _ => []
  end.

(** ** Vocabulary of the statements *)

(** The evaluator writes one field of the scan, its statistics override. *)
Definition same_scan (n n' : StoredTableNode) : Prop :=
  table_name n' = table_name n ∧
  pruned_column_ids n' = pruned_column_ids n ∧
  pruned_chunk_ids n' = pruned_chunk_ids n.

(** One step of the rule object: the memo only gains entries, and each
    predicate node scanned in the step was absent from the memo before the
    step, is in the memo after it, and was scanned once. *)
Record rule_step (r r' : ChunkPruningRule) : Prop := {
  memo_grows :
    _excluded_chunk_ids_by_predicate_node r ⊆
    _excluded_chunk_ids_by_predicate_node r';
  scans_grow :
    ∃ new, statistics_scans r' = new ++ statistics_scans r ∧ NoDup new ∧
      ∀ p, p ∈ new →
        _excluded_chunk_ids_by_predicate_node r !! p = None ∧
        is_Some (_excluded_chunk_ids_by_predicate_node r' !! p);
}.

(** A value a tuple can be pruned with: a plain scalar that casts losslessly
    to the column's type. *)
Definition castable (env : Environment) (column_data_type : DataType)
    (v : AllParameterVariant) : bool :=
  match v with
  | PV_Variant x =>
      match lossless_variant_cast env x column_data_type with
      | Some _ => true
      | None => false
      end
  | _ => false
  end.

(** The tuples the evaluator skips: the value is not a plain scalar, or the
    column has a declared type into which the value, or the second value,
    is not castable. *)
Inductive unusable_tuple (env : Environment) (table : Table)
    (op : OperatorScanPredicate) : Prop :=
  | unusable_value :
      is_variant (value op) = false → unusable_tuple env table op
  | unusable_cast column_data_type :
      column_data_types table !! column_id op = Some column_data_type →
      castable env column_data_type (value op) = false ∨
      (∃ x, value2 op = Some x ∧ castable env column_data_type x = false) →
      unusable_tuple env table op.

(** The failure of the check of lines 408-409. *)
Definition precondition_violation (b : Build) : Failure :=
  let message :=
    "Did not expect a StoredTableNode with an already existing set of pruned chunk ids."
  in
  match b with
  | DebugBuild => Aborted message
  | ProductionBuild => FatalError message
  end.

(** The nodes the column references of an expression were defined on. *)
Fixpoint column_references (e : Expression) : list (option NodeId) :=
  match e with
  | LQPColumnExpression original_node _ => [original_node]
  | CompositeExpression _ arguments =>
      (fix of_all (l : list Expression) : list (option NodeId) :=
         match l with
         | [] => []
         | argument :: l' => column_references argument ++ of_all l'
         end) arguments
  | _ => []
  end.

(** Every column reference of the expression resolves to the scan. *)
Definition resolves_to_scan (stored_table_node : NodeId) (e : Expression) : Prop :=
  Forall (λ original_node, original_node = Some stored_table_node)
    (column_references e).

(** The chain-compatible kinds as the description lists them. *)
Definition spec_chain_compatible (node : AbstractLQPNode) : Prop :=
  type node ∈ [ LQPNodeType.Predicate; LQPNodeType.Validate;
                LQPNodeType.StoredTable; LQPNodeType.Join; LQPNodeType.Alias;
                LQPNodeType.Projection; LQPNodeType.Sort ].

(** The chain after a node, as described: a predicate node whose column
    references all resolve to the scan is appended, any other node leaves the
    chain as it is. *)
Inductive spec_chain_after (stored_table_node : NodeId) (n : NodeId)
    (node : AbstractLQPNode) (chain : list PredicateNodePtr)
    : list PredicateNodePtr → Prop :=
  | chain_appended e :
      impl node = PredicateNode e →
      resolves_to_scan stored_table_node e →
      spec_chain_after stored_table_node n node chain
        (chain ++ [ {| node_id := n; predicate := e |} ])
  | chain_skipped e :
      impl node = PredicateNode e →
      ¬ resolves_to_scan stored_table_node e →
      spec_chain_after stored_table_node n node chain chain
  | chain_kept :
      type node ≠ LQPNodeType.Predicate →
      spec_chain_after stored_table_node n node chain chain.

(** The walk of section 4.1 of the description, from node [n] with the
    accumulated chain [chain], and the chains it emits. *)
Inductive spec_walk (plan : gmap NodeId AbstractLQPNode)
    (stored_table_node : NodeId)
    : NodeId → list PredicateNodePtr → list (list PredicateNodePtr) → Prop :=
  | walk_ended n node chain :
      plan !! n = Some node →
      ¬ spec_chain_compatible node →
      spec_walk plan stored_table_node n chain [chain]
  | walk_branches n node chain chain' branches :
      plan !! n = Some node →
      spec_chain_compatible node →
      spec_chain_after stored_table_node n node chain chain' →
      1 < length (outputs node) →
      Forall2 (λ consumer chains,
                 spec_walk plan stored_table_node consumer chain' chains)
        (outputs node) branches →
      spec_walk plan stored_table_node n chain (concat branches)
  | walk_continues n node chain chain' consumer chains :
      plan !! n = Some node →
      spec_chain_compatible node →
      spec_chain_after stored_table_node n node chain chain' →
      outputs node = [consumer] →
      spec_walk plan stored_table_node consumer chain' chains →
      spec_walk plan stored_table_node n chain chains
  | walk_no_consumer n node chain :
      plan !! n = Some node →
      spec_chain_compatible node →
      outputs node = [] →
      spec_walk plan stored_table_node n chain [].

(** A plan without cycles: every consumer of a node is a node of the plan
    and lies strictly closer to the root, as measured by [height]. *)
Definition acyclic (plan : gmap NodeId AbstractLQPNode) (height : NodeId → nat)
    : Prop :=
  map_Forall
    (λ n node,
       Forall (λ consumer,
                 is_Some (plan !! consumer) ∧ height consumer < height n)
         (outputs node))
    plan.

#[global] Instance acyclic_dec plan height : Decision (acyclic plan height).
Proof. unfold acyclic. apply _. Defined.

(** ** A concrete database and plans *)

Module Example.

(** A range filter over integers holding one range [lo, hi]. *)
Definition int_range_filter (lo hi : Z) : Filter :=
  {| does_not_contain := λ condition v v2,
       match v with
       | IntValue x =>
           match condition with
           | Equals => bool_decide (x < lo ∨ hi < x)%Z
           | LessThan => bool_decide (x ≤ lo)%Z
           | LessThanEquals => bool_decide (x < lo)%Z
           | GreaterThan => bool_decide (hi ≤ x)%Z
           | GreaterThanEquals => bool_decide (hi < x)%Z
           | BetweenInclusive =>
               match v2 with
               | Some (IntValue y) => bool_decide (y < lo ∨ hi < x)%Z
               | _ => false
               end
           | _ => false
           end
       | _ => false
       end |}.

Definition plain (t : DataType) : BaseAttributeStatistics :=
  {| data_type := t; range_filter := None; min_max_filter := None;
     transformations := [] |}.

(** Chunk [i] holds ten rows with the values [10 i .. 10 i + 9] in column
    [a] (an integer column) and anything in column [b]. *)
Definition chunk (i : nat) : option Chunk :=
  Some {| size := 10;
          pruning_statistics :=
            Some [ {| data_type := DT_Int;
                      range_filter :=
                        Some (int_range_filter (10 * Z.of_nat i)
                                (10 * Z.of_nat i + 9));
                      min_max_filter := None;
                      transformations := [] |};
                   plain DT_Int ] |}.

Definition table_t : Table :=
  {| chunks := chunk <$> seq 0 10;
     column_data_types := [DT_Int; DT_Int];
     table_table_statistics :=
       {| column_statistics := [plain DT_Int; plain DT_Int];
          row_count := float_of_nat 100 |} |}.

(** A normalizer for comparisons of a column with a value, a column or a
    placeholder; anything else is not normalized. *)
Definition operand (e : Expression) : option AllParameterVariant :=
  match e with
  | ValueExpression v => Some (PV_Variant v)
  | LQPColumnExpression _ c => Some (PV_Column c)
  | PlaceholderExpression p => Some (PV_Parameter p)
  | _ => None
  end.

Definition normalize (e : Expression) (_ : StoredTableNode)
    : option (list OperatorScanPredicate) :=
  match e with
  | CompositeExpression (PredicateExpression condition)
      [LQPColumnExpression _ c; e1] =>
      match operand e1 with
      | Some v =>
          Some [ {| column_id := c; predicate_condition := condition;
                    value := v; value2 := None |} ]
      | None => None
      end
  | CompositeExpression (PredicateExpression BetweenInclusive)
      [LQPColumnExpression _ c; e1; e2] =>
      match operand e1, operand e2 with
      | Some v, Some v2 =>
          Some [ {| column_id := c; predicate_condition := BetweenInclusive;
                    value := v; value2 := Some v2 |} ]
      | _, _ => None
      end
  | _ => None
  end.

(** A cast to the integer type that keeps integers and floats without a
    fractional part, and fails on everything else. *)
Definition cast (v : AllTypeVariant) (t : DataType) : option AllTypeVariant :=
  match v, t with
  | IntValue x, DT_Int => Some v
  | LongValue x, DT_Int => Some (IntValue x)
  | FloatValue (S754_zero _), DT_Int => Some (IntValue 0)
  | FloatValue (S754_finite s m e), DT_Int =>
      let magnitude :=
        if (0 <=? e)%Z then Some (Z.pos m * 2 ^ e)%Z
        else if (Z.pos m mod 2 ^ (- e) =? 0)%Z
             then Some (Z.pos m / 2 ^ (- e))%Z
             else None in
      (λ x : Z, IntValue (if s then - x else x)%Z) <$> magnitude
  | _, _ => None
  end.

Definition env (b : Build) : Environment :=
  {| build := b;
     storage_manager := {[ "t" := table_t ]};
     from_expression := normalize;
     lossless_variant_cast := cast |}.

(** Expressions over column [a] (column 0) and [b] (column 1) of the scan
    with identity 1. *)
Definition a : Expression := LQPColumnExpression (Some 1%positive) 0.
Definition b : Expression := LQPColumnExpression (Some 1%positive) 1.
Definition compare (c : PredicateCondition) (l r : Expression) : Expression :=
  CompositeExpression (PredicateExpression c) [l; r].
Definition int (x : Z) : Expression := ValueExpression (IntValue x).

Definition a_gt_95 := compare GreaterThan a (int 95).
Definition a_gt_90 := compare GreaterThan a (int 90).
Definition a_lt_5 := compare LessThan a (int 5).
Definition a_lt_15 := compare LessThan a (int 15).
Definition a_gt_15 := compare GreaterThan a (int 15).
Definition a_in_list :=
  CompositeExpression ListExpression [a; int 1; int 2].

Definition scan_node : StoredTableNode :=
  {| table_name := "t"; pruned_column_ids := []; pruned_chunk_ids := [];
     table_statistics := None |}.

Definition node (i : NodeImpl) (consumers : list NodeId) : AbstractLQPNode :=
  {| impl := i; outputs := consumers |}.

(** scan 1 -> [a > 95] 2 -> root 3 *)
Definition plan_one_predicate (s : StoredTableNode) : gmap NodeId AbstractLQPNode :=
  list_to_map
    [ (1%positive, node (StoredTableNodeImpl s) [2%positive]);
      (2%positive, node (PredicateNode a_gt_95) [3%positive]);
      (3%positive, node OtherNode []) ].

(** scan 1 -> [a > 95] 2 -> [second] 3 -> root 4 *)
Definition plan_two_predicates (second : Expression)
    : gmap NodeId AbstractLQPNode :=
  list_to_map
    [ (1%positive, node (StoredTableNodeImpl scan_node) [2%positive]);
      (2%positive, node (PredicateNode a_gt_95) [3%positive]);
      (3%positive, node (PredicateNode second) [4%positive]);
      (4%positive, node OtherNode []) ].

(** scan 1 feeds [left] 2 and [right] 3, which both feed root 4 *)
Definition plan_two_branches (left right : Expression)
    : gmap NodeId AbstractLQPNode :=
  list_to_map
    [ (1%positive, node (StoredTableNodeImpl scan_node) [2%positive; 3%positive]);
      (2%positive, node (PredicateNode left) [4%positive]);
      (3%positive, node (PredicateNode right) [4%positive]);
      (4%positive, node OtherNode []) ].

Definition ptr (n : NodeId) (e : Expression) : PredicateNodePtr :=
  {| node_id := n; predicate := e |}.

Definition fresh_rule : ChunkPruningRule :=
  {| _excluded_chunk_ids_by_predicate_node := ∅; statistics_scans := [] |}.

Definition start (plan : gmap NodeId AbstractLQPNode) : PlanState :=
  {| lqp := plan; rule := fresh_rule |}.

Definition outcome (r : result PlanState) : PlanState :=
  match r with
  | Ok st => st
  | Fault _ => start ∅
  end.

(** The value 95.5 as a [float]. *)
Definition float_95_5 : float :=
  binary_normalize float_prec float_emax 191 (-1) false.

(** The tuple of [a > 95.5]. *)
Definition a_gt_95_5_tuple : OperatorScanPredicate :=
  {| column_id := 0; predicate_condition := GreaterThan;
     value := PV_Variant (FloatValue float_95_5); value2 := None |}.

(** The tuple of [a > 95]. *)
Definition a_gt_95_tuple : OperatorScanPredicate :=
  {| column_id := 0; predicate_condition := GreaterThan;
     value := PV_Variant (IntValue 95); value2 := None |}.

(** The scan after an earlier pruning of chunk 9. *)
Definition pruned_scan_node : StoredTableNode :=
  {| table_name := "t"; pruned_column_ids := []; pruned_chunk_ids := [9];
     table_statistics := None |}.

(** The two chains of the scan that feeds [left] and [right]. *)
Definition chains_of_branches (left right : Expression)
    : list (list PredicateNodePtr) :=
  [ [ptr 2 left]; [ptr 3 right] ].

(** Step (3) on the scan of the two-branch plan. *)
Definition after_branches (b : Build) (left right : Expression) : PlanState :=
  outcome (prune_stored_table_node (env b) 1%positive
             (chains_of_branches left right)
             (start (plan_two_branches left right))).

(** The rule object after one application to the one-predicate plan, put
    to work on a second plan with the same node identities, and the state
    after that second application. *)
Definition used_rule : ChunkPruningRule :=
  rule (outcome (_apply_to_plan_without_subqueries (env DebugBuild) 5
                   [1%positive] (start (plan_one_predicate scan_node)))).

Definition second_start : PlanState :=
  {| lqp := plan_one_predicate scan_node; rule := used_rule |}.

Definition second_end : PlanState :=
  outcome (_apply_to_plan_without_subqueries (env DebugBuild) 5 [1%positive]
             second_start).

(** The rule object after the evaluation of [a > 95] at node 2. *)
Definition rule_after_a_gt_95 : ChunkPruningRule :=
  {| _excluded_chunk_ids_by_predicate_node :=
       {[ 2%positive := {[0; 1; 2; 3; 4; 5; 6; 7; 8]} ]};
     statistics_scans := [2%positive] |}.

Definition height (n : NodeId) : nat :=
  match n with
  | 1%positive => 2
  | 2%positive | 3%positive => 1
  | _ => 0
  end.

End Example.

(** ** Further vocabulary: the exclusion evaluator *)

(** Whether the statistics of a chunk let the tuple exclude it: the chunk
    exists, carries pruning statistics, these have an entry for the column
    and [_can_prune] answers yes. *)
Definition chunk_excluded (b : Build) (column : ColumnID)
    (condition : PredicateCondition) (variant_value : AllTypeVariant)
    (variant_value2 : option AllTypeVariant) (chunk : option Chunk) : bool :=
  match chunk with
  | Some chunk =>
      match pruning_statistics chunk with
      | Some statistics =>
          match statistics !! column with
          | Some segment_statistics =>
              match _can_prune b segment_statistics condition variant_value
                      variant_value2 with
              | Ok true => true
              | _ => false
              end
          | None => false
          end
      | None => false
      end
  | None => false
  end.

(** The chunks of a table with their identifiers. *)
Definition numbered_chunks (chunks : list (option Chunk))
    : list (nat * option Chunk) :=
  imap (λ chunk_id chunk, (chunk_id, chunk)) chunks.

(** The number of rows of a chunk, none for a null pointer. *)
Definition rows_of (chunk : option Chunk) : nat :=
  match chunk with
  | Some chunk => size chunk
  | None => 0
  end.

(** Every chunk identifier in the memo lies below [bound]. *)
Definition memo_bounded (bound : nat) (r : ChunkPruningRule) : Prop :=
  ∀ p (X : gset nat) c,
    _excluded_chunk_ids_by_predicate_node r !! p = Some X → c ∈ X → c < bound.

(** ** Further vocabulary: the plan across an application *)

(** What an application of the rule keeps of a node: its consumers, and
    either the whole node or, for a stored-table node, the table name and the
    pruned columns. *)
Definition node_preserved (before after : AbstractLQPNode) : Prop :=
  outputs after = outputs before ∧
  match impl before with
  | StoredTableNodeImpl s =>
      ∃ s', impl after = StoredTableNodeImpl s' ∧
            table_name s' = table_name s ∧
            pruned_column_ids s' = pruned_column_ids s
  | other => impl after = other
  end.

Definition plan_preserved (before after : gmap positive AbstractLQPNode) : Prop :=
  ∀ n, option_Forall2 node_preserved (before !! n) (after !! n).

(** ** Further vocabulary: predicate chains *)

(** An entry of a chain found for a scan: a pointer to a predicate node of
    the plan, with that node's predicate, which the test of lines 610-622
    accepts for the scan. *)
Definition chain_entry_of (plan : gmap positive AbstractLQPNode)
    (stored_table_node : positive) (p : PredicateNodePtr) : Prop :=
  ∃ node,
    plan !! node_id p = Some node ∧
    impl node = PredicateNode (predicate p) ∧
    predicate_matches_table stored_table_node (predicate p) = true.

(** * System utilization table: reading numbers from [/proc] files *)

(** [size_t] is an unsigned integer of 64 bits: subtraction wraps around. *)
Definition size_t_sub (x y : Z) : Z := ((x - y) mod 2 ^ 64)%Z.

Module MetaSystemUtilizationTable.

Abbreviation ascii := Stdlib.Strings.Ascii.ascii (only parsing).
Abbreviation nat_of_ascii := Stdlib.Strings.Ascii.nat_of_ascii (only parsing).

(** [isdigit] and [isspace] of [<cctype>], in the "C" locale. *)
Definition isdigit (c : ascii) : bool :=
  (48 <=? nat_of_ascii c) && (nat_of_ascii c <=? 57).

Definition isspace (c : ascii) : bool :=
  (nat_of_ascii c =? 32) || ((9 <=? nat_of_ascii c) && (nat_of_ascii c <=? 13)).

Definition digit_value (c : ascii) : Z := (Z.of_nat (nat_of_ascii c) - 48)%Z.

(** The number a sequence of decimal digits denotes. *)
Definition decimal (digits : list ascii) : Z :=
  foldl (λ acc c, (10 * acc + digit_value c)%Z) 0%Z digits.

Fixpoint take_while (p : ascii → bool) (s : list ascii) : list ascii :=
  match s with
  | c :: s' => if p c then c :: take_while p s' else []
  | [] => []
  end.

Fixpoint drop_while (p : ascii → bool) (s : list ascii) : list ascii :=
  match s with
  | c :: s' => if p c then drop_while p s' else s
  | [] => []
  end.

(** [std::stol(str)] of the C++ standard library, in base 10: leading white
    space is skipped, a sign is accepted, and the longest run of digits that
    follows is converted. It throws [std::invalid_argument] when there is no
    digit to convert and [std::out_of_range] when the value does not fit
    [long], which has 64 bits on the platform of the function below. *)
Definition stol (str : list ascii) : result Z :=
  let str := drop_while isspace str in
  let '(negative, str) :=
    match str with
    | c :: rest =>
        if nat_of_ascii c =? 45 then (true, rest)          (* '-' *)
        else if nat_of_ascii c =? 43 then (false, rest)    (* '+' *)
        else (false, str)
    | [] => (false, str)
    end in
  match take_while isdigit str with
  | [] => Fault (FatalError "std::invalid_argument")
  | digits =>
      let v := if negative : bool then (- decimal digits)%Z else decimal digits in
      if decide (- 2 ^ 63 ≤ v < 2 ^ 63)%Z then Ok v
      else Fault (FatalError "std::out_of_range")
  end.

(** [str.substr(pos, count)]: the characters from [pos] on, at most [count]
    of them; [std::out_of_range] when [pos] is past the end. *)
Definition substr (str : list ascii) (pos : nat) (count : Z)
    : result (list ascii) :=
  if decide (length str < pos) then Fault (FatalError "std::out_of_range")
  else Ok (take (Z.to_nat (Z.min count (Z.of_nat (length str - pos))))
             (drop pos str)).

(** One of the two loops of [_int_from_string]: [index] moves over [rest],
    the characters from [index] on, until [stop] holds of a character. The
    result is the final [index] and whether the loop was left by [break]. *)
Fixpoint scan_until (stop : ascii → bool) (rest : list ascii) (index : nat)
    : nat * bool :=
  match rest with
  | [] => (index, false)
  | c :: rest' =>
      if stop c then (index, true) else scan_until stop rest' (S index)
  end.

Definition _int_from_string (input_string : list ascii) : result Z :=
  let length_ := Z.of_nat (length input_string) in
  let '(index, found) := scan_until isdigit input_string 0 in
  let begin := if found : bool then index else 0 in
  let '(index', found') :=
    scan_until (λ c, negb (isdigit c)) (drop index input_string) index in
  let end_ := if found' : bool then Z.of_nat index' else size_t_sub length_ 1 in
  bind (substr input_string begin (size_t_sub end_ (Z.of_nat begin))) stol.

(** [ProcessMemoryUsage]. The function below declares it without
    initializing it: a member is [None] until it is assigned. *)
Record ProcessMemoryUsage := {
  virtual_memory : option Z;
  physical_memory : option Z;
}.

(** [line.rfind(prefix, 0) == 0]: the line starts with the prefix. *)
Definition starts_with (prefix : string) (line : list ascii) : bool :=
  bool_decide (take (String.length prefix) line
               = String.list_ascii_of_string prefix).

(** [_int_from_string(line) * 1000] in [int64_t]; a product that does not
    fit is undefined behaviour, which the model reports as a failure. *)
Definition times_1000 (v : Z) : result Z :=
  if decide (- 2 ^ 63 ≤ v * 1000 < 2 ^ 63)%Z then Ok (v * 1000)%Z
  else Fault (FatalError "signed integer overflow").

(** The loop of [_get_process_memory_usage] on Linux over the lines that
    [std::getline] reads from [/proc/self/status]. *)
Fixpoint read_status_lines (lines : list (list ascii))
    (memory_usage : ProcessMemoryUsage) : result ProcessMemoryUsage :=
  match lines with
  | [] => Ok memory_usage
  | self_status_line :: rest =>
      if starts_with "VmSize" self_status_line then
        bind (_int_from_string self_status_line) (λ v,
        bind (times_1000 v) (λ bytes,
        read_status_lines rest
          {| virtual_memory := Some bytes;
             physical_memory := physical_memory memory_usage |}))
      else if starts_with "VmRSS" self_status_line then
        bind (_int_from_string self_status_line) (λ v,
        bind (times_1000 v) (λ bytes,
        read_status_lines rest
          {| virtual_memory := virtual_memory memory_usage;
             physical_memory := Some bytes |}))
      else read_status_lines rest memory_usage
  end.

Definition _get_process_memory_usage (lines : list (list ascii))
    : result ProcessMemoryUsage :=
  read_status_lines lines {| virtual_memory := None; physical_memory := None |}.

End MetaSystemUtilizationTable.

(** The last of the lines that start with a prefix. *)
Definition last_line_with (prefix : string) (lines : list (list Stdlib.Strings.Ascii.ascii))
    : option (list Stdlib.Strings.Ascii.ascii) :=
  last (filter (λ line, MetaSystemUtilizationTable.starts_with prefix line = true)
          lines).

(** ** The cache with random eviction ([random_cache.hpp]) *)

Module RandomCache.
Section RandomCache.
Context {Key : Type} `{Countable Key} {Value : Type}.

(** The members of the class: [_list] holds the entries, [_map] the position
    in [_list] of every cached key. The generator [_gen] is not a member of
    the model: the number that [_rand(_gen)] draws is an argument of [set].
    The distribution [_rand] is rebuilt as [(0, capacity - 1)] wherever
    [_capacity] is assigned, so that a draw is at most [_capacity - 1]. *)
Record RandomCache := {
  _capacity : nat;
  _list : list (Key * Value);
  _map : gmap Key nat;
}.

(** [set]: the evicted key, if any, and the cache afterwards. [random] is the
    number drawn by [_rand(_gen)]; it is only used when the cache is full. *)
Definition set (key : Key) (value : Value) (random : nat) (c : RandomCache)
    : result (option Key * RandomCache) :=
  match _map c !! key with
  | Some index =>
      match _list c !! index with
      | Some (k, _) =>
          Ok (None, {| _capacity := _capacity c;
                       _list := <[index := (k, value)]> (_list c);
                       _map := _map c |})
      | None => Fault OutOfRange
      end
  | None =>
      if decide (_capacity c ≤ length (_list c)) then
        match _list c !! random with
        | Some (evicted, _) =>
            Ok (Some evicted,
                {| _capacity := _capacity c;
                   _list := <[random := (key, value)]> (_list c);
                   _map := <[key := random]> (delete evicted (_map c)) |})
        | None => Fault OutOfRange
        end
      else
        Ok (None, {| _capacity := _capacity c;
                     _list := _list c ++ [(key, value)];
                     _map := <[key := length (_list c)]> (_map c) |})
  end.

(** [get]: the iterator that [find] returns is dereferenced without a check,
    which is undefined for a key that is not cached. *)
Definition get (key : Key) (c : RandomCache) : result Value :=
  match _map c !! key with
  | Some index =>
      match _list c !! index with
      | Some (_, value) => Ok value
      | None => Fault OutOfRange
      end
  | None => Fault (FatalError "end iterator dereferenced")
  end.

Definition has (key : Key) (c : RandomCache) : bool :=
  bool_decide (is_Some (_map c !! key)).

Definition size (c : RandomCache) : nat := stdpp.base.size (_map c).

Definition clear (c : RandomCache) : RandomCache :=
  {| _capacity := _capacity c; _list := []; _map := ∅ |}.

Definition clear_and_resize (capacity : nat) (c : RandomCache) : RandomCache :=
  let c := clear c in
  {| _capacity := capacity; _list := _list c; _map := _map c |}.

(** The loop of [resize]. Its condition is evaluated on the current length
    of [_list], in [size_t]; [fuel] bounds the number of iterations. *)
Fixpoint resize_loop (fuel capacity difference : nat)
    (list_ : list (Key * Value)) (map_ : gmap Key nat)
    : result (list (Key * Value) * gmap Key nat) :=
  if decide (Z.of_nat difference
             < size_t_sub (Z.of_nat (length list_)) (Z.of_nat capacity))%Z
  then
    match fuel with
    | 0 => Fault OutOfFuel
    | S fuel' =>
        match list_ !! difference with
        | Some (key, _) =>
            resize_loop fuel' capacity (S difference)
              (delete difference list_) (delete key map_)
        | None => Fault OutOfRange
        end
    end
  else Ok (list_, map_).

(** [resize]. The loop erases an entry in each iteration, so that the length
    of [_list] bounds the number of its iterations. *)
Definition resize (capacity : nat) (c : RandomCache) : result RandomCache :=
  '(list_, map_) ←
    (if decide (capacity < length (_list c))
     then resize_loop (length (_list c)) capacity 0 (_list c) (_map c)
     else Ok (_list c, _map c));
  Ok {| _capacity := capacity; _list := list_; _map := map_ |}.

Definition dump_cache (c : RandomCache) : list Key := (_list c).*1.

(** A sequence of calls of [set], each with the number it draws. *)
Fixpoint set_all (requests : list (Key * Value * nat)) (c : RandomCache)
    : result RandomCache :=
  match requests with
  | [] => Ok c
  | (key, value, random) :: rest =>
      '(_, c') ← set key value random c;
      set_all rest c'
  end.

(** The class invariant that [set] maintains: [_map] holds exactly the keys
    of [_list], each with the position of its entry. *)
Definition consistent (c : RandomCache) : Prop :=
  ∀ key index,
    _map c !! key = Some index ↔ ∃ value, _list c !! index = Some (key, value).

(** What stays in a suffix of [_list] that the loop of [resize] works on:
    while the suffix is longer than the capacity, its first entry is erased
    and its second one is stepped over. *)
Fixpoint thinned (capacity : nat) (entries : list (Key * Value))
    : list (Key * Value) :=
  match entries with
  | [] => []
  | _ :: rest =>
      if decide (capacity < length entries) then
        match rest with
        | [] => []
        | kept :: rest' => kept :: thinned capacity rest'
        end
      else entries
  end.

(** The keys that the loop erases from [_map]. *)
Fixpoint erased (capacity : nat) (entries : list (Key * Value)) : list Key :=
  match entries with
  | [] => []
  | (key, _) :: rest =>
      if decide (capacity < length entries) then
        match rest with
        | [] => [key]
        | _ :: rest' => key :: erased capacity rest'
        end
      else []
  end.

End RandomCache.
Arguments RandomCache Key {_ _} Value.
End RandomCache.

(** ** Further concrete inputs *)

Module PlanExample.
Import Example.

(** scan 1 -> [a > 95] 2 -> projection 3: no node ends a walk. *)
Definition plan_without_end : gmap positive AbstractLQPNode :=
  list_to_map
    [ (1%positive, node (StoredTableNodeImpl scan_node) [2%positive]);
      (2%positive, node (PredicateNode a_gt_95) [3%positive]);
      (3%positive, node ProjectionNode []) ].

(** A tuple on a column that the table does not have. *)
Definition tuple_beyond : OperatorScanPredicate :=
  {| column_id := 5; predicate_condition := GreaterThan;
     value := PV_Variant (IntValue 95); value2 := None |}.

Definition chunks_0_to_8 : gset nat := {[0; 1; 2; 3; 4; 5; 6; 7; 8]}.
Definition chunks_1_to_9 : gset nat := {[1; 2; 3; 4; 5; 6; 7; 8; 9]}.

End PlanExample.

Module StatusExample.

Definition text (s : string) : list Stdlib.Strings.Ascii.ascii :=
  String.list_ascii_of_string s.

(** A line of [/proc/self/status] in three parts. *)
Definition key_part := text "VmSize:    ".
Definition number_part := text "123456".
Definition blank : Stdlib.Strings.Ascii.ascii :=
  Stdlib.Strings.Ascii.ascii_of_nat 32.
Definition unit_part := text "kB".

Definition status_lines : list (list Stdlib.Strings.Ascii.ascii) :=
  [ text "Name:   hyrise";
    text "VmSize:   100 kB";
    text "VmRSS:   7 kB";
    text "VmSize:   5 kB" ].

Definition other_lines : list (list Stdlib.Strings.Ascii.ascii) :=
  [ text "Name:   hyrise"; text "Threads:        8" ].

End StatusExample.

Module CacheExample.
Import RandomCache.

Definition empty_cache : RandomCache nat nat :=
  {| _capacity := 0; _list := []; _map := ∅ |}.

(** Three keys set in a cache of capacity three. *)
Definition requests : list (nat * nat * nat) :=
  [ (1, 10, 0); (2, 20, 0); (3, 30, 0) ].

Definition full_cache : RandomCache nat nat :=
  {| _capacity := 3;
     _list := [ (1, 10); (2, 20); (3, 30) ];
     _map := {[ 1 := 0; 2 := 1; 3 := 2 ]} |}.

(** [full_cache] after [set 4 40] with the draw 1, which evicts key 2. *)
Definition after_eviction : RandomCache nat nat :=
  {| _capacity := 3;
     _list := [ (1, 10); (4, 40); (3, 30) ];
     _map := {[ 1 := 0; 4 := 1; 3 := 2 ]} |}.

(** [full_cache] after [resize 1]. *)
Definition after_resize : RandomCache nat nat :=
  {| _capacity := 1;
     _list := [ (2, 20); (3, 30) ];
     _map := {[ 2 := 1; 3 := 2 ]} |}.

(** Four keys set in a cache of capacity four, the cache they leave, that
    cache after [resize 2], and the latter after [set 5 50] with the draw 1,
    which evicts key 3. *)
Definition four_requests : list (nat * nat * nat) :=
  [ (1, 10, 0); (2, 20, 0); (3, 30, 0); (4, 40, 0) ].

Definition four_cache : RandomCache nat nat :=
  {| _capacity := 4;
     _list := [ (1, 10); (2, 20); (3, 30); (4, 40) ];
     _map := {[ 1 := 0; 2 := 1; 3 := 2; 4 := 3 ]} |}.

Definition stale_cache : RandomCache nat nat :=
  {| _capacity := 2;
     _list := [ (2, 20); (3, 30); (4, 40) ];
     _map := {[ 2 := 1; 3 := 2; 4 := 3 ]} |}.

Definition after_stale_set : RandomCache nat nat :=
  {| _capacity := 2;
     _list := [ (2, 20); (5, 50); (4, 40) ];
     _map := {[ 2 := 1; 4 := 3; 5 := 1 ]} |}.

End CacheExample.

(** * Properties *)

(** ** Reasoning about results *)

Lemma bind_Ok {A B} (r : result A) (k : A → result B) (b : B) :
  bind r k = Ok b ↔ ∃ a, r = Ok a ∧ k a = Ok b.
Proof.
  destruct r as [a|f]; simpl; split.
  - eauto.
  - by intros (a' & [= ->] & ?).
  - done.
  - by intros (a' & ? & ?).
Qed.

(** ** Chain intersector *)

Lemma elem_of_intersect_loop (c : ChunkID) (X : gset ChunkID) rest :
  c ∈ intersect_loop X rest ↔ c ∈ X ∧ Forall (λ A : gset ChunkID, c ∈ A) rest.
Proof.
  revert X. induction rest as [|A rest IH]; intros X; simpl.
  - rewrite Forall_nil. tauto.
  - rewrite Forall_cons. case_decide as HA.
    + subst A. set_solver.
    + rewrite IH. set_solver.
Qed.

Lemma elem_of_intersect_chunk_ids (c : ChunkID) sets :
  c ∈ intersect_chunk_ids sets ↔
  sets ≠ [] ∧ Forall (λ A : gset ChunkID, c ∈ A) sets.
Proof.
  destruct sets as [|A rest]; simpl.
  - set_solver.
  - rewrite Forall_cons. case_decide as HA.
    + subst A. set_solver.
    + destruct rest as [|B rest].
      * rewrite Forall_nil. naive_solver.
      * rewrite elem_of_intersect_loop. naive_solver.
Qed.






(** ** What the evaluator leaves unchanged *)

Lemma same_scan_refl n : same_scan n n.
Proof. done. Qed.

Lemma same_scan_trans n1 n2 n3 :
  same_scan n1 n2 → same_scan n2 n3 → same_scan n1 n3.
Proof. unfold same_scan. intros (-> & -> & ->) (-> & -> & ->). done. Qed.

Lemma rule_step_refl r : rule_step r r.
Proof.
  split; [done|]. exists []. split; [done|]. split; [constructor|].
  intros p Hp. by apply elem_of_nil in Hp.
Qed.

Lemma rule_step_trans r1 r2 r3 :
  rule_step r1 r2 → rule_step r2 r3 → rule_step r1 r3.
Proof.
  intros [Hm1 (new1 & Hs1 & Hd1 & Hn1)] [Hm2 (new2 & Hs2 & Hd2 & Hn2)].
  split; [by etrans|].
  exists (new2 ++ new1). split; [by rewrite Hs2, Hs1, app_assoc|].
  split.
  - apply NoDup_app. split; [done|]. split; [|done].
    intros p Hp2 Hp1. destruct (Hn2 p Hp2) as [Hnone _].
    destruct (Hn1 p Hp1) as [_ [X HX]]. congruence.
  - intros p [Hp|Hp]%elem_of_app.
    + destruct (Hn2 p Hp) as [Hnone Hsome]. split; [|done].
      destruct (_excluded_chunk_ids_by_predicate_node r1 !! p) as [X|] eqn:HX;
        [|done].
      eapply lookup_weaken in HX; [|exact Hm1]. congruence.
    + destruct (Hn1 p Hp) as [Hnone [X HX]]. split; [done|].
      exists X. eapply lookup_weaken; [exact HX|exact Hm2].
Qed.

Lemma scan_and_correct_same_scan env table op v v2 local node local' node' :
  scan_and_correct env table op v v2 local node = Ok (local', node') →
  same_scan node node'.
Proof.
  unfold scan_and_correct. intros H.
  apply bind_Ok in H as ([n l] & _ & H). case_decide.
  - apply bind_Ok in H as (s & _ & [= _ <-]). done.
  - by injection H as _ <-.
Qed.

Lemma prune_with_operator_predicate_same_scan env table op local node local' node' :
  prune_with_operator_predicate env table op local node = Ok (local', node') →
  same_scan node node'.
Proof.
  unfold prune_with_operator_predicate. intros H.
  repeat (case_match; try done);
    first [ by injection H as _ <-
          | by eapply scan_and_correct_same_scan ].
Qed.

Lemma prune_with_operator_predicates_same_scan env table ops local node local' node' :
  prune_with_operator_predicates env table ops local node = Ok (local', node') →
  same_scan node node'.
Proof.
  revert local node. induction ops as [|op ops IH]; intros local node H; simpl in H.
  - by injection H as _ <-.
  - apply bind_Ok in H as ([l1 n1] & H1 & H).
    eapply same_scan_trans; [|by eapply IH].
    by eapply prune_with_operator_predicate_same_scan.
Qed.

Lemma evaluate_predicate_node_step env table p node r o node' r' :
  evaluate_predicate_node env table p node r = Ok (o, node', r') →
  same_scan node node' ∧ rule_step r r'.
Proof.
  unfold evaluate_predicate_node. intros H.
  destruct (_excluded_chunk_ids_by_predicate_node r !! node_id p) eqn:Hmemo.
  { injection H as _ <- <-. split; [done|apply rule_step_refl]. }
  destruct (from_expression _ _ _) as [ops|].
  2:{ injection H as _ <- <-. split; [done|apply rule_step_refl]. }
  apply bind_Ok in H as ([local n1] & Hops & [= _ <- <-]).
  split; [by eapply prune_with_operator_predicates_same_scan|].
  split; simpl.
  - by apply insert_subseteq.
  - exists [node_id p]. split; [done|]. split; [apply NoDup_singleton|].
    intros q ->%list_elem_of_singleton. split; [done|].
    rewrite lookup_insert_eq. eauto.
Qed.

Lemma compute_exclude_list_from_step env table chain global node r X node' r' :
  compute_exclude_list_from env table chain global node r = Ok (X, node', r') →
  same_scan node node' ∧ rule_step r r'.
Proof.
  revert global node r. induction chain as [|p chain IH]; intros global node r H;
    simpl in H.
  - injection H as _ <- <-. split; [done|apply rule_step_refl].
  - apply bind_Ok in H as ([[o n1] r1] & H1 & H).
    apply evaluate_predicate_node_step in H1 as [Hn1 Hr1].
    destruct o as [local|].
    + apply IH in H as [Hn Hr].
      split; [by eapply same_scan_trans|by eapply rule_step_trans].
    + by injection H as _ <- <-.
Qed.

Lemma compute_pruned_chunk_id_sets_step env table chains node r sets node' r' :
  compute_pruned_chunk_id_sets env table chains node r = Ok (sets, node', r') →
  same_scan node node' ∧ rule_step r r'.
Proof.
  revert node r sets. induction chains as [|chain chains IH]; intros node r sets H;
    simpl in H.
  - injection H as _ <- <-. split; [done|apply rule_step_refl].
  - apply bind_Ok in H as ([[X n1] r1] & H1 & H).
    apply bind_Ok in H as ([[sets' n2] r2] & H2 & [= _ <- <-]).
    apply compute_exclude_list_from_step in H1 as [Hn1 Hr1].
    apply IH in H2 as [Hn2 Hr2].
    split; [by eapply same_scan_trans|by eapply rule_step_trans].
Qed.

(** ** Rule driver, one scan *)

Lemma stored_table_store_node st id current node r :
  stored_table {| lqp := store_node id current node (lqp st); rule := r |} id
  = Some node.
Proof.
  unfold stored_table, store_node. simpl. by rewrite lookup_insert_eq.
Qed.

Lemma stored_table_deref st id node :
  stored_table st id = Some node ↔
  ∃ current, deref (lqp st) id = Ok current ∧
             impl current = StoredTableNodeImpl node.
Proof.
  unfold stored_table, deref. destruct (lqp st !! id) as [[i o]|]; simpl.
  - split.
    + destruct i; try done. intros [= ->]. eauto.
    + intros (current & [= <-] & Hi). simpl in Hi. by rewrite Hi.
  - split; [done|]. by intros (? & ? & _).
Qed.

(** What step (3) does to one scan, in terms of the sets of step (3.1). *)
Lemma prune_stored_table_node_Ok env id chains st st' :
  chains ≠ [] →
  prune_stored_table_node env id chains st = Ok st' →
  ∃ node table sets node1 rule1,
    stored_table st id = Some node ∧
    get_table env (table_name node) = Ok table ∧
    compute_pruned_chunk_id_sets env table chains node (rule st)
      = Ok (sets, node1, rule1) ∧
    rule st' = rule1 ∧
    ((intersect_chunk_ids sets = ∅ ∧ stored_table st' id = Some node1) ∨
     (intersect_chunk_ids sets ≠ ∅ ∧ pruned_chunk_ids node1 = [] ∧
      stored_table st' id =
        Some (set_pruned_chunk_ids
                (to_sorted_vector (intersect_chunk_ids sets)) node1))).
Proof.
  intros Hne Hrun.
  assert (Hbody : set_pruned_chunks env id chains st = Ok st')
    by by destruct chains.
  clear Hrun. rename Hbody into Hrun. unfold set_pruned_chunks in Hrun.
  apply bind_Ok in Hrun as (current & Hd & Hrun).
  destruct (impl current) as [|node| | | | | |] eqn:Hi; try done.
  apply bind_Ok in Hrun as (table & Htable & Hrun).
  apply bind_Ok in Hrun as ([[sets node1] rule1] & Hsets & Hrun).
  exists node, table, sets, node1, rule1.
  split; [apply stored_table_deref; eauto|]. split; [done|]. split; [done|].
  case_decide as Hempty.
  - injection Hrun as <-. split; [done|]. left. split; [done|].
    apply stored_table_store_node.
  - apply bind_Ok in Hrun as ([] & Hassert & Hrun). injection Hrun as <-.
    split; [done|]. right. split; [done|]. split.
    + unfold DebugAssert in Hassert. case_bool_decide; [done|].
      by destruct (build env).
    + apply stored_table_store_node.
Qed.



(** ** Unusable tuples *)

Lemma unusable_tuple_skipped env table op local node :
  unusable_tuple env table op →
  prune_with_operator_predicate env table op local node = Ok (local, node).
Proof.
  unfold prune_with_operator_predicate.
  intros [Hvalue|dt Hdt Hcast].
  - by destruct (value op).
  - rewrite Hdt. destruct (value op) as [| |x]; try done.
    unfold castable in Hcast.
    destruct (lossless_variant_cast env x dt) as [x'|]; [|done].
    destruct Hcast as [?|(y & -> & Hy)]; [done|].
    destruct y as [| |y]; try done.
    by destruct (lossless_variant_cast env y dt).
Qed.

Lemma unusable_tuples_skipped env table ops local node :
  Forall (unusable_tuple env table) ops →
  prune_with_operator_predicates env table ops local node = Ok (local, node).
Proof.
  induction 1 as [|op ops Hop _ IH]; simpl; [done|].
  by rewrite unusable_tuple_skipped.
Qed.

(** C9. A normalized tuple whose value is not a plain scalar variant, or
    whose value or second value cannot be cast losslessly into the declared
    type of its column, is skipped: the evaluator returns without a fault,
    with the exclusion set and the scan, statistics override included, as
    they were. A predicate node whose tuples are all of this kind therefore
    gets the empty exclusion set, a chain made of that node excludes no
    chunk, and neither raises a fault. *)
Theorem C9_unusable_tuple_is_skipped env table ops :
  Forall (unusable_tuple env table) ops →
  (∀ op local node, op ∈ ops →
     prune_with_operator_predicate env table op local node = Ok (local, node)) ∧
  (∀ p node r,
     _excluded_chunk_ids_by_predicate_node r !! node_id p = None →
     from_expression env (predicate p) (set_pruned_column_ids [] node) = Some ops →
     let r' :=
       {| _excluded_chunk_ids_by_predicate_node :=
            <[node_id p := ∅]> (_excluded_chunk_ids_by_predicate_node r);
          statistics_scans := node_id p :: statistics_scans r |} in
     evaluate_predicate_node env table p node r = Ok (Some ∅, node, r') ∧
     _compute_exclude_list env table [p] node r = Ok (∅, node, r')).
Proof.
  intros Hops. split.
  - intros op local node Hop. apply unusable_tuple_skipped.
    by eapply Forall_forall in Hops.
  - intros p node r Hmemo Hnorm r'.
    assert (Heval : evaluate_predicate_node env table p node r
                    = Ok (Some ∅, node, r')).
    { unfold evaluate_predicate_node. rewrite Hmemo, Hnorm.
      by rewrite unusable_tuples_skipped. }
    split; [exact Heval|].
    unfold _compute_exclude_list. simpl. rewrite Heval. simpl.
    by rewrite (left_id_L ∅ (∪)).
Qed.

(** ** Statistics corrector *)

Lemma prune_columns_imap first columns op n scale x x2 :
  value op = PV_Variant x →
  value2 op = PV_Variant <$> x2 →
  prune_columns first columns op n scale =
  Ok (imap (λ i column,
              if decide (first + i = column_id op)
              then pruned n (predicate_condition op) x x2 column
              else scaled scale column) columns).
Proof.
  intros Hx Hx2. revert first.
  induction columns as [|column columns IH]; intros first; simpl; [done|].
  rewrite IH, Hx, Hx2. simpl. rewrite Nat.add_0_r.
  destruct x2 as [y|]; simpl; repeat case_decide; try done; simpl;
    do 2 f_equal; apply imap_ext; intros i c _; simpl;
    by rewrite Nat.add_succ_r.
Qed.

Lemma _prune_table_statistics_Ok old op n x x2 :
  value op = PV_Variant x →
  value2 op = PV_Variant <$> x2 →
  let scale :=
    float_sub float_one (float_div (float_of_nat n) (row_count old)) in
  _prune_table_statistics old op n =
  Ok {| column_statistics :=
          imap (λ i column,
                  if decide (i = column_id op)
                  then pruned n (predicate_condition op) x x2 column
                  else scaled scale column) (column_statistics old);
        row_count := float_sub (row_count old) (float_of_nat n) |}.
Proof.
  intros Hx Hx2 scale. unfold _prune_table_statistics.
  by rewrite (prune_columns_imap _ _ _ _ _ x x2).
Qed.

(** C7. When the scan for a tuple removes [n > 0] rows, the scan's new
    statistics override is built from the current override if there is one
    and from the table's statistics otherwise: the column the tuple targets
    is transformed by [pruned] with the removed rows, the condition and the
    tuple's values, every other column by [scaled] with the factor
    [1 - n / old row count], and the row count is the old one minus [n]. The
    result replaces the override; a correction that follows starts from it.
    A scan that removes no row leaves the override as it is. *)
Theorem C7_statistics_correction env table op x x2 v v2 local node n local' :
  value op = PV_Variant x →
  value2 op = PV_Variant <$> x2 →
  scan_chunks (build env) (pruned_chunk_ids node) (column_id op)
    (predicate_condition op) v v2 0 (chunks table) 0 local = Ok (n, local') →
  let old :=
    match table_statistics node with
    | Some override => override
    | None => table_table_statistics table
    end in
  let scale :=
    float_sub float_one (float_div (float_of_nat n) (row_count old)) in
  ∃ node',
    scan_and_correct env table op v v2 local node = Ok (local', node') ∧
    same_scan node node' ∧
    (n = 0 → node' = node) ∧
    (0 < n →
       ∃ new,
         table_statistics node' = Some new ∧
         row_count new = float_sub (row_count old) (float_of_nat n) ∧
         length (column_statistics new) = length (column_statistics old) ∧
         ∀ i column, column_statistics old !! i = Some column →
           column_statistics new !! i =
             Some (if decide (i = column_id op)
                   then pruned n (predicate_condition op) x x2 column
                   else scaled scale column)).
Proof.
  intros Hx Hx2 Hscan old scale. unfold scan_and_correct. rewrite Hscan. simpl.
  case_decide as Hn.
  - fold old. rewrite (_prune_table_statistics_Ok _ _ _ x x2 Hx Hx2). simpl.
    eexists. split; [done|]. split; [done|]. split; [lia|]. intros _.
    eexists. split; [done|]. simpl. split; [done|].
    split; [by rewrite length_imap|].
    intros i column Hi. by rewrite list_lookup_imap, Hi.
  - exists node. split; [done|]. split; [done|]. split; [done|]. lia.
Qed.

(** ** The rule object across the driver *)

Lemma prune_stored_table_node_step env id chains st st' :
  prune_stored_table_node env id chains st = Ok st' →
  rule_step (rule st) (rule st').
Proof.
  intros Hrun. destruct (decide (chains = [])) as [->|Hne].
  - injection Hrun as <-. apply rule_step_refl.
  - destruct (prune_stored_table_node_Ok _ _ _ _ _ Hne Hrun)
      as (node & table & sets & node1 & rule1 & _ & _ & Hsets & -> & _).
    by apply compute_pruned_chunk_id_sets_step in Hsets as [_ ?].
Qed.

Lemma prune_stored_table_nodes_step env entries st st' :
  prune_stored_table_nodes env entries st = Ok st' →
  rule_step (rule st) (rule st').
Proof.
  revert st. induction entries as [|[id chains] entries IH]; intros st H;
    simpl in H.
  - injection H as <-. apply rule_step_refl.
  - apply bind_Ok in H as (st1 & H1 & H).
    eapply rule_step_trans; [by eapply prune_stored_table_node_step|by eapply IH].
Qed.

Lemma apply_step env fuel leafs st st' :
  _apply_to_plan_without_subqueries env fuel leafs st = Ok st' →
  rule_step (rule st) (rule st').
Proof.
  unfold _apply_to_plan_without_subqueries. intros H.
  apply bind_Ok in H as (entries & _ & H).
  by eapply prune_stored_table_nodes_step.
Qed.

Lemma prune_stored_table_nodes_app env pre post st :
  prune_stored_table_nodes env (pre ++ post) st =
  bind (prune_stored_table_nodes env pre st) (prune_stored_table_nodes env post).
Proof.
  revert st. induction pre as [|[id chains] pre IH]; intros st; simpl; [done|].
  destruct (prune_stored_table_node env id chains st); simpl; [apply IH|done].
Qed.

(** ** Memo *)

Lemma evaluate_predicate_node_memoized env table p node r X :
  _excluded_chunk_ids_by_predicate_node r !! node_id p = Some X →
  evaluate_predicate_node env table p node r = Ok (Some X, node, r).
Proof. intros H. unfold evaluate_predicate_node. by rewrite H. Qed.

Lemma evaluate_predicate_node_memoizes env table p node r X node1 r1 :
  evaluate_predicate_node env table p node r = Ok (Some X, node1, r1) →
  _excluded_chunk_ids_by_predicate_node r1 !! node_id p = Some X.
Proof.
  unfold evaluate_predicate_node. intros H.
  destruct (_excluded_chunk_ids_by_predicate_node r !! node_id p) eqn:Hmemo.
  { by injection H as <- _ <-. }
  destruct (from_expression _ _ _) as [ops|]; [|done].
  apply bind_Ok in H as ([local n1] & _ & [= <- _ <-]). simpl.
  by rewrite lookup_insert_eq.
Qed.

(** C4. Once a predicate node has been evaluated to an exclusion set, every
    later evaluation of the node in the same rule application (in any state
    the rule object reaches from there, for any chain and scan) returns
    exactly that set and changes neither the scan's statistics nor the rule
    object, so it performs no statistics scan; and over a whole rule
    application no predicate node is scanned more than once: the scans of the
    application are pairwise distinct nodes, none of them memoized when the
    application started. *)
Theorem C4_memoized_evaluation :
  (∀ env table p node r X node1 r1,
     evaluate_predicate_node env table p node r = Ok (Some X, node1, r1) →
     ∀ table' node2 r2, rule_step r1 r2 →
       evaluate_predicate_node env table' p node2 r2 = Ok (Some X, node2, r2)) ∧
  (∀ env fuel leafs st st',
     _apply_to_plan_without_subqueries env fuel leafs st = Ok st' →
     ∃ new,
       statistics_scans (rule st') = new ++ statistics_scans (rule st) ∧
       NoDup new ∧
       ∀ p, p ∈ new →
         _excluded_chunk_ids_by_predicate_node (rule st) !! p = None).
Proof.
  split.
  - intros env table p node r X node1 r1 Hfirst table' node2 r2 Hstep.
    apply evaluate_predicate_node_memoized.
    apply evaluate_predicate_node_memoizes in Hfirst.
    eapply lookup_weaken; [exact Hfirst|apply Hstep].
  - intros env fuel leafs st st' Hrun.
    destruct (apply_step _ _ _ _ _ Hrun) as [_ (new & Hnew & Hdup & Hfresh)].
    exists new. split; [done|]. split; [done|].
    intros p Hp. by destruct (Hfresh p Hp).
Qed.

(** C6 as amended. The memo is a member of the rule object and an
    application of the rule never clears it: every entry the memo holds when
    an application starts is still there, with the same exclusion set, when
    the application ends, so the next application of the same rule object
    starts with all of them. *)
Theorem C6_memo_persists_across_applications env fuel leafs st st' :
  _apply_to_plan_without_subqueries env fuel leafs st = Ok st' →
  _excluded_chunk_ids_by_predicate_node (rule st) ⊆
  _excluded_chunk_ids_by_predicate_node (rule st').
Proof. intros Hrun. by destruct (apply_step _ _ _ _ _ Hrun). Qed.

(** ** Write-once precondition *)

Lemma prune_stored_table_node_already_pruned env id chains st node :
  stored_table st id = Some node →
  pruned_chunk_ids node ≠ [] →
  intersect_chunk_ids (exclusion_sets_of env node chains (rule st)) ≠ ∅ →
  prune_stored_table_node env id chains st
  = Fault (precondition_violation (build env)).
Proof.
  intros Hnode Hpruned Hfinal.
  apply stored_table_deref in Hnode as (current & Hd & Hi).
  unfold exclusion_sets_of in Hfinal.
  assert (prune_stored_table_node env id chains st
          = set_pruned_chunks env id chains st) as ->.
  { destruct chains; [|done].
    destruct (get_table env (table_name node)); done. }
  unfold set_pruned_chunks. rewrite Hd. simpl. rewrite Hi.
  destruct (get_table env (table_name node)) as [table|]; [simpl|done].
  destruct (compute_pruned_chunk_id_sets env table chains node (rule st))
    as [[[sets node1] rule1]|] eqn:Hsets; [simpl|done].
  apply compute_pruned_chunk_id_sets_step in Hsets as [(_ & _ & Hsame) _].
  case_decide; [done|]. unfold DebugAssert.
  rewrite Hsame. case_bool_decide; [done|]. simpl.
  unfold precondition_violation. by destruct (build env).
Qed.

(** C5. When the rule reaches a scan whose set of pruned chunk identifiers
    is already non-empty and computes a non-empty final pruned set for it,
    the application of the rule ends in the precondition violation: an abort
    in a debug build, a fatal error in a production build. No state comes
    out of the application, so the set is not overwritten. *)
Theorem C5_already_pruned_scan_is_fatal env fuel leafs st pre id chains post st1 node :
  collect_predicate_chains fuel (lqp st) (collect_stored_table_nodes leafs)
  = Ok (pre ++ (id, chains) :: post) →
  prune_stored_table_nodes env pre st = Ok st1 →
  stored_table st1 id = Some node →
  pruned_chunk_ids node ≠ [] →
  intersect_chunk_ids (exclusion_sets_of env node chains (rule st1)) ≠ ∅ →
  _apply_to_plan_without_subqueries env fuel leafs st
  = Fault (precondition_violation (build env)) ∧
  (build env = DebugBuild →
     ∃ message, _apply_to_plan_without_subqueries env fuel leafs st
                = Fault (Aborted message)) ∧
  (build env = ProductionBuild →
     ∃ message, _apply_to_plan_without_subqueries env fuel leafs st
                = Fault (FatalError message)).
Proof.
  intros Hchains Hpre Hnode Hpruned Hfinal.
  assert (Hrun : _apply_to_plan_without_subqueries env fuel leafs st
                 = Fault (precondition_violation (build env))).
  { unfold _apply_to_plan_without_subqueries. rewrite Hchains. simpl.
    rewrite prune_stored_table_nodes_app, Hpre. simpl.
    by rewrite (prune_stored_table_node_already_pruned _ _ _ _ node). }
  split; [done|]. rewrite Hrun. unfold precondition_violation.
  split; intros ->; eauto.
Qed.

(** ** Statistics corrections and the final pruned set *)

(** C10. The statistics override of a scan is written while the chains are
    evaluated, before their exclusion sets are intersected: when the
    intersection is empty the scan ends the step with the pruned chunks it
    had and with the override the evaluation of the chains produced. So a
    scan whose two chains exclude disjoint, non-empty sets of chunks ends the
    application of the rule with no pruned chunk and with an override whose
    row count is below the table's. *)
Theorem C10_statistics_corrected_without_pruning :
  (∀ env id chains st st',
     chains ≠ [] →
     prune_stored_table_node env id chains st = Ok st' →
     ∃ node table sets node1 rule1,
       stored_table st id = Some node ∧
       get_table env (table_name node) = Ok table ∧
       compute_pruned_chunk_id_sets env table chains node (rule st)
         = Ok (sets, node1, rule1) ∧
       (intersect_chunk_ids sets = ∅ →
          stored_table st' id = Some node1 ∧
          pruned_chunk_ids node1 = pruned_chunk_ids node)) ∧
  (∃ st' node' override,
     _apply_to_plan_without_subqueries (Example.env ProductionBuild) 5 [1%positive]
       (Example.start (Example.plan_two_branches Example.a_lt_15 Example.a_gt_15))
     = Ok st' ∧
     exclusion_sets_of (Example.env ProductionBuild) Example.scan_node
       [ [Example.ptr 2 Example.a_lt_15]; [Example.ptr 3 Example.a_gt_15] ]
       Example.fresh_rule
     = [ {[2; 3; 4; 5; 6; 7; 8; 9]}; {[0]} ] ∧
     stored_table st' 1%positive = Some node' ∧
     pruned_chunk_ids node' = [] ∧
     table_statistics node' = Some override ∧
     row_count override = float_of_nat 10 ∧
     row_count (table_table_statistics Example.table_t) = float_of_nat 100 ∧
     float_ltb (row_count override)
       (row_count (table_table_statistics Example.table_t)) = true).
Proof.
  split.
  - intros env id chains st st' Hne Hrun.
    destruct (prune_stored_table_node_Ok _ _ _ _ _ Hne Hrun)
      as (node & table & sets & node1 & rule1 & Hnode & Htable & Hsets & _ &
          Hcases).
    exists node, table, sets, node1, rule1.
    split; [done|]. split; [done|]. split; [done|]. intros Hempty.
    destruct Hcases as [[_ Hst]|[Hn _]]; [|done]. split; [done|].
    by apply compute_pruned_chunk_id_sets_step in Hsets as [(_ & _ & ?) _].
  - eexists _, _, _. split; [vm_compute; reflexivity|].
    split; [vm_compute; reflexivity|]. split; [vm_compute; reflexivity|].
    split; [reflexivity|]. split; [reflexivity|].
    split; [vm_compute; reflexivity|]. split; vm_compute; reflexivity.
Qed.

(** ** Behaviour on two inputs the spec describes differently *)

(** C2. One chain with the two predicates [a > 95] and [a > 90] over the
    table of ten chunks of ten rows: both predicates exclude the chunks 0 to
    8, the rule prunes these nine chunks (90 rows), and the rows of each
    chunk are taken off the statistics once per predicate: the row count of
    the override is 100 - 90 - 90, not 100 - 90. *)
Theorem C2_overlapping_chunks_counted_per_predicate :
  ∃ st' node' override,
    _apply_to_plan_without_subqueries (Example.env DebugBuild) 5 [1%positive]
      (Example.start (Example.plan_two_predicates Example.a_gt_90))
    = Ok st' ∧
    _excluded_chunk_ids_by_predicate_node (rule st') !! 2%positive
    = Some {[0; 1; 2; 3; 4; 5; 6; 7; 8]} ∧
    _excluded_chunk_ids_by_predicate_node (rule st') !! 3%positive
    = Some {[0; 1; 2; 3; 4; 5; 6; 7; 8]} ∧
    stored_table st' 1%positive = Some node' ∧
    pruned_chunk_ids node' = [0; 1; 2; 3; 4; 5; 6; 7; 8] ∧
    table_statistics node' = Some override ∧
    row_count override
    = float_sub (float_sub (float_of_nat 100) (float_of_nat 90)) (float_of_nat 90) ∧
    row_count override ≠ float_sub (float_of_nat 100) (float_of_nat 90).
Proof.
  eexists _, _, _. split; [vm_compute; reflexivity|].
  split; [vm_compute; reflexivity|]. split; [vm_compute; reflexivity|].
  split; [vm_compute; reflexivity|]. split; [reflexivity|].
  split; [reflexivity|]. split; [vm_compute; reflexivity|].
  vm_compute. discriminate.
Qed.

Lemma failed_normalization_returns_empty env table p rest global node r :
  _excluded_chunk_ids_by_predicate_node r !! node_id p = None →
  from_expression env (predicate p) (set_pruned_column_ids [] node) = None →
  compute_exclude_list_from env table (p :: rest) global node r = Ok (∅, node, r).
Proof.
  intros Hmemo Hnorm. simpl.
  unfold evaluate_predicate_node. by rewrite Hmemo, Hnorm.
Qed.

(** C3. The chain of [a > 95] and [a IN (1, 2)], whose second predicate the
    normalizer rejects: the evaluation of the chain ends at the second
    predicate and returns the empty set, although [a > 95] alone excludes the
    chunks 0 to 8, and the memo gets no entry for the second node. *)
Theorem C3_failed_normalization_ends_the_chain :
  from_expression (Example.env DebugBuild) Example.a_in_list
    (set_pruned_column_ids [] Example.scan_node) = None ∧
  ∃ node' r',
    _compute_exclude_list (Example.env DebugBuild) Example.table_t
      [Example.ptr 2 Example.a_gt_95; Example.ptr 3 Example.a_in_list]
      Example.scan_node Example.fresh_rule
    = Ok (∅, node', r') ∧
    _excluded_chunk_ids_by_predicate_node r' !! 2%positive
    = Some {[0; 1; 2; 3; 4; 5; 6; 7; 8]} ∧
    _excluded_chunk_ids_by_predicate_node r' !! 3%positive = None ∧
    ∃ node'' r'',
      _compute_exclude_list (Example.env DebugBuild) Example.table_t
        [Example.ptr 2 Example.a_gt_95] Example.scan_node Example.fresh_rule
      = Ok ({[0; 1; 2; 3; 4; 5; 6; 7; 8]}, node'', r'').
Proof.
  split; [reflexivity|].
  eexists _, _. split; [vm_compute; reflexivity|].
  split; [vm_compute; reflexivity|]. split; [vm_compute; reflexivity|].
  eexists _, _. vm_compute. reflexivity.
Qed.

(** ** Predicate chain finder against its description *)

Lemma Expression_induction (P : Expression → Prop) :
  (∀ o c, P (LQPColumnExpression o c)) →
  (∀ v, P (ValueExpression v)) →
  (∀ p, P (PlaceholderExpression p)) →
  (∀ kind arguments, Forall P arguments → P (CompositeExpression kind arguments)) →
  ∀ e, P e.
Proof.
  intros Hcol Hval Hpar Hcomp. fix IH 1. intros [o c|v|p|kind arguments].
  - apply Hcol.
  - apply Hval.
  - apply Hpar.
  - apply Hcomp. induction arguments as [|e l IHl]; constructor.
    + apply IH.
    + apply IHl.
Qed.

Lemma visit_expression_column_visitor stn e flag :
  visit_expression (column_visitor stn) e flag =
  flag && forallb (λ o, bool_decide (o = Some stn)) (column_references e).
Proof.
  revert flag. induction e as [o c|v|p|kind arguments IH]
    using Expression_induction; intros flag; simpl.
  - case_decide; case_bool_decide; try done; by destruct flag.
  - by destruct flag.
  - by destruct flag.
  - revert flag. induction IH as [|e l He _ IHl]; intros flag; simpl.
    + by destruct flag.
    + rewrite He, IHl, forallb_app. by destruct flag; simpl.
Qed.

Lemma predicate_matches_table_spec stn e :
  predicate_matches_table stn e = true ↔ resolves_to_scan stn e.
Proof.
  unfold predicate_matches_table, resolves_to_scan.
  rewrite visit_expression_column_visitor. simpl.
  rewrite forallb_forall, Forall_forall. split.
  - intros H o Ho. apply list_elem_of_In, H in Ho. by case_bool_decide.
  - intros H o Ho. apply list_elem_of_In, H in Ho. by case_bool_decide.
Qed.

Lemma chain_compatible_spec node :
  chain_compatible node = true ↔ spec_chain_compatible node.
Proof.
  unfold chain_compatible, _is_non_filtering_node, spec_chain_compatible.
  destruct (type node); split; try done; try set_solver.
Qed.

Lemma extend_chain_spec stn n node chain :
  spec_chain_after stn n node chain (extend_chain stn n node chain).
Proof.
  unfold extend_chain. destruct (impl node) as [e| | | | | | |] eqn:Hi;
    try (apply chain_kept; unfold type; by rewrite Hi).
  destruct (predicate_matches_table stn e) eqn:He.
  - apply chain_appended; [done|]. by apply predicate_matches_table_spec.
  - eapply chain_skipped; [done|]. rewrite <- predicate_matches_table_spec.
    by rewrite He.
Qed.

Lemma deref_Ok plan n node : deref plan n = Ok node ↔ plan !! n = Some node.
Proof. unfold deref. destruct (plan !! n); naive_solver. Qed.

Lemma acyclic_consumer plan height n node consumer :
  acyclic plan height →
  plan !! n = Some node → consumer ∈ outputs node →
  is_Some (plan !! consumer) ∧ height consumer < height n.
Proof.
  intros Hacyclic Hn Hc. apply (map_Forall_lookup_1 _ _ _ _ Hacyclic) in Hn.
  by eapply Forall_forall in Hn.
Qed.

Section chain_finder.
Context (plan : gmap NodeId AbstractLQPNode) (stn : NodeId).
Context (recurse : NodeId → list PredicateNodePtr → result (list (list PredicateNodePtr))).

Lemma visit_branches_sound consumers chain acc acc' :
  (∀ o c r, recurse o c = Ok r → spec_walk plan stn o c r) →
  visit_branches recurse consumers chain acc = Ok acc' →
  ∃ branches,
    Forall2 (λ o r, spec_walk plan stn o chain r) consumers branches ∧
    acc' = acc ++ concat branches.
Proof.
  intros Hrec. revert acc.
  induction consumers as [|o consumers IH]; intros acc H; simpl in H.
  - injection H as <-. exists []. split; [constructor|].
    by rewrite app_nil_r.
  - apply bind_Ok in H as (r & Hr & H).
    apply IH in H as (branches & Hall & ->).
    exists (r :: branches). split; [constructor; eauto|].
    simpl. by rewrite app_assoc.
Qed.

(** The loop of [visit_lqp_upwards] under the visitor of the chain finder:
    the queue holds at most one node, and what the loop adds to
    [predicate_chains] is what the described walk emits from that node. *)
Lemma visit_lqp_upwards_sound fuel queue chain acc chain' acc' :
  (∀ o c r, recurse o c = Ok r → spec_walk plan stn o c r) →
  length queue ≤ 1 →
  visit_lqp_upwards fuel plan (chain_visitor recurse stn) queue (chain, acc)
  = Ok (chain', acc') →
  match queue with
  | [] => acc' = acc
  | n :: _ => ∃ chains, spec_walk plan stn n chain chains ∧ acc' = acc ++ chains
  end.
Proof.
  intros Hrec. revert queue chain acc.
  induction fuel as [|fuel IH]; intros queue chain acc Hlen H;
    destruct queue as [|n queue]; simpl in H; try done.
  { by injection H as _ <-. }
  { by injection H as _ <-. }
  assert (queue = []) as -> by (destruct queue; [done|simpl in Hlen; lia]).
  apply bind_Ok in H as (node & Hnode%deref_Ok & H).
  apply bind_Ok in H as ([[c1 acc1] visitation] & Hvisit & H).
  unfold chain_visitor in Hvisit.
  destruct (chain_compatible node) eqn:Hcompatible.
  - apply chain_compatible_spec in Hcompatible.
    pose proof (extend_chain_spec stn n node chain) as Hafter.
    case_decide as Hfan.
    + apply bind_Ok in Hvisit as (acc2 & Hbranches & [= <- <- <-]).
      apply visit_branches_sound in Hbranches as (branches & Hall & ->);
        [|done].
      apply IH in H; [|simpl; lia]. subst acc'.
      exists (concat branches). split; [|done].
      by eapply walk_branches.
    + injection Hvisit as <- <- <-. simpl in H.
      destruct (outputs node) as [|o [|o' l]] eqn:Hout;
        [| |simpl in Hfan; lia].
      * apply IH in H; [|simpl; lia]. subst acc'. exists [].
        split; [by eapply walk_no_consumer|by rewrite app_nil_r].
      * apply IH in H as (chains & Hwalk & ->); [|simpl; lia].
        exists chains. split; [|done]. by eapply walk_continues.
  - injection Hvisit as <- <- <-. apply IH in H; [|simpl; lia]. subst acc'.
    exists [chain]. split; [|done]. eapply walk_ended; [done|].
    rewrite <- chain_compatible_spec. by rewrite Hcompatible.
Qed.

Context (height : NodeId → nat) (Hacyclic : acyclic plan height).

Lemma visit_branches_terminates bound consumers chain acc :
  (∀ o c, is_Some (plan !! o) → height o < bound → ∃ r, recurse o c = Ok r) →
  (∀ o, o ∈ consumers → is_Some (plan !! o) ∧ height o < bound) →
  ∃ acc', visit_branches recurse consumers chain acc = Ok acc'.
Proof.
  intros Hrec. revert acc.
  induction consumers as [|o consumers IH]; intros acc Hin; simpl; [eauto|].
  destruct (Hin o) as [Ho Hlt]; [by left|].
  destruct (Hrec o chain Ho Hlt) as (r & ->). simpl.
  apply IH. intros o' Ho'. apply Hin. by right.
Qed.

Lemma visit_lqp_upwards_terminates bound fuel queue s :
  (∀ o c, is_Some (plan !! o) → height o < bound → ∃ r, recurse o c = Ok r) →
  (∀ n, n ∈ queue →
     is_Some (plan !! n) ∧ height n < fuel ∧ height n ≤ bound) →
  length queue ≤ 1 →
  ∃ s', visit_lqp_upwards fuel plan (chain_visitor recurse stn) queue s = Ok s'.
Proof.
  intros Hrec. revert queue s.
  induction fuel as [|fuel IH]; intros queue s Hqueue Hlen;
    destruct queue as [|n queue]; simpl; eauto.
  { destruct (Hqueue n) as (_ & ? & _); [by left|lia]. }
  assert (queue = []) as -> by (destruct queue; [done|simpl in Hlen; lia]).
  destruct (Hqueue n) as ([node Hnode] & Hfuel & Hbound); [by left|].
  unfold deref. rewrite Hnode. simpl.
  destruct s as [chain acc]. unfold chain_visitor.
  destruct (chain_compatible node).
  - case_decide as Hfan.
    + destruct (visit_branches_terminates bound (outputs node)
                  (extend_chain stn n node chain) acc Hrec) as (acc' & ->).
      { intros o Ho. destruct (acyclic_consumer _ _ _ _ _ Hacyclic Hnode Ho). split; [done|lia]. }
      simpl. apply IH; [|simpl; lia]. intros m Hm. by apply elem_of_nil in Hm.
    + simpl. apply IH; [|lia].
      intros o Ho. destruct (acyclic_consumer _ _ _ _ _ Hacyclic Hnode Ho). split; [done|lia].
  - simpl. apply IH; [|simpl; lia]. intros m Hm. by apply elem_of_nil in Hm.
Qed.
End chain_finder.

Lemma find_predicate_chains_recursively_sound fuel plan stn n chain chains :
  find_predicate_chains_recursively fuel plan stn n chain = Ok chains →
  spec_walk plan stn n chain chains.
Proof.
  revert n chain chains. induction fuel as [|fuel IH]; intros n chain chains H;
    simpl in H; [done|].
  apply bind_Ok in H as ([chain' acc'] & Hloop & [= <-]).
  apply (visit_lqp_upwards_sound plan stn _ fuel [n] chain [] chain' acc') in Hloop
    as (r & Hwalk & ->); [done|exact IH|simpl; lia].
Qed.

Lemma find_predicate_chains_recursively_terminates plan height stn fuel n chain :
  acyclic plan height →
  is_Some (plan !! n) →
  height n + 2 ≤ fuel →
  ∃ chains, find_predicate_chains_recursively fuel plan stn n chain = Ok chains.
Proof.
  intros Hacyclic. revert n chain.
  induction fuel as [|fuel IH]; intros n chain Hn Hfuel; [lia|]. simpl.
  destruct (visit_lqp_upwards_terminates plan stn
              (find_predicate_chains_recursively fuel plan stn)
              height Hacyclic (height n) fuel [n] (chain, []))
    as ([chain' chains] & ->).
  - intros o c Ho Hlt. apply IH; [done|lia].
  - intros m ->%list_elem_of_singleton. split; [done|lia].
  - simpl. lia.
  - simpl. eauto.
Qed.

Lemma spec_chain_after_deterministic stn n node chain chain1 chain2 :
  spec_chain_after stn n node chain chain1 →
  spec_chain_after stn n node chain chain2 →
  chain1 = chain2.
Proof.
  assert (Htype : ∀ e, impl node = PredicateNode e →
                       type node = LQPNodeType.Predicate).
  { intros e He. unfold type. by rewrite He. }
  intros [e1 He1 Hr1|e1 He1 Hr1|Hk1] [e2 He2 Hr2|e2 He2 Hr2|Hk2];
    try done; try congruence;
    try (by destruct Hk1; eapply Htype);
    try (by destruct Hk2; eapply Htype).
Qed.

(** On a plan without cycles the described walk emits one collection of
    chains. *)
Lemma spec_walk_deterministic plan height stn n chain chains1 chains2 :
  acyclic plan height →
  spec_walk plan stn n chain chains1 →
  spec_walk plan stn n chain chains2 →
  chains1 = chains2.
Proof.
  intros Hacyclic.
  remember (S (height n)) as bound eqn:Hbound.
  assert (Hlt : height n < bound) by lia. clear Hbound.
  revert n chain chains1 chains2 Hlt.
  induction bound as [|bound IH]; intros n chain chains1 chains2 Hlt H1 H2;
    [lia|].
  inversion H1 as [? node1 ? Hn1 Hc1|? node1 ? chain1 branches1 Hn1 Hc1 Ha1 Hf1 Hb1
                  |? node1 ? chain1 o1 ? Hn1 Hc1 Ha1 Ho1 Hw1|? node1 ? Hn1 Hc1 Ho1];
    subst;
    inversion H2 as [? node2 ? Hn2 Hc2|? node2 ? chain2 branches2 Hn2 Hc2 Ha2 Hf2 Hb2
                    |? node2 ? chain2 o2 ? Hn2 Hc2 Ha2 Ho2 Hw2|? node2 ? Hn2 Hc2 Ho2];
    subst; try done;
    assert (node2 = node1) as -> by congruence; try done;
    try congruence;
    try (rewrite Ho1 in *; simpl in *; lia);
    try (rewrite Ho2 in *; simpl in *; lia).
  - assert (chain2 = chain1) as ->
      by by eapply spec_chain_after_deterministic.
    f_equal.
    assert (Hall : ∀ o, o ∈ outputs node1 → height o < bound).
    { intros o Ho.
      destruct (acyclic_consumer _ _ _ _ _ Hacyclic Hn1 Ho). lia. }
    clear -IH Hb1 Hb2 Hall. revert branches2 Hb2.
    induction Hb1 as [|o r1 outs rs1 Hr1 _ IHl]; intros branches2 Hb2;
      inversion Hb2 as [|? r2 ? rs2 Hr2 Hrs2]; subst; [done|].
    f_equal.
    + eapply IH; [|exact Hr1|exact Hr2]. apply Hall. by left.
    + apply IHl; [|done]. intros o' Ho'. apply Hall. by right.
  - assert (chain2 = chain1) as ->
      by by eapply spec_chain_after_deterministic.
    assert (o2 = o1) as -> by congruence.
    eapply IH; [|exact Hw1|exact Hw2].
    destruct (acyclic_consumer _ _ _ _ o1 Hacyclic Hn1); [|lia].
    rewrite Ho1. by left.
Qed.

(** C8. The chain finder does the walk of the description. A predicate
    node is appended to the accumulated chain exactly when all its column
    references resolve to the scan, and a predicate node with a reference
    that resolves elsewhere leaves the chain as it is while the walk goes on;
    at a node with more than one consumer the chains are those of one walk
    per consumer, in order, each from the chain accumulated so far, and
    nothing is added for the node itself; a node of another kind ends the
    walk and emits the accumulated chain. On a plan without cycles the
    finder returns such a result for every budget above the height of the
    node, and that result is the only one the description allows. *)
Theorem C8_chain_finder_walk plan stn :
  (∀ e, predicate_matches_table stn e = true ↔ resolves_to_scan stn e) ∧
  (∀ fuel n chain chains,
     find_predicate_chains_recursively fuel plan stn n chain = Ok chains →
     spec_walk plan stn n chain chains) ∧
  (∀ height n chain fuel,
     acyclic plan height → is_Some (plan !! n) → height n + 2 ≤ fuel →
     ∃ chains,
       find_predicate_chains_recursively fuel plan stn n chain = Ok chains ∧
       spec_walk plan stn n chain chains ∧
       ∀ chains', spec_walk plan stn n chain chains' → chains' = chains).
Proof.
  split; [apply predicate_matches_table_spec|]. split.
  - intros fuel n chain chains. apply find_predicate_chains_recursively_sound.
  - intros height n chain fuel Hacyclic Hn Hfuel.
    destruct (find_predicate_chains_recursively_terminates
                plan height stn fuel n chain Hacyclic Hn Hfuel) as (chains & H).
    exists chains. split; [done|].
    pose proof (find_predicate_chains_recursively_sound _ _ _ _ _ _ H) as Hwalk.
    split; [done|]. intros chains' Hwalk'.
    by eapply spec_walk_deterministic.
Qed.

(** ** The per-chunk statistics scan *)

Lemma scan_chunks_step b already column condition v v2 chunk_id chunk remaining n local :
  scan_chunks b already column condition v v2 chunk_id (chunk :: remaining) n local
  = bind
      (match chunk with
       | None => Ok (n, local)
       | Some chunk =>
           match pruning_statistics chunk with
           | None => Ok (n, local)
           | Some statistics =>
               match statistics !! column with
               | None => Fault OutOfRange
               | Some segment_statistics =>
                   bind (_can_prune b segment_statistics condition v v2)
                     (λ can_prune : bool,
                        if can_prune
                        then Ok (if bool_decide (chunk_id ∈ already) then n
                                 else n + size chunk, {[chunk_id]} ∪ local)
                        else Ok (n, local))
               end
           end
       end)
      (λ '(n', local'),
         scan_chunks b already column condition v v2 (S chunk_id) remaining n' local').
Proof. reflexivity. Qed.

(** One chunk of the scan, in terms of [chunk_excluded]. *)
Lemma scan_chunk_result b already column condition v v2 chunk_id chunk remaining n local r :
  scan_chunks b already column condition v v2 chunk_id (chunk :: remaining) n local
  = Ok r →
  scan_chunks b already column condition v v2 (S chunk_id) remaining
    (if chunk_excluded b column condition v v2 chunk
     then (if bool_decide (chunk_id ∈ already) then n else n + rows_of chunk)
     else n)
    (if chunk_excluded b column condition v v2 chunk
     then {[chunk_id]} ∪ local else local)
  = Ok r.
Proof.
  rewrite scan_chunks_step. intros H.
  apply bind_Ok in H as ([n1 l1] & Hchunk & H).
  unfold chunk_excluded, rows_of. destruct chunk as [chunk|].
  - destruct (pruning_statistics chunk) as [statistics|].
    + destruct (statistics !! column) as [segment|]; [|done].
      apply bind_Ok in Hchunk as (can & -> & Hchunk).
      destruct can; by injection Hchunk as <- <-.
    + by injection Hchunk as <- <-.
  - by injection Hchunk as <- <-.
Qed.

Lemma scan_chunks_spec b already column condition v v2 remaining :
  ∀ chunk_id n local n' local',
    scan_chunks b already column condition v v2 chunk_id remaining n local
    = Ok (n', local') →
    local' = local ∪
      list_to_set
        ((filter (λ p, chunk_excluded b column condition v v2 p.2 = true)
            (imap (λ i chunk, (chunk_id + i, chunk)) remaining)).*1) ∧
    n' = n +
      sum_list
        ((λ p, rows_of p.2) <$>
         filter (λ p, (p.1 ∉ already) ∧
                      chunk_excluded b column condition v v2 p.2 = true)
           (imap (λ i chunk, (chunk_id + i, chunk)) remaining)).
Proof.
  induction remaining as [|chunk remaining IH]; intros chunk_id n local n' local' H.
  - simpl in H. injection H as <- <-. simpl. split; [set_solver|lia].
  - apply scan_chunk_result in H. apply IH in H as [Hlocal Hn].
    rewrite imap_cons, !filter_cons. simpl. rewrite Nat.add_0_r.
    assert (Hshift : imap ((λ i c, (chunk_id + i, c)) ∘ S) remaining
                     = imap (λ i c, (S chunk_id + i, c)) remaining).
    { apply imap_ext. intros i c _. simpl. f_equal. lia. }
    rewrite Hshift.
    destruct (chunk_excluded b column condition v v2 chunk) eqn:He.
    + rewrite decide_True by done. simpl. split.
      * rewrite Hlocal. set_solver.
      * case_bool_decide as Hin.
        -- rewrite decide_False by tauto. exact Hn.
        -- rewrite decide_True by tauto. rewrite fmap_cons.
           change (sum_list (?x :: ?l)) with (x + sum_list l).
           rewrite Hn. simpl. lia.
    + rewrite decide_False by done. rewrite decide_False by (by intros [_ ?]).
      split; [exact Hlocal|exact Hn].
Qed.

Lemma elem_of_numbered_chunks chunks c chunk :
  (c, chunk) ∈ numbered_chunks chunks ↔ chunks !! c = Some chunk.
Proof.
  unfold numbered_chunks. rewrite elem_of_lookup_imap. split.
  - intros (i & x & [= -> ->] & Hx). done.
  - intros Hc. eauto.
Qed.

(** X1. The scan over the chunks of a table for one tuple adds to the
    exclusion set exactly the identifiers of the chunks that exist, carry
    pruning statistics with an entry for the column, and are contradicted by
    [_can_prune]; a null chunk or a chunk without statistics is never
    excluded, and every added identifier is below the chunk count. The rows
    it counts are the rows of these chunks, those listed in the scan's
    pruned chunk identifiers left out. *)
Theorem X1_scan_excludes_contradicted_chunks
    b already column condition v v2 chunks local n local' :
  scan_chunks b already column condition v v2 0 chunks 0 local = Ok (n, local') →
  (∀ c, c ∈ local' ↔
        c ∈ local ∨
        ∃ chunk statistics segment_statistics,
          chunks !! c = Some (Some chunk) ∧
          pruning_statistics chunk = Some statistics ∧
          statistics !! column = Some segment_statistics ∧
          _can_prune b segment_statistics condition v v2 = Ok true) ∧
  (∀ c, c ∈ local' → c ∈ local ∨ c < length chunks) ∧
  n = sum_list
        ((λ p, rows_of p.2) <$>
         filter (λ p, (p.1 ∉ already) ∧
                      chunk_excluded b column condition v v2 p.2 = true)
           (numbered_chunks chunks)).
Proof.
  intros H. apply scan_chunks_spec in H as [Hlocal Hn].
  change (imap (λ i chunk, (0 + i, chunk)) chunks) with (numbered_chunks chunks)
    in Hlocal, Hn.
  assert (Hin : ∀ c, c ∈ local' ↔
            c ∈ local ∨
            ∃ chunk, chunks !! c = Some chunk ∧
                     chunk_excluded b column condition v v2 chunk = true).
  { intros c. rewrite Hlocal, elem_of_union, elem_of_list_to_set,
      list_elem_of_fmap.
    split; (intros [?|Hc]; [by left|right]).
    - destruct Hc as ([c' chunk] & -> & [He Hc]%list_elem_of_filter).
      exists chunk. by apply elem_of_numbered_chunks in Hc.
    - destruct Hc as (chunk & Hc & He). exists (c, chunk).
      split; [done|]. apply list_elem_of_filter.
      split; [done|]. by apply elem_of_numbered_chunks. }
  split; [|split; [|exact Hn]].
  - intros c. rewrite Hin. split; (intros [?|Hc]; [by left|right]).
    + destruct Hc as (chunk & Hc & He). unfold chunk_excluded in He.
      destruct chunk as [chunk|]; [|done].
      destruct (pruning_statistics chunk) as [statistics|] eqn:Hs; [|done].
      destruct (statistics !! column) as [segment|] eqn:Hseg; [|done].
      destruct (_can_prune b segment condition v v2) as [[]|] eqn:Hcan;
        try done.
      by exists chunk, statistics, segment.
    + destruct Hc as (chunk & statistics & segment & Hc & Hs & Hseg & Hcan).
      exists (Some chunk). split; [done|].
      unfold chunk_excluded. by rewrite Hs, Hseg, Hcan.
  - intros c [?|(chunk & Hc & _)]%Hin; [by left|right].
    by eapply lookup_lt_Some.
Qed.

(** ** The exclusion set of a chain *)

Lemma scan_and_correct_bound env table op v v2 local node local' node' :
  scan_and_correct env table op v v2 local node = Ok (local', node') →
  ∀ c, c ∈ local' → c ∈ local ∨ c < length (chunks table).
Proof.
  unfold scan_and_correct. intros H c Hc.
  apply bind_Ok in H as ([n l] & Hscan & H).
  assert (l = local') as ->.
  { case_decide; [|by injection H as -> _].
    by apply bind_Ok in H as (s & _ & [= -> _]). }
  apply scan_chunks_spec in Hscan as [-> _].
  apply elem_of_union in Hc as [?|Hc]; [by left|right].
  apply elem_of_list_to_set, list_elem_of_fmap in Hc
    as ([c' chunk] & -> & [_ Hc]%list_elem_of_filter).
  apply elem_of_lookup_imap in Hc as (i & x & [= -> ->] & Hx).
  by eapply lookup_lt_Some.
Qed.

Lemma prune_with_operator_predicate_bound env table op local node local' node' :
  prune_with_operator_predicate env table op local node = Ok (local', node') →
  ∀ c, c ∈ local' → c ∈ local ∨ c < length (chunks table).
Proof.
  unfold prune_with_operator_predicate. intros H.
  repeat (case_match; try done);
    first [ injection H as <- _; by left
          | by eapply scan_and_correct_bound ].
Qed.

Lemma prune_with_operator_predicates_bound env table ops local node local' node' :
  prune_with_operator_predicates env table ops local node = Ok (local', node') →
  ∀ c, c ∈ local' → c ∈ local ∨ c < length (chunks table).
Proof.
  revert local node. induction ops as [|op ops IH]; intros local node H c Hc;
    simpl in H.
  - injection H as <- _. by left.
  - apply bind_Ok in H as ([l1 n1] & H1 & H).
    destruct (IH _ _ H c Hc) as [Hc1|?]; [|by right].
    by eapply prune_with_operator_predicate_bound.
Qed.

Lemma evaluate_predicate_node_failed env table p node r node' r' :
  evaluate_predicate_node env table p node r = Ok (None, node', r') →
  node' = node ∧ r' = r ∧
  _excluded_chunk_ids_by_predicate_node r !! node_id p = None ∧
  from_expression env (predicate p) (set_pruned_column_ids [] node) = None.
Proof.
  unfold evaluate_predicate_node. intros H.
  destruct (_excluded_chunk_ids_by_predicate_node r !! node_id p); [done|].
  destruct (from_expression _ _ _) as [ops|].
  - by apply bind_Ok in H as ([local n1] & _ & [=]).
  - by injection H as <- <-.
Qed.

Lemma evaluate_predicate_node_bound env table p node r X node' r' bound :
  memo_bounded bound r → length (chunks table) ≤ bound →
  evaluate_predicate_node env table p node r = Ok (Some X, node', r') →
  memo_bounded bound r' ∧ ∀ c, c ∈ X → c < bound.
Proof.
  unfold evaluate_predicate_node. intros Hmemo Hlen H.
  destruct (_excluded_chunk_ids_by_predicate_node r !! node_id p) as [Y|] eqn:HY.
  { injection H as <- _ <-. split; [done|]. intros c Hc. by eapply Hmemo. }
  destruct (from_expression _ _ _) as [ops|]; [|done].
  apply bind_Ok in H as ([local n1] & Hops & [= <- _ <-]).
  assert (Hlocal : ∀ c, c ∈ local → c < bound).
  { intros c Hc.
    destruct (prune_with_operator_predicates_bound _ _ _ _ _ _ _ Hops c Hc);
      [set_solver|lia]. }
  split; [|done]. intros q Y c. simpl.
  destruct (decide (node_id p = q)) as [->|Hne].
  - rewrite lookup_insert_eq. intros [= <-]. apply Hlocal.
  - rewrite lookup_insert_ne by done. intros HY' Hc. by eapply Hmemo.
Qed.

(** The result of the loop over a chain: empty after a failed normalization,
    and otherwise the accumulator joined with the sets the memo holds for the
    nodes of the chain. *)
Lemma compute_exclude_list_from_result env table chain global node r X node' r' :
  compute_exclude_list_from env table chain global node r = Ok (X, node', r') →
  (X = ∅ ∧
   ∃ p, p ∈ chain ∧ _excluded_chunk_ids_by_predicate_node r' !! node_id p = None) ∨
  (Forall (λ p, is_Some (_excluded_chunk_ids_by_predicate_node r' !! node_id p))
     chain ∧
   ∀ c, c ∈ X ↔
        c ∈ global ∨
        ∃ p Y, p ∈ chain ∧
               _excluded_chunk_ids_by_predicate_node r' !! node_id p = Some Y ∧
               c ∈ Y).
Proof.
  revert global node r. induction chain as [|p chain IH]; intros global node r H;
    simpl in H.
  - injection H as <- _ _. right. split; [constructor|].
    intros c. split; [by left|]. intros [?|(p & Y & Hp & _)]; [done|].
    by apply elem_of_nil in Hp.
  - apply bind_Ok in H as ([[o n1] r1] & H1 & H). destruct o as [local|].
    + pose proof (evaluate_predicate_node_memoizes _ _ _ _ _ _ _ _ H1) as Hp.
      pose proof (compute_exclude_list_from_step _ _ _ _ _ _ _ _ _ H)
        as [_ [Hgrow _]].
      eapply lookup_weaken in Hp; [|exact Hgrow].
      destruct (IH _ _ _ H) as [[-> (q & Hq & Hnone)]|[Hall Hin]].
      * left. split; [done|]. exists q. split; [by right|done].
      * right. split; [constructor; eauto|]. intros c. rewrite Hin. split.
        -- intros [[?|?]%elem_of_union|(q & Y & Hq & HY & Hc)].
           ++ by left.
           ++ right. exists p, local. split; [by left|done].
           ++ right. exists q, Y. split; [by right|done].
        -- intros [?|(q & Y & [->|Hq]%elem_of_cons & HY & Hc)].
           ++ left. set_solver.
           ++ left. assert (Y = local) as -> by congruence. set_solver.
           ++ right. eauto.
    + injection H as <- _ <-.
      apply evaluate_predicate_node_failed in H1 as (_ & -> & Hnone & _).
      left. split; [done|]. exists p. split; [by left|done].
Qed.

(** X2. The exclusion set of a chain is the union, over the predicate
    nodes of the chain, of the sets the memo holds for them after the
    evaluation, provided the memo holds a set for every node of the chain;
    when it does not (the normalization of a node failed) the set is empty.
    In both cases every excluded chunk is in the memo entry of a node of the
    chain. *)
Theorem X2_chain_exclusion_is_union_of_memo_entries
    env table chain node r X node' r' :
  _compute_exclude_list env table chain node r = Ok (X, node', r') →
  let memo := _excluded_chunk_ids_by_predicate_node r' in
  (∀ c, c ∈ X → ∃ p Y, p ∈ chain ∧ memo !! node_id p = Some Y ∧ c ∈ Y) ∧
  (Forall (λ p, is_Some (memo !! node_id p)) chain →
     ∀ c, c ∈ X ↔ ∃ p Y, p ∈ chain ∧ memo !! node_id p = Some Y ∧ c ∈ Y) ∧
  (¬ Forall (λ p, is_Some (memo !! node_id p)) chain → X = ∅).
Proof.
  intros H memo. unfold _compute_exclude_list in H.
  destruct (compute_exclude_list_from_result _ _ _ _ _ _ _ _ _ H)
    as [[-> (q & Hq & Hnone)]|[Hall Hin]].
  - split; [set_solver|]. split; [|done]. intros Hall.
    eapply Forall_forall in Hall; [|exact Hq]. fold memo in Hnone.
    rewrite Hnone in Hall. by destruct Hall.
  - assert (Hiff : ∀ c, c ∈ X ↔
              ∃ p Y, p ∈ chain ∧ memo !! node_id p = Some Y ∧ c ∈ Y).
    { intros c. rewrite Hin. split; [|by right]. intros [?|?]; [set_solver|done]. }
    split; [intros c; apply Hiff|]. split; [done|]. by intros [].
Qed.

Lemma compute_exclude_list_from_bound env table chain global node r X node' r' bound :
  memo_bounded bound r → length (chunks table) ≤ bound →
  (∀ c, c ∈ global → c < bound) →
  compute_exclude_list_from env table chain global node r = Ok (X, node', r') →
  memo_bounded bound r' ∧ ∀ c, c ∈ X → c < bound.
Proof.
  intros Hmemo Hlen. revert global node r Hmemo.
  induction chain as [|p chain IH]; intros global node r Hmemo Hglobal H;
    simpl in H.
  - by injection H as <- _ <-.
  - apply bind_Ok in H as ([[o n1] r1] & H1 & H). destruct o as [local|].
    + destruct (evaluate_predicate_node_bound _ _ _ _ _ _ _ _ _ Hmemo Hlen H1)
        as [Hmemo1 Hlocal].
      eapply IH; [exact Hmemo1| |exact H].
      intros c [?|?]%elem_of_union; eauto.
    + injection H as <- _ <-.
      apply evaluate_predicate_node_failed in H1 as (_ & -> & _).
      split; [done|set_solver].
Qed.

Lemma compute_pruned_chunk_id_sets_bound env table chains node r sets node' r' bound :
  memo_bounded bound r → length (chunks table) ≤ bound →
  compute_pruned_chunk_id_sets env table chains node r = Ok (sets, node', r') →
  memo_bounded bound r' ∧ Forall (λ X : gset nat, ∀ c, c ∈ X → c < bound) sets.
Proof.
  intros Hmemo Hlen. revert node r sets node' r' Hmemo.
  induction chains as [|chain chains IH]; intros node r sets node' r' Hmemo H;
    simpl in H.
  - injection H as <- _ <-. split; [done|constructor].
  - apply bind_Ok in H as ([[X n1] r1] & H1 & H).
    apply bind_Ok in H as ([[sets' n2] r2] & H2 & [= <- <- <-]).
    apply compute_exclude_list_from_bound with (bound := bound) in H1
      as [Hmemo1 HX]; [|done|done|set_solver].
    destruct (IH _ _ _ _ _ Hmemo1 H2) as [Hmemo2 Hsets].
    split; [done|]. by constructor.
Qed.

Lemma elem_of_to_sorted_vector (X : gset nat) c : c ∈ to_sorted_vector X ↔ c ∈ X.
Proof.
  unfold to_sorted_vector. by rewrite merge_sort_Permutation, elem_of_elements.
Qed.

Lemma NoDup_to_sorted_vector (X : gset nat) : NoDup (to_sorted_vector X).
Proof.
  unfold to_sorted_vector. rewrite merge_sort_Permutation. apply NoDup_elements.
Qed.

(** X3. When every chunk identifier in the memo is below the chunk count of
    the scan's table, step (3) leaves the scan either with the pruned chunk
    identifiers it had or with a non-empty list of identifiers that are all
    below the chunk count of the table and pairwise distinct; the memo keeps
    the bound. *)
Theorem X3_pruned_chunk_ids_are_chunks_of_the_table
    env id chains st st' node table :
  stored_table st id = Some node →
  get_table env (table_name node) = Ok table →
  memo_bounded (length (chunks table)) (rule st) →
  prune_stored_table_node env id chains st = Ok st' →
  memo_bounded (length (chunks table)) (rule st') ∧
  ∃ node',
    stored_table st' id = Some node' ∧
    (pruned_chunk_ids node' = pruned_chunk_ids node ∨
     (pruned_chunk_ids node' ≠ [] ∧
      Forall (λ c, c < length (chunks table)) (pruned_chunk_ids node') ∧
      NoDup (pruned_chunk_ids node'))).
Proof.
  intros Hnode Htable Hmemo Hrun.
  destruct (decide (chains = [])) as [->|Hne].
  { injection Hrun as <-. split; [done|]. exists node. split; [done|by left]. }
  destruct (prune_stored_table_node_Ok _ _ _ _ _ Hne Hrun)
    as (node0 & table0 & sets & node1 & rule1 & Hnode0 & Htable0 & Hsets & Hrule &
        Hcases).
  assert (node0 = node) as -> by congruence.
  assert (table0 = table) as -> by congruence.
  destruct (compute_pruned_chunk_id_sets_bound _ _ _ _ _ _ _ _ _ Hmemo
              (Nat.le_refl _) Hsets) as [Hmemo1 Hbound].
  apply compute_pruned_chunk_id_sets_step in Hsets as [(_ & _ & Hsame) _].
  split; [by rewrite Hrule|].
  destruct Hcases as [[_ Hst]|(Hfinal & _ & Hst)].
  - exists node1. split; [done|by left].
  - eexists. split; [exact Hst|]. right. simpl. split; [|split].
    + intros Hnil. apply Hfinal. apply set_eq. intros c.
      rewrite <- elem_of_to_sorted_vector, Hnil. set_solver.
    + apply Forall_forall. intros c Hc%elem_of_to_sorted_vector.
      apply elem_of_intersect_chunk_ids in Hc as [Hsets_ne Hall].
      destruct sets as [|A sets]; [done|].
      apply Forall_cons in Hall as [HcA _]. apply Forall_cons in Hbound as [HA _].
      by apply HA.
    + apply NoDup_to_sorted_vector.
Qed.

(** ** What an application keeps of the plan *)

Lemma node_preserved_refl node : node_preserved node node.
Proof. split; [done|]. destruct (impl node); eauto. Qed.

Lemma node_preserved_trans n1 n2 n3 :
  node_preserved n1 n2 → node_preserved n2 n3 → node_preserved n1 n3.
Proof.
  intros [Ho1 Hi1] [Ho2 Hi2]. split; [congruence|].
  destruct (impl n1) as [e|s| | | | | |];
    try (rewrite Hi1 in Hi2; exact Hi2).
  destruct Hi1 as (s' & Hs' & Hname & Hcolumns). rewrite Hs' in Hi2.
  destruct Hi2 as (s'' & Hs'' & Hname' & Hcolumns').
  exists s''. split; [done|]. split; congruence.
Qed.

Lemma plan_preserved_refl plan : plan_preserved plan plan.
Proof.
  intros n. destruct (plan !! n); constructor. apply node_preserved_refl.
Qed.

Lemma plan_preserved_trans p1 p2 p3 :
  plan_preserved p1 p2 → plan_preserved p2 p3 → plan_preserved p1 p3.
Proof.
  intros H1 H2 n. specialize (H1 n). specialize (H2 n).
  destruct H1 as [a b Hab|]; inversion H2 as [? c Hbc|]; subst; constructor.
  by eapply node_preserved_trans.
Qed.

(** Step (3) on one scan replaces at most the node of that scan, by a
    stored-table node with the same consumers, table name and pruned
    columns. *)
Lemma prune_stored_table_node_plan env id chains st st' :
  prune_stored_table_node env id chains st = Ok st' →
  lqp st' = lqp st ∨
  ∃ current node node',
    lqp st !! id = Some current ∧
    impl current = StoredTableNodeImpl node ∧
    table_name node' = table_name node ∧
    pruned_column_ids node' = pruned_column_ids node ∧
    lqp st' = store_node id current node' (lqp st).
Proof.
  intros Hrun. destruct (decide (chains = [])) as [->|Hne].
  { injection Hrun as <-. by left. }
  assert (Hbody : set_pruned_chunks env id chains st = Ok st')
    by by destruct chains.
  clear Hrun. unfold set_pruned_chunks in Hbody.
  apply bind_Ok in Hbody as (current & Hd%deref_Ok & Hrun).
  destruct (impl current) as [|node| | | | | |] eqn:Hi; try done.
  apply bind_Ok in Hrun as (table & Htable & Hrun).
  apply bind_Ok in Hrun as ([[sets node1] rule1] & Hsets & Hrun).
  apply compute_pruned_chunk_id_sets_step in Hsets as [(Hname & Hcolumns & _) _].
  right. exists current, node. case_decide.
  - injection Hrun as <-. by exists node1.
  - apply bind_Ok in Hrun as ([] & _ & [= <-]).
    by exists (set_pruned_chunk_ids
                 (to_sorted_vector (intersect_chunk_ids sets)) node1).
Qed.

Lemma prune_stored_table_node_preserves env id chains st st' :
  prune_stored_table_node env id chains st = Ok st' →
  plan_preserved (lqp st) (lqp st') ∧
  ∀ n, n ≠ id → lqp st' !! n = lqp st !! n.
Proof.
  intros [->|(current & node & node' & Hcurrent & Hi & Hname & Hcolumns & ->)]
    %prune_stored_table_node_plan.
  { split; [apply plan_preserved_refl|done]. }
  unfold store_node. split.
  - intros n. destruct (decide (id = n)) as [<-|Hne].
    + rewrite lookup_insert_eq, Hcurrent. constructor. split; [done|].
      rewrite Hi. simpl. eauto.
    + rewrite lookup_insert_ne by done.
      destruct (lqp st !! n); constructor. apply node_preserved_refl.
  - intros n Hne. by rewrite lookup_insert_ne.
Qed.

Lemma prune_stored_table_nodes_preserves env entries st st' :
  prune_stored_table_nodes env entries st = Ok st' →
  plan_preserved (lqp st) (lqp st') ∧
  ∀ n, n ∉ entries.*1 → lqp st' !! n = lqp st !! n.
Proof.
  revert st. induction entries as [|[id chains] entries IH]; intros st H;
    simpl in H.
  - injection H as <-. split; [apply plan_preserved_refl|done].
  - apply bind_Ok in H as (st1 & H1 & H).
    apply prune_stored_table_node_preserves in H1 as [Hp1 Hf1].
    apply IH in H as [Hp Hf]. split; [by eapply plan_preserved_trans|].
    intros n Hn. rewrite fmap_cons, not_elem_of_cons in Hn. simpl in Hn.
    destruct Hn as [Hne Hn]. rewrite Hf by done. by apply Hf1.
Qed.

(** ** Steps (1) and (2) *)

Lemma collect_stored_table_nodes_keys leafs :
  ∀ m : list (positive * list (list PredicateNodePtr)),
    NoDup m.*1 →
    NoDup (foldl (λ m node, emplace node [] m) m leafs).*1 ∧
    ∀ n, n ∈ (foldl (λ m node, emplace node [] m) m leafs).*1 ↔
         n ∈ m.*1 ∨ n ∈ leafs.
Proof.
  induction leafs as [|leaf leafs IH]; intros m Hm; simpl.
  - split; [done|]. intros n. rewrite elem_of_nil. tauto.
  - assert (Hstep : NoDup (emplace leaf [] m).*1 ∧
              ∀ n, n ∈ (emplace leaf ([] : list (list PredicateNodePtr)) m).*1 ↔
                   n ∈ m.*1 ∨ n = leaf).
    { unfold emplace. case_bool_decide as Hin.
      - split; [done|]. intros n. split; [by left|]. by intros [?| ->].
      - rewrite fmap_app. simpl. split.
        + apply NoDup_app. split; [done|]. split; [|apply NoDup_singleton].
          intros n Hn ->%list_elem_of_singleton. done.
        + intros n. by rewrite elem_of_app, list_elem_of_singleton. }
    destruct Hstep as [Hdup Hkeys]. destruct (IH _ Hdup) as [Hdup' Hkeys'].
    split; [done|]. intros n. rewrite Hkeys', Hkeys, elem_of_cons. tauto.
Qed.

Lemma collect_predicate_chains_entries fuel plan entries entries' :
  collect_predicate_chains fuel plan entries = Ok entries' →
  entries'.*1 = entries.*1 ∧
  ∀ n chains, (n, chains) ∈ entries' →
    find_predicate_chains_recursively fuel plan n n [] = Ok chains.
Proof.
  revert entries'. induction entries as [|[n0 c0] entries IH]; intros entries' H;
    simpl in H.
  - injection H as <-. split; [done|]. intros n chains Hin.
    by apply elem_of_nil in Hin.
  - apply bind_Ok in H as (chains0 & Hfind & H).
    apply bind_Ok in H as (rest & Hrest & [= <-]).
    destruct (IH _ Hrest) as [Hkeys Hall]. split.
    + by rewrite !fmap_cons, Hkeys.
    + intros n chains [[= -> ->]|Hin]%elem_of_cons; [done|]. by apply Hall.
Qed.

(** ** The final set of an application *)



(** X5. Steps (1) and (2) give every stored-table node among the leafs one
    entry, however often it occurs among them, and no entry to any other
    node; the chains of the entry are those the chain finder returns from
    that node with an empty chain. *)
Theorem X5_one_entry_per_stored_table_node fuel plan leafs entries :
  collect_predicate_chains fuel plan (collect_stored_table_nodes leafs)
  = Ok entries →
  NoDup entries.*1 ∧
  (∀ n, n ∈ entries.*1 ↔ n ∈ leafs) ∧
  ∀ n chains, (n, chains) ∈ entries →
    find_predicate_chains_recursively fuel plan n n [] = Ok chains.
Proof.
  intros H. apply collect_predicate_chains_entries in H as [Hkeys Hall].
  destruct (collect_stored_table_nodes_keys leafs [] (NoDup_nil_2))
    as [Hdup Hin].
  fold (collect_stored_table_nodes leafs) in Hdup, Hin.
  rewrite Hkeys. split; [done|]. split; [|done].
  intros n. rewrite Hin. simpl. rewrite elem_of_nil. tauto.
Qed.

(** X4. An application of the rule keeps the shape of the plan: the same
    nodes with the same consumers; every node that is not a stored-table node
    is unchanged, a stored-table node keeps its table name and pruned
    columns, and a node that is not among the leafs given to the rule is
    unchanged altogether. *)
Theorem X4_application_keeps_the_plan env fuel leafs st st' :
  _apply_to_plan_without_subqueries env fuel leafs st = Ok st' →
  plan_preserved (lqp st) (lqp st') ∧
  dom (lqp st') = dom (lqp st) ∧
  (∀ n node node',
     lqp st !! n = Some node → lqp st' !! n = Some node' →
     outputs node' = outputs node ∧ type node' = type node) ∧
  (∀ n, n ∉ leafs → lqp st' !! n = lqp st !! n).
Proof.
  unfold _apply_to_plan_without_subqueries. intros H.
  apply bind_Ok in H as (entries & Hentries & H).
  apply prune_stored_table_nodes_preserves in H as [Hplan Hframe].
  apply collect_predicate_chains_entries in Hentries as [Hkeys _].
  destruct (collect_stored_table_nodes_keys leafs [] (NoDup_nil_2)) as [_ Hin].
  fold (collect_stored_table_nodes leafs) in Hin.
  split; [done|]. split; [|split].
  - apply set_eq. intros n. rewrite !elem_of_dom. specialize (Hplan n).
    destruct Hplan; split; intros [? ?]; done || eauto.
  - intros n node node' Hn Hn'. specialize (Hplan n).
    rewrite Hn, Hn' in Hplan. inversion Hplan as [? ? [Ho Hi]|]; subst.
    split; [done|]. unfold type.
    destruct (impl node) as [e|s| | | | | |]; try by rewrite Hi.
    by destruct Hi as (s' & -> & _).
  - intros n Hn. apply Hframe. rewrite Hkeys, Hin. simpl.
    rewrite elem_of_nil. tauto.
Qed.

(** ** An induction principle for the chain finder *)

Section chain_finder_induction.
Context (plan : gmap positive AbstractLQPNode) (stn : positive).
Context (W : positive → list PredicateNodePtr → list (list PredicateNodePtr) → Prop).
Context (W_ended : ∀ n node chain,
  plan !! n = Some node → chain_compatible node = false → W n chain [chain]).
Context (W_branches : ∀ n node chain branches,
  plan !! n = Some node → chain_compatible node = true →
  1 < length (outputs node) →
  Forall2 (λ o r, W o (extend_chain stn n node chain) r) (outputs node) branches →
  W n chain (concat branches)).
Context (W_continues : ∀ n node chain consumer chains,
  plan !! n = Some node → chain_compatible node = true →
  outputs node = [consumer] →
  W consumer (extend_chain stn n node chain) chains → W n chain chains).
Context (W_no_consumer : ∀ n node chain,
  plan !! n = Some node → chain_compatible node = true →
  outputs node = [] → W n chain []).

Lemma visit_branches_induction recurse consumers chain acc acc' :
  (∀ o c r, recurse o c = Ok r → W o c r) →
  visit_branches recurse consumers chain acc = Ok acc' →
  ∃ branches,
    Forall2 (λ o r, W o chain r) consumers branches ∧
    acc' = acc ++ concat branches.
Proof.
  intros Hrec. revert acc.
  induction consumers as [|o consumers IH]; intros acc H; simpl in H.
  - injection H as <-. exists []. split; [constructor|].
    by rewrite app_nil_r.
  - apply bind_Ok in H as (r & Hr & H).
    apply IH in H as (branches & Hall & ->).
    exists (r :: branches). split; [constructor; eauto|].
    simpl. by rewrite app_assoc.
Qed.

Lemma visit_lqp_upwards_induction recurse fuel queue chain acc chain' acc' :
  (∀ o c r, recurse o c = Ok r → W o c r) →
  length queue ≤ 1 →
  visit_lqp_upwards fuel plan (chain_visitor recurse stn) queue (chain, acc)
  = Ok (chain', acc') →
  match queue with
  | [] => acc' = acc
  | n :: _ => ∃ chains, W n chain chains ∧ acc' = acc ++ chains
  end.
Proof.
  intros Hrec. revert queue chain acc.
  induction fuel as [|fuel IH]; intros queue chain acc Hlen H;
    destruct queue as [|n queue]; simpl in H; try done.
  { by injection H as _ <-. }
  { by injection H as _ <-. }
  assert (queue = []) as -> by (destruct queue; [done|simpl in Hlen; lia]).
  apply bind_Ok in H as (node & Hnode%deref_Ok & H).
  apply bind_Ok in H as ([[c1 acc1] visitation] & Hvisit & H).
  unfold chain_visitor in Hvisit.
  destruct (chain_compatible node) eqn:Hcompatible.
  - case_decide as Hfan.
    + apply bind_Ok in Hvisit as (acc2 & Hbranches & [= <- <- <-]).
      apply visit_branches_induction in Hbranches as (branches & Hall & ->);
        [|done].
      apply IH in H; [|simpl; lia]. subst acc'.
      exists (concat branches). split; [|done]. by eapply W_branches.
    + injection Hvisit as <- <- <-. simpl in H.
      destruct (outputs node) as [|o [|o' l]] eqn:Hout;
        [| |simpl in Hfan; lia].
      * apply IH in H; [|simpl; lia]. subst acc'. exists [].
        split; [by eapply W_no_consumer|by rewrite app_nil_r].
      * apply IH in H as (chains & Hwalk & ->); [|simpl; lia].
        exists chains. split; [|done]. by eapply W_continues.
  - injection Hvisit as <- <- <-. apply IH in H; [|simpl; lia]. subst acc'.
    exists [chain]. split; [|done]. by eapply W_ended.
Qed.

Lemma find_predicate_chains_recursively_induction fuel n chain chains :
  find_predicate_chains_recursively fuel plan stn n chain = Ok chains →
  W n chain chains.
Proof.
  revert n chain chains. induction fuel as [|fuel IH]; intros n chain chains H;
    simpl in H; [done|].
  apply bind_Ok in H as ([chain' acc'] & Hloop & [= <-]).
  apply (visit_lqp_upwards_induction _ fuel [n] chain [] chain' acc') in Hloop
    as (r & Hwalk & ->); [done|exact IH|simpl; lia].
Qed.
End chain_finder_induction.

Lemma elem_of_concat {A} (x : A) (ls : list (list A)) :
  x ∈ concat ls ↔ ∃ l, x ∈ l ∧ l ∈ ls.
Proof.
  induction ls as [|l ls IH]; simpl.
  - rewrite elem_of_nil. split; [done|]. intros (l & _ & Hl).
    by apply elem_of_nil in Hl.
  - rewrite elem_of_app, IH. split.
    + intros [?|(l' & ? & ?)]; [exists l|exists l']; split; try done;
        [by left|by right].
    + intros (l' & Hx & [->|?]%elem_of_cons); [by left|right; eauto].
Qed.

Lemma extend_chain_entry plan stn n node chain :
  plan !! n = Some node →
  ∃ suffix,
    extend_chain stn n node chain = chain ++ suffix ∧
    Forall (chain_entry_of plan stn) suffix.
Proof.
  intros Hn. unfold extend_chain.
  destruct (impl node) as [e| | | | | | |] eqn:Hi;
    try (exists []; split; [by rewrite app_nil_r|constructor]).
  destruct (predicate_matches_table stn e) eqn:He.
  - eexists. split; [done|]. constructor; [|constructor].
    exists node. by simpl.
  - exists []. split; [by rewrite app_nil_r|constructor].
Qed.

(** X6. Every chain the finder returns starts with the chain it was given
    and continues with pointers to predicate nodes of the plan only, each
    carrying the predicate of its node, a predicate that the column test
    accepts for the scan. *)
Theorem X6_chains_hold_matching_predicate_nodes fuel plan stn n chain chains :
  find_predicate_chains_recursively fuel plan stn n chain = Ok chains →
  ∀ found, found ∈ chains →
    ∃ suffix,
      found = chain ++ suffix ∧ Forall (chain_entry_of plan stn) suffix.
Proof.
  revert n chain chains.
  apply (find_predicate_chains_recursively_induction plan stn
           (λ n chain chains,
              ∀ found, found ∈ chains →
                ∃ suffix, found = chain ++ suffix ∧
                          Forall (chain_entry_of plan stn) suffix)).
  - intros n node chain _ _ found ->%list_elem_of_singleton.
    exists []. split; [by rewrite app_nil_r|constructor].
  - intros n node chain branches Hn _ _ Hall found Hfound.
    destruct (extend_chain_entry plan stn n node chain Hn) as (s0 & Hs0 & Hok0).
    apply elem_of_concat in Hfound as (r & Hfound & Hr).
    apply list_elem_of_lookup in Hr as (i & Hi).
    destruct (Forall2_lookup_r _ _ _ _ _ Hall Hi) as (o & _ & Ho).
    destruct (Ho found Hfound) as (s & -> & Hok).
    exists (s0 ++ s). split; [by rewrite Hs0, app_assoc|].
    by apply Forall_app.
  - intros n node chain consumer chains Hn _ _ IH found Hfound.
    destruct (extend_chain_entry plan stn n node chain Hn) as (s0 & Hs0 & Hok0).
    destruct (IH found Hfound) as (s & -> & Hok).
    exists (s0 ++ s). split; [by rewrite Hs0, app_assoc|].
    by apply Forall_app.
  - intros n node chain _ _ _ found Hfound. by apply elem_of_nil in Hfound.
Qed.

Lemma no_chain_without_end fuel plan stn n chain chains :
  (∀ m node, plan !! m = Some node → chain_compatible node = true) →
  find_predicate_chains_recursively fuel plan stn n chain = Ok chains →
  chains = [].
Proof.
  intros Hall. revert n chain chains.
  apply (find_predicate_chains_recursively_induction plan stn
           (λ _ _ chains, chains = [])).
  - intros n node chain Hn Hc. by rewrite (Hall n node Hn) in Hc.
  - intros n node chain branches _ _ _ Hbranches.
    induction Hbranches as [|o r outs rs -> _ IH]; [done|]. by simpl.
  - done.
  - done.
Qed.

Lemma prune_stored_table_nodes_no_chains env entries st :
  Forall (λ entry : positive * list (list PredicateNodePtr), entry.2 = []) entries →
  prune_stored_table_nodes env entries st = Ok st.
Proof.
  induction 1 as [|[id chains] entries Hnil _ IH]; simpl; [done|].
  simpl in Hnil. subst chains. simpl. exact IH.
Qed.

(** X7. On a plan in which every node is of a chain-compatible kind, so
    that no node ends a walk, the finder emits no chain, and an application
    of the rule that returns leaves plan and rule object exactly as they
    were: no chunk is pruned and no statistics are corrected, whatever
    predicates the plan holds. *)
Theorem X7_no_pruning_without_a_chain_end env fuel leafs st st' :
  (∀ n node, lqp st !! n = Some node → chain_compatible node = true) →
  _apply_to_plan_without_subqueries env fuel leafs st = Ok st' →
  st' = st ∧
  ∀ stn n chain chains,
    find_predicate_chains_recursively fuel (lqp st) stn n chain = Ok chains →
    chains = [].
Proof.
  intros Hall H. split.
  - unfold _apply_to_plan_without_subqueries in H.
    apply bind_Ok in H as (entries & Hentries & H).
    apply collect_predicate_chains_entries in Hentries as [_ Hfind].
    rewrite prune_stored_table_nodes_no_chains in H; [by injection H|].
    apply Forall_forall. intros [n chains] Hin. simpl.
    eapply no_chain_without_end; [exact Hall|]. by apply Hfind.
  - intros stn n chain chains. by apply no_chain_without_end.
Qed.

(** X8. A predicate that the column test accepts for two different scans
    has no column reference at all; a predicate without column references is
    accepted for every scan. So only such predicates can enter the chains,
    and share a memo entry, of two scans. *)
Theorem X8_predicate_shared_by_two_scans_has_no_column e :
  (∀ stn1 stn2,
     stn1 ≠ stn2 →
     predicate_matches_table stn1 e = true →
     predicate_matches_table stn2 e = true →
     column_references e = []) ∧
  (column_references e = [] → ∀ stn, predicate_matches_table stn e = true).
Proof.
  split.
  - intros stn1 stn2 Hne H1%predicate_matches_table_spec
      H2%predicate_matches_table_spec.
    unfold resolves_to_scan in *.
    destruct (column_references e) as [|o l]; [done|].
    apply Forall_cons in H1 as [-> _]. apply Forall_cons in H2 as [[= ->] _].
    done.
  - intros Hnil stn. apply predicate_matches_table_spec.
    unfold resolves_to_scan. rewrite Hnil. constructor.
Qed.

(** ** More on the chain intersector *)

(** X9. The final set does not depend on the order of the chains, and
    chains added to a non-empty collection can only take chunks away. *)
Theorem X9_intersection_ignores_order (sets1 sets2 more : list (gset nat)) :
  sets1 ≡ₚ sets2 →
  intersect_chunk_ids sets1 = intersect_chunk_ids sets2 ∧
  (sets1 ≠ [] →
   intersect_chunk_ids (sets1 ++ more) ⊆ intersect_chunk_ids sets1).
Proof.
  intros Hperm. split.
  - apply set_eq. intros c. rewrite !elem_of_intersect_chunk_ids.
    rewrite !Forall_forall.
    assert (sets1 = [] ↔ sets2 = []) as Hnil.
    { split; intros ->;
        [by apply Permutation_nil_l in Hperm
        |by apply Permutation_nil_r in Hperm]. }
    split; intros [Hne Hall]; (split; [tauto|]); intros A HA; apply Hall.
    + by rewrite Hperm.
    + by rewrite <- Hperm.
  - intros Hne c. rewrite !elem_of_intersect_chunk_ids, Forall_app.
    tauto.
Qed.

(** ** More on the statistics corrector *)

Lemma prune_columns_length first columns op n scale new :
  prune_columns first columns op n scale = Ok new →
  length new = length columns.
Proof.
  revert first new. induction columns as [|column columns IH];
    intros first new H; simpl in H.
  - by injection H as <-.
  - apply bind_Ok in H as (c & _ & H).
    apply bind_Ok in H as (rest & Hrest & [= <-]). simpl.
    f_equal. by eapply IH.
Qed.

Lemma prune_columns_beyond first columns op n scale :
  first + length columns ≤ column_id op →
  prune_columns first columns op n scale = Ok (scaled scale <$> columns).
Proof.
  revert first. induction columns as [|column columns IH]; intros first Hle;
    simpl in *; [done|].
  rewrite decide_False by lia. simpl. rewrite IH by lia. done.
Qed.

Lemma prune_columns_bad_get first columns op n scale :
  first ≤ column_id op < first + length columns →
  is_variant (value op) = false →
  prune_columns first columns op n scale = Fault (FatalError "boost::bad_get").
Proof.
  revert first. induction columns as [|column columns IH]; intros first Hin Hv;
    simpl in *; [lia|].
  destruct (decide (first = column_id op)) as [He|Hne].
  - by destruct (value op).
  - simpl. rewrite IH by (done || lia). done.
Qed.

(** X10. The statistics corrector keeps the number of columns and sets the
    row count to the old one minus the pruned rows whenever it returns. When
    the tuple's column identifier is not a column of the statistics, every
    column is scaled, none is pruned, and the tuple's values are not looked
    at; when it is a column of the statistics and the tuple's value is not a
    plain variant, the corrector ends in the exception of [boost::get]. *)
Theorem X10_statistics_corrector_edges old op n :
  let scale :=
    float_sub float_one (float_div (float_of_nat n) (row_count old)) in
  (∀ new, _prune_table_statistics old op n = Ok new →
     length (column_statistics new) = length (column_statistics old) ∧
     row_count new = float_sub (row_count old) (float_of_nat n)) ∧
  (length (column_statistics old) ≤ column_id op →
     _prune_table_statistics old op n =
     Ok {| column_statistics := scaled scale <$> column_statistics old;
           row_count := float_sub (row_count old) (float_of_nat n) |}) ∧
  (column_id op < length (column_statistics old) →
     is_variant (value op) = false →
     _prune_table_statistics old op n = Fault (FatalError "boost::bad_get")).
Proof.
  intros scale. unfold _prune_table_statistics. fold scale. split; [|split].
  - intros new H. apply bind_Ok in H as (columns & Hcolumns & [= <-]). simpl.
    split; [|done]. by eapply prune_columns_length.
  - intros Hle. by rewrite prune_columns_beyond.
  - intros Hlt Hv. rewrite prune_columns_bad_get; [done| |done]. lia.
Qed.

(** ** Scans without applicable predicates *)

Lemma compute_pruned_chunk_id_sets_empty_chains env table chains node r :
  Forall (λ chain : list PredicateNodePtr, chain = []) chains →
  compute_pruned_chunk_id_sets env table chains node r
  = Ok (replicate (length chains) ∅, node, r).
Proof.
  induction 1 as [|chain chains -> _ IH]; simpl; [done|].
  unfold _compute_exclude_list. simpl. by rewrite IH.
Qed.

(** X11. A scan all of whose chains are empty (no predicate above it
    applies to it) comes out of step (3) exactly as it went in, statistics
    override included, and so does the rule object, provided its table is
    known to the storage manager; when the table is not known and there is a
    chain, even an empty one, the step ends in the failure of [get_table]. *)
Theorem X11_empty_chains_change_nothing env id chains st node :
  stored_table st id = Some node →
  Forall (λ chain : list PredicateNodePtr, chain = []) chains →
  (∀ table, get_table env (table_name node) = Ok table →
     prune_stored_table_node env id chains st = Ok st) ∧
  (chains ≠ [] → storage_manager env !! table_name node = None →
     prune_stored_table_node env id chains st
     = Fault (FatalError "No such table")).
Proof.
  intros Hnode Hempty.
  apply stored_table_deref in Hnode as (current & Hd & Hi).
  split.
  - intros table Htable. destruct (decide (chains = [])) as [->|Hne]; [done|].
    assert (prune_stored_table_node env id chains st
            = set_pruned_chunks env id chains st) as -> by by destruct chains.
    unfold set_pruned_chunks. rewrite Hd. cbn [bind]. rewrite Hi, Htable.
    cbn [bind]. rewrite compute_pruned_chunk_id_sets_empty_chains by done.
    cbn [bind].
    assert (intersect_chunk_ids (replicate (length chains) (∅ : gset nat)) = ∅)
      as Hfinal.
    { destruct (length chains); simpl; [done|]. by rewrite decide_True. }
    rewrite decide_True by done.
    destruct st as [plan r]. simpl in *. f_equal. f_equal.
    unfold store_node. apply deref_Ok in Hd. apply insert_id.
    rewrite Hd. f_equal. destruct current as [i o]. simpl in *. by subst.
  - intros Hne Hmissing. destruct chains as [|chain chains]; [done|].
    unfold prune_stored_table_node, set_pruned_chunks, get_table.
    rewrite Hd. simpl. by rewrite Hi, Hmissing.
Qed.

(** * Numbers in the lines of a status file *)

Section int_from_string.
Import MetaSystemUtilizationTable.

Lemma scan_until_break stop pre c rest index :
  Forall (λ x, stop x = false) pre → stop c = true →
  scan_until stop (pre ++ c :: rest) index = (index + length pre, true).
Proof.
  intros Hpre Hc. revert index.
  induction Hpre as [|x pre Hx _ IH]; intros index; simpl.
  - rewrite Hc. f_equal. lia.
  - rewrite Hx, IH. f_equal. lia.
Qed.

Lemma scan_until_end stop s index :
  Forall (λ x, stop x = false) s →
  scan_until stop s index = (index + length s, false).
Proof.
  intros Hs. revert index.
  induction Hs as [|x s Hx _ IH]; intros index; simpl.
  - f_equal. lia.
  - rewrite Hx, IH. f_equal. lia.
Qed.

Lemma isdigit_not_space c : isdigit c = true → isspace c = false.
Proof.
  unfold isdigit, isspace. intros [H1 H2]%andb_true_iff.
  apply Nat.leb_le in H1, H2.
  apply orb_false_iff. split.
  - apply Nat.eqb_neq. lia.
  - apply andb_false_iff. right. apply Nat.leb_gt. lia.
Qed.

Lemma isdigit_not_sign c :
  isdigit c = true →
  (nat_of_ascii c =? 45) = false ∧ (nat_of_ascii c =? 43) = false.
Proof.
  unfold isdigit. intros [H1 H2]%andb_true_iff. apply Nat.leb_le in H1, H2.
  split; apply Nat.eqb_neq; lia.
Qed.

Lemma digit_value_range c : isdigit c = true → (0 ≤ digit_value c ≤ 9)%Z.
Proof.
  unfold isdigit, digit_value. intros [H1 H2]%andb_true_iff.
  apply Nat.leb_le in H1, H2. lia.
Qed.

Lemma foldl_decimal_nonneg digits acc :
  (0 ≤ acc)%Z → Forall (λ c, isdigit c = true) digits →
  (0 ≤ foldl (λ acc c, 10 * acc + digit_value c) acc digits)%Z.
Proof.
  revert acc. induction digits as [|c digits IH]; intros acc Hacc Hd; simpl;
    [done|].
  apply Forall_cons in Hd as [Hc Hd]. apply IH; [|done].
  pose proof (digit_value_range c Hc). lia.
Qed.

Lemma take_while_all p s : Forall (λ c, p c = true) (take_while p s).
Proof.
  induction s as [|c s IH]; simpl; [constructor|].
  destruct (p c) eqn:Hc; constructor; done.
Qed.

Lemma take_while_prefix p digits rest :
  Forall (λ c, p c = true) digits →
  match rest with [] => True | c :: _ => p c = false end →
  take_while p (digits ++ rest) = digits.
Proof.
  intros Hd Hrest. induction Hd as [|d digits Hd _ IH]; simpl.
  - destruct rest as [|c rest]; [done|]. simpl. by rewrite Hrest.
  - by rewrite Hd, IH.
Qed.

Lemma take_while_none p s :
  Forall (λ c, p c = false) s → take_while p s = [].
Proof. intros [|c s' Hc _]; simpl; [done|]. by rewrite Hc. Qed.

Lemma drop_while_Forall (P : ascii → Prop) p s :
  Forall P s → Forall P (drop_while p s).
Proof.
  induction 1 as [|c s Hc Hs IH]; simpl; [constructor|].
  destruct (p c); [done|by constructor].
Qed.

(** [stol] on a run of digits. *)
Lemma stol_digits digits :
  digits ≠ [] → Forall (λ c, isdigit c = true) digits →
  stol digits =
  if decide (decimal digits < 2 ^ 63)%Z then Ok (decimal digits)
  else Fault (FatalError "std::out_of_range").
Proof.
  intros Hne Hd. unfold stol.
  destruct digits as [|d digits]; [done|].
  apply Forall_cons in Hd as [Hd0 Hd]. simpl drop_while.
  rewrite (isdigit_not_space d Hd0).
  destruct (isdigit_not_sign d Hd0) as [-> ->].
  rewrite <- (app_nil_r (d :: digits)) at 1.
  rewrite take_while_prefix by (by constructor).
  pose proof (foldl_decimal_nonneg (d :: digits) 0 (Z.le_refl _)
                ltac:(by constructor)) as Hpos.
  fold (decimal (d :: digits)) in Hpos.
  repeat case_decide; try done; lia.
Qed.

(** [stol] on a string without digits, and on the empty string. *)
Lemma stol_no_digit s :
  Forall (λ c, isdigit c = false) s →
  stol s = Fault (FatalError "std::invalid_argument").
Proof.
  intros Hs. unfold stol.
  pose proof (drop_while_Forall _ isspace s Hs) as Hs'.
  destruct (drop_while isspace s) as [|c rest]; [done|].
  apply Forall_cons in Hs' as [Hc Hrest].
  repeat case_match; simplify_eq; try done;
    match goal with
    | H : take_while isdigit ?l = _ :: _ |- _ =>
        rewrite take_while_none in H; [done|]
    end; by try constructor.
Qed.

(** [stol] on a string that starts with a digit never returns a negative
    number. *)
Lemma stol_after_digit d s v :
  isdigit d = true → stol (d :: s) = Ok v → (0 ≤ v < 2 ^ 63)%Z.
Proof.
  intros Hd. unfold stol. simpl drop_while.
  rewrite (isdigit_not_space d Hd).
  destruct (isdigit_not_sign d Hd) as [-> ->].
  pose proof (take_while_all isdigit (d :: s)) as Hall.
  destruct (take_while isdigit (d :: s)) as [|x digits] eqn:Htake; [done|].
  pose proof (foldl_decimal_nonneg (x :: digits) 0 (Z.le_refl _) Hall) as Hpos.
  fold (decimal (x :: digits)) in Hpos.
  case_decide; [|done]. intros [= <-]. lia.
Qed.

Lemma size_t_sub_small (x y : Z) :
  (0 ≤ y ≤ x)%Z → (x < 2 ^ 64)%Z → size_t_sub x y = (x - y)%Z.
Proof. intros Hy Hx. unfold size_t_sub. apply Z.mod_small. lia. Qed.
End int_from_string.

Section int_from_string_results.
Import MetaSystemUtilizationTable.

Lemma scan_until_inv stop s index j found :
  scan_until stop s index = (j, found) →
  if found
  then ∃ pre c rest, s = pre ++ c :: rest ∧ Forall (λ x, stop x = false) pre ∧
         stop c = true ∧ j = index + length pre
  else Forall (λ x, stop x = false) s ∧ j = index + length s.
Proof.
  revert index. induction s as [|c s IH]; intros index; simpl.
  - intros [= <- <-]. split; [constructor|lia].
  - destruct (stop c) eqn:Hc.
    + intros [= <- <-]. exists [], c, s. repeat split; [constructor|done|].
      simpl. lia.
    + intros Hscan. specialize (IH _ Hscan). destruct found.
      * destruct IH as (pre & c' & rest & -> & Hpre & Hc' & ->).
        exists (c :: pre), c', rest. repeat split; [by constructor|done|].
        simpl. lia.
      * destruct IH as [Hs ->]. split; [by constructor|lia].
Qed.

Lemma int_from_string_no_digit s :
  Forall (λ c, isdigit c = false) s →
  _int_from_string s = Fault (FatalError "std::invalid_argument").
Proof.
  intros Hs. unfold _int_from_string.
  rewrite (scan_until_end isdigit s 0 Hs). cbn [Nat.add].
  rewrite drop_all. cbn [scan_until].
  unfold substr. rewrite decide_False by lia. cbn [bind].
  apply stol_no_digit. rewrite drop_0. by apply Forall_take.
Qed.

Lemma negb_isdigit_false digits :
  Forall (λ c, isdigit c = true) digits →
  Forall (λ c, negb (isdigit c) = false) digits.
Proof. intros H. eapply Forall_impl; [done|]. by intros c ->. Qed.

(** X12. A line that holds a run of digits followed by some other character
    is read as the number of its first such run: the characters before the
    run and after it are ignored. *)
Theorem X12_int_from_string_reads_the_first_number pre digits c rest :
  Forall (λ x, isdigit x = false) pre →
  digits ≠ [] →
  Forall (λ x, isdigit x = true) digits →
  isdigit c = false →
  (decimal digits < 2 ^ 63)%Z →
  (Z.of_nat (length (pre ++ digits ++ c :: rest)) < 2 ^ 64)%Z →
  _int_from_string (pre ++ digits ++ c :: rest) = Ok (decimal digits).
Proof.
  intros Hpre Hne Hdigits Hc Hfits Hlen. unfold _int_from_string.
  destruct digits as [|d digits']; [done|].
  pose proof Hdigits as [Hd _]%Forall_cons.
  rewrite <- (app_comm_cons digits') at 1.
  rewrite (scan_until_break isdigit pre d _ 0 Hpre Hd). cbn [Nat.add].
  rewrite drop_app_length.
  rewrite (scan_until_break (λ x, negb (isdigit x)) (d :: digits') c rest
             (length pre)) by (by rewrite ?Hc; try apply negb_isdigit_false).
  rewrite !length_app in Hlen. simpl in Hlen.
  rewrite size_t_sub_small by (simpl; lia).
  unfold substr. rewrite decide_False by (rewrite !length_app; simpl; lia).
  cbn [bind]. rewrite drop_app_length.
  replace (Z.to_nat _) with (length (d :: digits'))
    by (rewrite !length_app; simpl; lia).
  rewrite take_app_length.
  rewrite stol_digits by done. by rewrite decide_True.
Qed.

(** X13. A string without a digit, the empty string among them, makes
    [_int_from_string] throw [std::invalid_argument]. *)
Theorem X13_int_from_string_needs_a_digit s :
  Forall (λ c, isdigit c = false) s →
  _int_from_string s = Fault (FatalError "std::invalid_argument").
Proof. apply int_from_string_no_digit. Qed.

(** X14. When the first run of digits reaches the end of the string its last
    digit is not read: [end] keeps its initial value [length - 1], which is
    the index of that digit. A run of a single digit leaves nothing to
    convert. *)
Theorem X14_int_from_string_drops_a_final_digit pre digits d :
  Forall (λ x, isdigit x = false) pre →
  Forall (λ x, isdigit x = true) (digits ++ [d]) →
  (Z.of_nat (length (pre ++ digits ++ [d])) < 2 ^ 64)%Z →
  _int_from_string (pre ++ digits ++ [d]) =
  match digits with
  | [] => Fault (FatalError "std::invalid_argument")
  | _ :: _ =>
      if decide (decimal digits < 2 ^ 63)%Z then Ok (decimal digits)
      else Fault (FatalError "std::out_of_range")
  end.
Proof.
  intros Hpre Hdigits Hlen. unfold _int_from_string.
  pose proof Hdigits as [Hds [Hd _]%Forall_cons]%Forall_app.
  assert (∃ d0 tail, digits ++ [d] = d0 :: tail ∧ isdigit d0 = true)
    as (d0 & tail & Htail & Hd0).
  { destruct digits as [|d0 digits']; simpl; [by eauto|].
    apply Forall_cons in Hds as [? _]. by eauto. }
  rewrite Htail at 1.
  rewrite (scan_until_break isdigit pre d0 _ 0 Hpre Hd0). cbn [Nat.add].
  rewrite drop_app_length.
  rewrite (scan_until_end (λ x, negb (isdigit x)) (digits ++ [d]) (length pre))
    by by apply negb_isdigit_false.
  rewrite !length_app in Hlen. simpl in Hlen.
  rewrite !length_app. cbn [length].
  rewrite (size_t_sub_small _ 1) by lia.
  rewrite size_t_sub_small by lia.
  unfold substr. rewrite decide_False by (rewrite !length_app; simpl; lia).
  cbn [bind]. rewrite drop_app_length.
  replace (Z.to_nat _) with (length digits)
    by (rewrite !length_app; simpl; lia).
  rewrite take_app_length.
  destruct digits as [|x digits']; [by apply stol_no_digit|].
  by rewrite stol_digits.
Qed.

(** X15. The number [_int_from_string] returns is never negative: a minus
    sign before the digits is not part of what is converted. *)
Theorem X15_int_from_string_is_never_negative s v :
  _int_from_string s = Ok v → (0 ≤ v < 2 ^ 63)%Z.
Proof.
  unfold _int_from_string.
  destruct (scan_until isdigit s 0) as [index found] eqn:Hscan.
  apply scan_until_inv in Hscan. destruct found.
  - destruct Hscan as (pre & d & rest & -> & Hpre & Hd & ->). cbn [Nat.add].
    destruct (scan_until _ _ _) as [index' found'].
    unfold substr. case_decide; [done|]. cbn [bind].
    rewrite drop_app_length.
    destruct (Z.to_nat _) as [|k]; simpl take.
    + by rewrite stol_no_digit by constructor.
    + by apply stol_after_digit.
  - destruct Hscan as [Hs ->]. intros Hv.
    pose proof (int_from_string_no_digit s Hs) as Hfault.
    unfold _int_from_string in Hfault.
    rewrite (scan_until_end isdigit s 0 Hs) in Hfault. cbn [Nat.add] in *.
    by rewrite Hfault in Hv.
Qed.

Lemma starts_with_VmSize_not_VmRSS line :
  starts_with "VmSize" line = true → starts_with "VmRSS" line = false.
Proof.
  unfold starts_with.
  change (String.length "VmSize") with 6. change (String.length "VmRSS") with 5.
  intros Hsize%bool_decide_eq_true.
  apply bool_decide_eq_false. intros Hrss.
  apply (f_equal (take 5)) in Hsize. rewrite take_take in Hsize.
  change (5 `min` 6) with 5 in Hsize. rewrite Hrss in Hsize.
  vm_compute in Hsize. discriminate Hsize.
Qed.

Lemma last_line_with_cons prefix line lines :
  last_line_with prefix (line :: lines) =
  match last_line_with prefix lines with
  | Some l => Some l
  | None => if starts_with prefix line then Some line else None
  end.
Proof.
  unfold last_line_with. rewrite filter_cons.
  case_decide as Hline; destruct (starts_with prefix line); try done.
  - rewrite last_cons. by case_match.
  - by case_match.
Qed.

(** What the loop over the status lines leaves in the two members, from any
    initial contents. *)
Lemma read_status_lines_spec lines m0 m :
  read_status_lines lines m0 = Ok m →
  match last_line_with "VmSize" lines with
  | Some line => ∃ v, _int_from_string line = Ok v ∧
                   virtual_memory m = Some (v * 1000)%Z
  | None => virtual_memory m = virtual_memory m0
  end ∧
  match last_line_with "VmRSS" lines with
  | Some line => ∃ v, _int_from_string line = Ok v ∧
                   physical_memory m = Some (v * 1000)%Z
  | None => physical_memory m = physical_memory m0
  end.
Proof.
  revert m0. induction lines as [|line lines IH]; intros m0.
  - intros [= <-]. done.
  - cbn [read_status_lines]. rewrite !last_line_with_cons.
    destruct (starts_with "VmSize" line) eqn:Hsize.
    + rewrite (starts_with_VmSize_not_VmRSS _ Hsize).
      destruct (_int_from_string line) as [v|] eqn:Hv; [|done]. cbn [bind].
      unfold times_1000. case_decide; [|done]. cbn [bind].
      intros [IH1 IH2]%IH. simpl in IH1, IH2. split.
      * destruct (last_line_with "VmSize" lines); [done|]. by eauto.
      * by destruct (last_line_with "VmRSS" lines).
    + destruct (starts_with "VmRSS" line) eqn:Hrss.
      * destruct (_int_from_string line) as [v|] eqn:Hv; [|done]. cbn [bind].
        unfold times_1000. case_decide; [|done]. cbn [bind].
        intros [IH1 IH2]%IH. simpl in IH1, IH2. split.
        -- by destruct (last_line_with "VmSize" lines).
        -- destruct (last_line_with "VmRSS" lines); [done|]. by eauto.
      * intros [IH1 IH2]%IH. split.
        -- by destruct (last_line_with "VmSize" lines).
        -- by destruct (last_line_with "VmRSS" lines).
Qed.

(** X16. The memory usage of the process, read from the lines of
    [/proc/self/status]: each member is a thousand times the number of the
    last line that starts with its key, [VmSize] for the virtual and [VmRSS]
    for the physical memory, and a member whose key starts no line is never
    assigned. *)
Theorem X16_process_memory_usage_reads_the_last_lines lines m :
  _get_process_memory_usage lines = Ok m →
  match last_line_with "VmSize" lines with
  | Some line => ∃ v, _int_from_string line = Ok v ∧
                   virtual_memory m = Some (v * 1000)%Z
  | None => virtual_memory m = None
  end ∧
  match last_line_with "VmRSS" lines with
  | Some line => ∃ v, _int_from_string line = Ok v ∧
                   physical_memory m = Some (v * 1000)%Z
  | None => physical_memory m = None
  end.
Proof. intros Hm. by apply read_status_lines_spec in Hm. Qed.

(** X17. Lines that start with neither key are never converted: whatever
    they hold, reading them does not fail and assigns neither member. *)
Theorem X17_process_memory_usage_converts_keyed_lines_only lines :
  Forall (λ line, starts_with "VmSize" line = false ∧
                  starts_with "VmRSS" line = false) lines →
  _get_process_memory_usage lines =
  Ok {| virtual_memory := None; physical_memory := None |}.
Proof.
  unfold _get_process_memory_usage.
  generalize {| virtual_memory := None; physical_memory := None |}.
  intros m0. induction 1 as [|line lines [Hsize Hrss] _ IH];
    cbn [read_status_lines]; [done|].
  by rewrite Hsize, Hrss.
Qed.
End int_from_string_results.

(** * The cache with random eviction *)

Section random_cache.
Import RandomCache.
Context {Key : Type} `{Countable Key} {Value : Type}.
Implicit Types (c : RandomCache Key Value) (key : Key) (value : Value).

Lemma consistent_position c key index index' value value' :
  consistent c →
  _list c !! index = Some (key, value) →
  _list c !! index' = Some (key, value') →
  index = index'.
Proof.
  intros Hc H1 H2.
  assert (_map c !! key = Some index) as Hi by (apply Hc; eauto).
  assert (_map c !! key = Some index') as Hi' by (apply Hc; eauto).
  congruence.
Qed.

Lemma consistent_absent c key index value :
  consistent c → _map c !! key = None →
  _list c !! index = Some (key, value) → False.
Proof.
  intros Hc Hnone Hl.
  assert (_map c !! key = Some index) as Hi by (apply Hc; eauto).
  congruence.
Qed.

(** The three branches of [set] keep the invariant. *)
Lemma set_consistent key value random c evicted c' :
  consistent c →
  set key value random c = Ok (evicted, c') →
  consistent c'.
Proof.
  intros Hc. unfold set.
  destruct (_map c !! key) as [index|] eqn:Hkey.
  - destruct (_list c !! index) as [[k old]|] eqn:Hindex; [|done].
    intros [= <- <-]. intros key' index'. simpl.
    assert (k = key) as ->.
    { apply Hc in Hkey as [v Hv]. congruence. }
    rewrite (Hc key' index').
    destruct (decide (index' = index)) as [->|Hne].
    + rewrite list_lookup_insert_eq by (by eapply lookup_lt_Some).
      rewrite Hindex. split; intros [v [= <-]]; eauto.
    + by rewrite list_lookup_insert_ne.
  - case_decide as Hfull.
    + destruct (_list c !! random) as [[old_key old]|] eqn:Hrandom; [|done].
      intros [= <- <-]. intros key' index'. simpl.
      destruct (decide (key' = key)) as [->|Hkey'].
      * rewrite lookup_insert_eq. split.
        -- intros [= <-]. exists value.
           by rewrite list_lookup_insert_eq by (by eapply lookup_lt_Some).
        -- intros [v Hv]. f_equal.
           destruct (decide (index' = random)) as [->|Hne]; [done|].
           rewrite list_lookup_insert_ne in Hv by done.
           by destruct (consistent_absent c key index' v).
      * rewrite lookup_insert_ne by done.
        destruct (decide (index' = random)) as [->|Hne].
        -- rewrite list_lookup_insert_eq by (by eapply lookup_lt_Some).
           split; [|by intros [v [= ]]].
           intros [Hold Hmap]%lookup_delete_Some.
           apply Hc in Hmap as [v Hv]. congruence.
        -- rewrite list_lookup_insert_ne by done.
           rewrite <- (Hc key' index'). rewrite lookup_delete_Some.
           split; [by intros [_ ?]|]. intros Hmap. split; [|done].
           intros <-. apply Hc in Hmap as [v Hv].
           by pose proof (consistent_position c _ _ _ _ _ Hc Hrandom Hv).
    + intros [= <- <-]. intros key' index'. simpl.
      destruct (decide (key' = key)) as [->|Hkey'].
      * rewrite lookup_insert_eq. split.
        -- intros [= <-]. exists value. by rewrite lookup_app_r, Nat.sub_diag.
        -- intros [v Hv]. f_equal.
           apply lookup_app_Some in Hv as [Hv|[Hlen Hv]].
           ++ by destruct (consistent_absent c key index' v).
           ++ destruct (index' - length (_list c)) eqn:Hsub; [lia|done].
      * rewrite lookup_insert_ne by done. rewrite (Hc key' index').
        split; intros [v Hv]; exists v.
        -- by apply lookup_app_l_Some.
        -- apply lookup_app_Some in Hv as [Hv|[Hlen Hv]]; [done|].
           destruct (index' - length (_list c)); simpl in Hv; simplify_eq.
Qed.

(** With the invariant and a draw in the range of the distribution, [set]
    reaches no unchecked access. *)
Lemma set_defined key value random c :
  consistent c → random < _capacity c →
  ∃ evicted c', set key value random c = Ok (evicted, c').
Proof.
  intros Hc Hrandom. unfold set.
  destruct (_map c !! key) as [index|] eqn:Hkey.
  - apply Hc in Hkey as [v ->]. by eauto.
  - case_decide as Hfull; [|by eauto].
    destruct (lookup_lt_is_Some_2 (_list c) random) as [[k v] ->]; [lia|].
    by eauto.
Qed.

Lemma set_capacity key value random c evicted c' :
  set key value random c = Ok (evicted, c') → _capacity c' = _capacity c.
Proof.
  unfold set. repeat case_match; try done; by intros [= <- <-].
Qed.


Lemma size_is_length c : consistent c → size c = length (_list c).
Proof.
  intros Hc. unfold size. rewrite <- (length_map_to_list (_map c)).
  rewrite <- (length_imap (λ index entry, (entry.1, index)) (_list c)).
  apply Permutation_length, NoDup_Permutation.
  - apply NoDup_map_to_list.
  - apply NoDup_alt. intros i j [key index].
    rewrite !list_lookup_imap.
    destruct (_list c !! i) as [e1|]; [|done].
    destruct (_list c !! j) as [e2|]; [|done]. simpl. congruence.
  - intros [key index]. rewrite elem_of_map_to_list, (Hc key index).
    rewrite elem_of_lookup_imap. split.
    + intros [v Hv]. exists index, (key, v). done.
    + intros (i & [k v] & [= <- <-] & Hl). eauto.
Qed.

Lemma set_bound key value random c evicted c' :
  set key value random c = Ok (evicted, c') →
  length (_list c) ≤ _capacity c →
  length (_list c') ≤ _capacity c'.
Proof.
  unfold set. repeat case_match; try done;
    intros [= <- <-]; simpl; rewrite ?length_insert, ?length_app; simpl; lia.
Qed.

Lemma set_cached key value random c evicted c' key' :
  set key value random c = Ok (evicted, c') →
  is_Some (_map c' !! key') → key' = key ∨ is_Some (_map c !! key').
Proof.
  intros Hset Hsome.
  destruct (decide (key' = key)) as [->|Hne]; [by left|]. right.
  revert Hset Hsome. unfold set. repeat case_match; try done;
    intros [= <- <-]; simpl; try done.
  - rewrite lookup_insert_ne by done. intros [i [_ Hi]%lookup_delete_Some].
    by eauto.
  - by rewrite lookup_insert_ne.
Qed.

Lemma has_true c key : has key c = true ↔ is_Some (_map c !! key).
Proof. unfold has. apply bool_decide_eq_true. Qed.

End random_cache.

Section random_cache_results.
Import RandomCache.
Context {Key : Type} `{Countable Key} {Value : Type}.
Implicit Types (c : RandomCache Key Value) (key : Key) (value : Value).

(** X18. A cache that satisfies the class invariant and holds no more
    entries than its capacity stays so under [set], which succeeds for every
    draw of the distribution and keeps the capacity. *)
Theorem X18_set_keeps_the_cache_well_formed key value random c :
  consistent c →
  length (_list c) ≤ _capacity c →
  random < _capacity c →
  ∃ evicted c',
    set key value random c = Ok (evicted, c') ∧
    consistent c' ∧
    length (_list c') ≤ _capacity c' ∧
    _capacity c' = _capacity c.
Proof.
  intros Hc Hbound Hrandom.
  destruct (set_defined key value random c Hc Hrandom) as (evicted & c' & Hset).
  exists evicted, c'. split; [done|].
  split; [by eapply set_consistent|].
  split; [by eapply set_bound|]. by eapply set_capacity.
Qed.


(** X20. [set] leaves every other key as it was, the evicted key apart. In
    any cache, such a key is cached afterwards exactly if it was before. In
    a cache that satisfies the class invariant, [get] also returns for it
    what it returned before. *)
Theorem X20_set_leaves_the_other_keys key value random c evicted c' key' :
  set key value random c = Ok (evicted, c') →
  key' ≠ key →
  evicted ≠ Some key' →
  has key' c' = has key' c ∧
  (consistent c → get key' c' = get key' c).
Proof.
  intros Hset Hkey' Hevicted. revert Hset. unfold set, has, get.
  destruct (_map c !! key) as [index|] eqn:Hkey.
  - destruct (_list c !! index) as [[k old]|] eqn:Hindex; [|done].
    intros [= <- <-]. simpl. split; [done|]. intros Hc.
    destruct (_map c !! key') as [index'|] eqn:Hmap'; [|done].
    rewrite list_lookup_insert_ne; [done|]. intros ->.
    apply Hc in Hkey as [v Hv], Hmap' as [v' Hv']. congruence.
  - case_decide as Hfull.
    + destruct (_list c !! random) as [[old_key old]|] eqn:Hrandom; [|done].
      intros [= <- <-]. simpl.
      assert (old_key ≠ key') as Hold by congruence.
      rewrite lookup_insert_ne, lookup_delete_ne by done. split; [done|].
      intros Hc.
      destruct (_map c !! key') as [index'|] eqn:Hmap'; [|done].
      rewrite list_lookup_insert_ne; [done|]. intros <-.
      apply Hc in Hmap' as [v' Hv']. congruence.
    + intros [= <- <-]. simpl. rewrite lookup_insert_ne by done.
      split; [done|]. intros Hc.
      destruct (_map c !! key') as [index'|] eqn:Hmap'; [|done].
      apply Hc in Hmap' as [v' Hv']. by rewrite (lookup_app_l_Some _ _ _ _ Hv'), Hv'.
Qed.

(** X28. Without the class invariant [get] is not kept: when [_map] holds
    for another key the position that [set] draws for an eviction, a stale
    position as a shrinking [resize] leaves them, that key stays cached and
    [get] returns for it the value that was set for the new key. *)
Theorem X28_set_overwrites_a_stale_position key value random c old_key c' key' :
  set key value random c = Ok (Some old_key, c') →
  key' ≠ key →
  key' ≠ old_key →
  _map c !! key' = Some random →
  has key' c' = true ∧ get key' c' = Ok value.
Proof.
  intros Hset Hkey' Hold Hstale. revert Hset. unfold set, get.
  destruct (_map c !! key) as [index|] eqn:Hkey.
  { by destruct (_list c !! index) as [[k old]|]. }
  case_decide as Hfull; [|done].
  destruct (_list c !! random) as [[k old]|] eqn:Hrandom; [|done].
  intros [= -> <-]. simpl.
  assert (<[key:=random]> (delete old_key (_map c)) !! key' = Some random)
    as Hmap' by (by rewrite lookup_insert_ne, lookup_delete_ne).
  split.
  - apply has_true. simpl. by eauto.
  - rewrite Hmap'.
    by rewrite list_lookup_insert_eq by (by eapply lookup_lt_Some).
Qed.



(** X23. [dump_cache] lists the cached keys, each of them once: its length
    is [size]. *)
Theorem X23_dump_cache_lists_the_cached_keys c :
  consistent c →
  NoDup (dump_cache c) ∧
  (∀ key, key ∈ dump_cache c ↔ has key c = true) ∧
  length (dump_cache c) = size c.
Proof.
  intros Hc. unfold dump_cache. split; [|split].
  - apply NoDup_alt. intros i j key. rewrite !list_lookup_fmap.
    destruct (_list c !! i) as [[k1 v1]|] eqn:H1; [|done].
    destruct (_list c !! j) as [[k2 v2]|] eqn:H2; [|done].
    simpl. intros [= ->] [= ->].
    by eapply consistent_position.
  - intros key. rewrite has_true, list_elem_of_fmap. split.
    + intros ([k v] & -> & [i Hi]%list_elem_of_lookup).
      exists i. apply Hc. by eauto.
    + intros [i [v Hv]%Hc]. exists (key, v). split; [done|].
      apply list_elem_of_lookup. by eauto.
  - by rewrite length_fmap, size_is_length.
Qed.

Lemma set_all_well_formed requests capacity c :
  Forall (λ request, request.2 < capacity) requests →
  _capacity c = capacity →
  consistent c →
  length (_list c) ≤ _capacity c →
  ∃ c',
    set_all requests c = Ok c' ∧
    consistent c' ∧
    length (_list c') ≤ _capacity c' ∧
    _capacity c' = _capacity c ∧
    ∀ key, is_Some (_map c' !! key) →
           key ∈ requests.*1.*1 ∨ is_Some (_map c !! key).
Proof.
  intros Hrequests. revert c.
  induction Hrequests as [|[[key value] random] requests Hrandom _ IH];
    intros c Hcapacity Hc Hbound.
  - exists c. split; [done|]. split; [done|]. split; [done|].
    split; [done|]. intros key Hkey. by right.
  - simpl in Hrandom. rewrite <- Hcapacity in Hrandom.
    destruct (set_defined key value random c Hc Hrandom)
      as (evicted & c1 & Hset).
    pose proof (set_capacity _ _ _ _ _ _ Hset) as Hcap.
    destruct (IH c1) as (c' & Hall & Hc' & Hbound' & Hcap' & Hkeys).
    + congruence.
    + by eapply set_consistent.
    + by eapply set_bound.
    + exists c'. cbn [set_all]. rewrite Hset. cbn [bind].
      split; [done|]. split; [done|]. split; [done|].
      split; [congruence|].
      intros key' [Hin|Hin]%Hkeys.
      * left. rewrite !fmap_cons. by right.
      * apply (set_cached _ _ _ _ _ _ _ Hset) in Hin as [->|Hin];
          [|by right]. left. rewrite !fmap_cons. by left.
Qed.

End random_cache_results.

Section random_cache_resize.
Import RandomCache.
Context {Key : Type} `{Countable Key} {Value : Type}.
Implicit Types (c : RandomCache Key Value) (key : Key) (value : Value).
Implicit Types (entries : list (Key * Value)).

Lemma thinned_short capacity entries :
  ¬ capacity < length entries → thinned capacity entries = entries.
Proof. destruct entries; simpl; [done|]. intros. by rewrite decide_False. Qed.

Lemma thinned_long capacity (e kept : Key * Value) entries :
  capacity < 2 + length entries →
  thinned capacity (e :: kept :: entries) = kept :: thinned capacity entries.
Proof. intros. cbn [thinned]. by rewrite decide_True. Qed.

Lemma thinned_last capacity (e : Key * Value) : capacity < 1 → thinned capacity [e] = [].
Proof. intros. cbn [thinned]. by case_decide. Qed.

Lemma erased_short capacity entries :
  ¬ capacity < length entries → erased capacity entries = [].
Proof.
  destruct entries as [|[k v] ?]; simpl; [done|]. intros.
  by rewrite decide_False.
Qed.

Lemma erased_long capacity key value (kept : Key * Value) entries :
  capacity < 2 + length entries →
  erased capacity ((key, value) :: kept :: entries)
  = key :: erased capacity entries.
Proof. intros. cbn [erased]. by rewrite decide_True. Qed.

Lemma erased_last capacity key value :
  capacity < 1 → erased capacity [(key, value)] = [key].
Proof. intros. cbn [erased]. by rewrite decide_True. Qed.

(** Induction over a list in steps of two. *)
Lemma list_pair_induction {A} (P : list A → Prop) :
  P [] → (∀ x, P [x]) → (∀ x y l, P l → P (x :: y :: l)) → ∀ l, P l.
Proof.
  intros Hnil Hone Hstep l.
  assert (P l ∧ ∀ x, P (x :: l)) as [? _]; [|done].
  induction l as [|y l [IH1 IH2]]; [done|]. split; [done|].
  intros x. by apply Hstep.
Qed.

Lemma length_thinned capacity entries :
  length (thinned capacity entries)
  = length entries - (length entries - capacity + 1) / 2.
Proof.
  induction entries as [|e|e kept entries IH] using list_pair_induction.
  - done.
  - cbn [thinned]. case_decide as Hlong; simpl in *.
    + replace capacity with 0 by lia. done.
    + destruct capacity as [|capacity]; [lia|].
      replace (1 - S capacity + 1) with 1 by lia. done.
  - destruct (decide (capacity < 2 + length entries)) as [Hlong|Hshort].
    + rewrite thinned_long by done. cbn [length]. rewrite IH.
      pose proof (Nat.div_mod_eq (length entries - capacity + 1) 2).
      pose proof (Nat.mod_upper_bound (length entries - capacity + 1) 2).
      pose proof (Nat.div_mod_eq (S (S (length entries)) - capacity + 1) 2).
      pose proof (Nat.mod_upper_bound (S (S (length entries)) - capacity + 1) 2).
      lia.
    + rewrite thinned_short by (simpl; lia). cbn [length].
      replace (S (S (length entries)) - capacity + 1) with 1 by lia.
      change (1 / 2) with 0. lia.
Qed.



(** The loop of [resize], from a position [length kept] on: the entries
    before it stay, those from it on are thinned. *)
Lemma resize_loop_spec fuel capacity kept entries (m : gmap Key nat) :
  length entries ≤ fuel →
  capacity ≤ length kept + length entries →
  (Z.of_nat (length kept + length entries) < 2 ^ 64)%Z →
  resize_loop fuel capacity (length kept) (kept ++ entries) m
  = Ok (kept ++ thinned capacity entries,
        foldl (λ m k, delete k m) m (erased capacity entries)).
Proof.
  revert kept entries m.
  induction fuel as [|fuel IH]; intros kept entries m Hfuel Hcap Hlen.
  - destruct entries; [|simpl in Hfuel; lia]. simpl.
    rewrite app_nil_r, size_t_sub_small by lia.
    by rewrite decide_False by lia.
  - cbn [resize_loop]. rewrite length_app, size_t_sub_small by lia.
    destruct (decide (capacity < length entries)) as [Hlong|Hshort].
    + rewrite decide_True by lia.
      destruct entries as [|[k v] entries]; [simpl in Hlong; lia|].
      rewrite list_lookup_middle by done. rewrite delete_middle.
      destruct entries as [|e entries].
      * simpl in Hlong. rewrite thinned_last, erased_last by lia.
        rewrite !app_nil_r. destruct fuel; cbn [resize_loop];
          rewrite size_t_sub_small by (simpl in *; lia);
          by rewrite decide_False by lia.
      * simpl in Hlong, Hfuel, Hcap, Hlen.
        rewrite thinned_long, erased_long by lia.
        rewrite (cons_middle e kept entries), app_assoc.
        replace (S (length kept)) with (length (kept ++ [e]))
          by (rewrite length_app; simpl; lia).
        rewrite IH by (rewrite ?length_app; simpl; lia).
        by rewrite <- app_assoc.
    + rewrite decide_False by lia.
      by rewrite thinned_short, erased_short.
Qed.

(** [resize] in closed form. *)
Lemma resize_spec capacity c :
  (Z.of_nat (length (_list c)) < 2 ^ 64)%Z →
  resize capacity c =
  Ok {| _capacity := capacity;
        _list := thinned capacity (_list c);
        _map := foldl (λ m k, delete k m) (_map c)
                  (erased capacity (_list c)) |}.
Proof.
  intros Hlen. unfold resize. case_decide as Hshrink.
  - rewrite (resize_loop_spec _ capacity [] (_list c)) by (simpl; lia). done.
  - by rewrite thinned_short, erased_short.
Qed.


(** X26. A shrinking [resize] erases only half of the entries that are too
    many, rounded up: the loop counts up while the length of [_list] comes
    down. A cache that is shrunk by two or more entries holds more entries
    than its capacity afterwards. *)
Theorem X26_resize_erases_half_of_the_excess capacity c c' :
  (Z.of_nat (length (_list c)) < 2 ^ 64)%Z →
  resize capacity c = Ok c' →
  length (_list c')
  = length (_list c) - (length (_list c) - capacity + 1) / 2 ∧
  (capacity + 2 ≤ length (_list c) → _capacity c' < length (_list c')).
Proof.
  intros Hlen. rewrite resize_spec by done. intros [= <-]. simpl.
  rewrite length_thinned. split; [done|]. intros Hexcess.
  pose proof (Nat.div_mod_eq (length (_list c) - capacity + 1) 2).
  pose proof (Nat.mod_upper_bound (length (_list c) - capacity + 1) 2).
  lia.
Qed.

End random_cache_resize.

(** ** The statements at concrete inputs *)

Import Example.


(** The memo after the evaluation of [a > 95] answers a second evaluation. *)
Lemma C4_witness :
  ∃ node1,
    evaluate_predicate_node (env DebugBuild) table_t (ptr 2 a_gt_95)
      scan_node fresh_rule
    = Ok (Some {[0; 1; 2; 3; 4; 5; 6; 7; 8]}, node1, rule_after_a_gt_95) ∧
    evaluate_predicate_node (env DebugBuild) table_t (ptr 2 a_gt_95)
      node1 rule_after_a_gt_95
    = Ok (Some {[0; 1; 2; 3; 4; 5; 6; 7; 8]}, node1, rule_after_a_gt_95).
Proof.
  eexists.
  assert (Hfirst : evaluate_predicate_node (env DebugBuild) table_t
                     (ptr 2 a_gt_95) scan_node fresh_rule
                   = Ok (Some {[0; 1; 2; 3; 4; 5; 6; 7; 8]}, _,
                         rule_after_a_gt_95))
    by (vm_compute; reflexivity).
  split; [exact Hfirst|].
  exact (proj1 C4_memoized_evaluation _ _ _ _ _ _ _ _ Hfirst table_t _
           rule_after_a_gt_95 (rule_step_refl rule_after_a_gt_95)).
Defined.

(** The plan whose scan has chunk 9 pruned already, in a production build. *)
Lemma C5_witness :
  collect_predicate_chains 5 (lqp (start (plan_one_predicate pruned_scan_node)))
    (collect_stored_table_nodes [1%positive])
  = Ok ([] ++ (1%positive, [ [ptr 2 a_gt_95] ]) :: []) ∧
  stored_table (start (plan_one_predicate pruned_scan_node)) 1%positive
  = Some pruned_scan_node ∧
  pruned_chunk_ids pruned_scan_node ≠ [] ∧
  intersect_chunk_ids
    (exclusion_sets_of (env ProductionBuild) pruned_scan_node
       [ [ptr 2 a_gt_95] ] (rule (start (plan_one_predicate pruned_scan_node))))
  ≠ ∅ ∧
  ∃ message,
    _apply_to_plan_without_subqueries (env ProductionBuild) 5 [1%positive]
      (start (plan_one_predicate pruned_scan_node))
    = Fault (FatalError message).
Proof.
  assert (H1 : collect_predicate_chains 5
                 (lqp (start (plan_one_predicate pruned_scan_node)))
                 (collect_stored_table_nodes [1%positive])
               = Ok ([] ++ (1%positive, [ [ptr 2 a_gt_95] ]) :: []))
    by (vm_compute; reflexivity).
  assert (H2 : prune_stored_table_nodes (env ProductionBuild) []
                 (start (plan_one_predicate pruned_scan_node))
               = Ok (start (plan_one_predicate pruned_scan_node)))
    by reflexivity.
  assert (H3 : stored_table (start (plan_one_predicate pruned_scan_node))
                 1%positive = Some pruned_scan_node)
    by reflexivity.
  assert (H4 : pruned_chunk_ids pruned_scan_node ≠ []) by discriminate.
  assert (H5 : intersect_chunk_ids
                 (exclusion_sets_of (env ProductionBuild) pruned_scan_node
                    [ [ptr 2 a_gt_95] ]
                    (rule (start (plan_one_predicate pruned_scan_node)))) ≠ ∅)
    by (vm_compute; discriminate).
  split; [exact H1|]. split; [exact H3|]. split; [exact H4|].
  split; [exact H5|].
  exact (proj2 (proj2 (C5_already_pruned_scan_is_fatal (env ProductionBuild) 5
                         [1%positive]
                         (start (plan_one_predicate pruned_scan_node))
                         [] 1%positive [ [ptr 2 a_gt_95] ] []
                         (start (plan_one_predicate pruned_scan_node))
                         pruned_scan_node H1 H2 H3 H4 H5))
           eq_refl).
Defined.

(** C6, the claim as stated. A rule object is applied to a plan and then
    to a second plan with the same node identities: the second application
    starts with the entry the first one left for node 2, performs no
    statistics scan, prunes the chunks of the stale entry and corrects no
    statistics. *)
Lemma C6_counterexample :
  ∃ st1 st2 node2,
    _apply_to_plan_without_subqueries (env DebugBuild) 5 [1%positive]
      {| lqp := plan_one_predicate scan_node; rule := fresh_rule |} = Ok st1 ∧
    _excluded_chunk_ids_by_predicate_node (rule st1) ≠ ∅ ∧
    _excluded_chunk_ids_by_predicate_node (rule st1) !! 2%positive
    = Some {[0; 1; 2; 3; 4; 5; 6; 7; 8]} ∧
    _apply_to_plan_without_subqueries (env DebugBuild) 5 [1%positive]
      {| lqp := plan_one_predicate scan_node; rule := rule st1 |} = Ok st2 ∧
    statistics_scans (rule st2) = statistics_scans (rule st1) ∧
    stored_table st2 1%positive = Some node2 ∧
    pruned_chunk_ids node2 = [0; 1; 2; 3; 4; 5; 6; 7; 8] ∧
    table_statistics node2 = None.
Proof.
  eexists _, _, _.
  split; [vm_compute; reflexivity|]. split; [vm_compute; discriminate|].
  split; [vm_compute; reflexivity|]. split; [vm_compute; reflexivity|].
  split; [vm_compute; reflexivity|]. split; [vm_compute; reflexivity|].
  split; reflexivity.
Qed.

(** The second of two applications of one rule object keeps the entry of
    the first. *)
Lemma C6_witness :
  _apply_to_plan_without_subqueries (env DebugBuild) 5 [1%positive] second_start
  = Ok second_end ∧
  _excluded_chunk_ids_by_predicate_node (rule second_start) !! 2%positive
  = Some {[0; 1; 2; 3; 4; 5; 6; 7; 8]} ∧
  _excluded_chunk_ids_by_predicate_node (rule second_end) !! 2%positive
  = Some {[0; 1; 2; 3; 4; 5; 6; 7; 8]}.
Proof.
  assert (Hrun : _apply_to_plan_without_subqueries (env DebugBuild) 5
                   [1%positive] second_start = Ok second_end)
    by (vm_compute; reflexivity).
  assert (Hentry : _excluded_chunk_ids_by_predicate_node (rule second_start)
                     !! 2%positive
                   = Some {[0; 1; 2; 3; 4; 5; 6; 7; 8]})
    by (vm_compute; reflexivity).
  split; [exact Hrun|]. split; [exact Hentry|].
  exact (lookup_weaken _ _ _ _ Hentry
           (C6_memo_persists_across_applications
              (env DebugBuild) 5 [1%positive] second_start second_end Hrun)).
Defined.

(** The tuple of [a > 95] removes the 90 rows of the chunks 0 to 8. *)
Lemma C7_witness :
  value a_gt_95_tuple = PV_Variant (IntValue 95) ∧
  value2 a_gt_95_tuple = PV_Variant <$> None ∧
  scan_chunks DebugBuild [] 0 GreaterThan (IntValue 95) None 0 (chunks table_t)
    0 ∅ = Ok (90, {[0; 1; 2; 3; 4; 5; 6; 7; 8]}) ∧
  ∃ node' new,
    scan_and_correct (env DebugBuild) table_t a_gt_95_tuple (IntValue 95) None
      ∅ scan_node = Ok ({[0; 1; 2; 3; 4; 5; 6; 7; 8]}, node') ∧
    table_statistics node' = Some new ∧
    row_count new = float_sub (float_of_nat 100) (float_of_nat 90).
Proof.
  assert (H1 : value a_gt_95_tuple = PV_Variant (IntValue 95)) by reflexivity.
  assert (H2 : value2 a_gt_95_tuple = PV_Variant <$> None) by reflexivity.
  assert (H3 : scan_chunks (build (env DebugBuild)) (pruned_chunk_ids scan_node)
                 (column_id a_gt_95_tuple) (predicate_condition a_gt_95_tuple)
                 (IntValue 95) None 0 (chunks table_t) 0 ∅
               = Ok (90, {[0; 1; 2; 3; 4; 5; 6; 7; 8]}))
    by (vm_compute; reflexivity).
  split; [exact H1|]. split; [exact H2|]. split; [exact H3|].
  destruct (C7_statistics_correction (env DebugBuild) table_t a_gt_95_tuple
              (IntValue 95) None (IntValue 95) None ∅ scan_node 90
              {[0; 1; 2; 3; 4; 5; 6; 7; 8]} H1 H2 H3)
    as (node' & Hrun & _ & _ & Hnew).
  destruct Hnew as (new & Hoverride & Hrows & _); [lia|].
  exists node', new. split; [exact Hrun|]. split; [exact Hoverride|].
  exact Hrows.
Defined.

(** The two-branch plan, measured by [height]. *)
Lemma C8_witness :
  acyclic (plan_two_branches a_gt_95 a_lt_5) height ∧
  is_Some (plan_two_branches a_gt_95 a_lt_5 !! 1%positive) ∧
  height 1%positive + 2 ≤ 4 ∧
  ∃ chains,
    find_predicate_chains_recursively 4 (plan_two_branches a_gt_95 a_lt_5)
      1%positive 1%positive [] = Ok chains ∧
    spec_walk (plan_two_branches a_gt_95 a_lt_5) 1%positive 1%positive [] chains ∧
    ∀ chains',
      spec_walk (plan_two_branches a_gt_95 a_lt_5) 1%positive 1%positive []
        chains' → chains' = chains.
Proof.
  assert (H1 : acyclic (plan_two_branches a_gt_95 a_lt_5) height).
  { refine (bool_decide_unpack _ _). vm_compute. exact I. }
  assert (H2 : is_Some (plan_two_branches a_gt_95 a_lt_5 !! 1%positive))
    by (vm_compute; eauto).
  assert (H3 : height 1%positive + 2 ≤ 4) by (vm_compute; lia).
  split; [exact H1|]. split; [exact H2|]. split; [exact H3|].
  exact (proj2 (proj2 (C8_chain_finder_walk (plan_two_branches a_gt_95 a_lt_5)
                         1%positive))
           height 1%positive [] 4 H1 H2 H3).
Defined.

(** The tuple of [a > 95.5] on the integer column [a]. *)
Lemma C9_witness :
  Forall (unusable_tuple (env DebugBuild) table_t) [a_gt_95_5_tuple] ∧
  prune_with_operator_predicate (env DebugBuild) table_t a_gt_95_5_tuple
    ∅ scan_node = Ok (∅, scan_node).
Proof.
  assert (H : Forall (unusable_tuple (env DebugBuild) table_t) [a_gt_95_5_tuple]).
  { constructor; [|constructor].
    apply (unusable_cast _ _ _ DT_Int); [reflexivity|]. left. reflexivity. }
  split; [exact H|].
  exact (proj1 (C9_unusable_tuple_is_skipped (env DebugBuild) table_t
                  [a_gt_95_5_tuple] H)
           a_gt_95_5_tuple ∅ scan_node (list_elem_of_here _ _)).
Defined.

(** The scan feeding [a < 15] and [a > 15]. *)
Lemma C10_witness :
  chains_of_branches a_lt_15 a_gt_15 ≠ [] ∧
  prune_stored_table_node (env DebugBuild) 1%positive
    (chains_of_branches a_lt_15 a_gt_15)
    (start (plan_two_branches a_lt_15 a_gt_15))
  = Ok (after_branches DebugBuild a_lt_15 a_gt_15) ∧
  ∃ node table sets node1 rule1,
    stored_table (start (plan_two_branches a_lt_15 a_gt_15)) 1%positive
    = Some node ∧
    get_table (env DebugBuild) (table_name node) = Ok table ∧
    compute_pruned_chunk_id_sets (env DebugBuild) table
      (chains_of_branches a_lt_15 a_gt_15) node
      (rule (start (plan_two_branches a_lt_15 a_gt_15)))
    = Ok (sets, node1, rule1) ∧
    (intersect_chunk_ids sets = ∅ →
       stored_table (after_branches DebugBuild a_lt_15 a_gt_15) 1%positive
       = Some node1 ∧
       pruned_chunk_ids node1 = pruned_chunk_ids node).
Proof.
  assert (H1 : chains_of_branches a_lt_15 a_gt_15 ≠ []) by discriminate.
  assert (H2 : prune_stored_table_node (env DebugBuild) 1%positive
                 (chains_of_branches a_lt_15 a_gt_15)
                 (start (plan_two_branches a_lt_15 a_gt_15))
               = Ok (after_branches DebugBuild a_lt_15 a_gt_15))
    by (vm_compute; reflexivity).
  split; [exact H1|]. split; [exact H2|].
  exact (proj1 C10_statistics_corrected_without_pruning
           (env DebugBuild) 1%positive (chains_of_branches a_lt_15 a_gt_15)
           (start (plan_two_branches a_lt_15 a_gt_15))
           (after_branches DebugBuild a_lt_15 a_gt_15) H1 H2).
Defined.

(** ** Further statements at concrete inputs *)

Import PlanExample.

(** The scan of [a > 95] over the ten chunks of the table. *)
Lemma X1_witness :
  scan_chunks DebugBuild [] 0 GreaterThan (IntValue 95) None 0 (chunks table_t)
    0 ∅ = Ok (90, chunks_0_to_8) ∧
  ∀ c, c ∈ chunks_0_to_8 → c ∈ (∅ : gset nat) ∨ c < length (chunks table_t).
Proof.
  assert (H : scan_chunks DebugBuild [] 0 GreaterThan (IntValue 95) None 0
                (chunks table_t) 0 ∅ = Ok (90, chunks_0_to_8))
    by (vm_compute; reflexivity).
  split; [exact H|].
  exact (proj1 (proj2 (X1_scan_excludes_contradicted_chunks
                         _ _ _ _ _ _ _ _ _ _ H))).
Defined.

(** The chain of [a > 95] alone. *)
Lemma X2_witness :
  ∃ node',
    _compute_exclude_list (env DebugBuild) table_t [ptr 2 a_gt_95] scan_node
      fresh_rule = Ok (chunks_0_to_8, node', rule_after_a_gt_95) ∧
    ∀ c, c ∈ chunks_0_to_8 →
      ∃ p Y, p ∈ [ptr 2 a_gt_95] ∧
             _excluded_chunk_ids_by_predicate_node rule_after_a_gt_95
               !! node_id p = Some Y ∧ c ∈ Y.
Proof.
  eexists.
  assert (H : _compute_exclude_list (env DebugBuild) table_t [ptr 2 a_gt_95]
                scan_node fresh_rule
              = Ok (chunks_0_to_8, _, rule_after_a_gt_95))
    by (vm_compute; reflexivity).
  split; [exact H|].
  exact (proj1 (X2_chain_exclusion_is_union_of_memo_entries
                  _ _ _ _ _ _ _ _ H)).
Defined.

(** Step (3) on the scan feeding [a > 95] and [a < 5], from an empty memo. *)
Lemma X3_witness :
  stored_table (start (plan_two_branches a_gt_95 a_lt_5)) 1%positive
  = Some scan_node ∧
  get_table (env DebugBuild) (table_name scan_node) = Ok table_t ∧
  memo_bounded (length (chunks table_t))
    (rule (start (plan_two_branches a_gt_95 a_lt_5))) ∧
  prune_stored_table_node (env DebugBuild) 1%positive
    (chains_of_branches a_gt_95 a_lt_5)
    (start (plan_two_branches a_gt_95 a_lt_5))
  = Ok (after_branches DebugBuild a_gt_95 a_lt_5) ∧
  memo_bounded (length (chunks table_t))
    (rule (after_branches DebugBuild a_gt_95 a_lt_5)).
Proof.
  assert (H1 : stored_table (start (plan_two_branches a_gt_95 a_lt_5))
                 1%positive = Some scan_node) by reflexivity.
  assert (H2 : get_table (env DebugBuild) (table_name scan_node) = Ok table_t)
    by reflexivity.
  assert (H3 : memo_bounded (length (chunks table_t))
                 (rule (start (plan_two_branches a_gt_95 a_lt_5)))).
  { intros p X c HX. discriminate HX. }
  assert (H4 : prune_stored_table_node (env DebugBuild) 1%positive
                 (chains_of_branches a_gt_95 a_lt_5)
                 (start (plan_two_branches a_gt_95 a_lt_5))
               = Ok (after_branches DebugBuild a_gt_95 a_lt_5))
    by (vm_compute; reflexivity).
  split; [exact H1|]. split; [exact H2|]. split; [exact H3|].
  split; [exact H4|].
  exact (proj1 (X3_pruned_chunk_ids_are_chunks_of_the_table
                  _ _ _ _ _ _ _ H1 H2 H3 H4)).
Defined.

(** The second application of a rule object to the one-predicate plan. *)
Lemma X4_witness :
  _apply_to_plan_without_subqueries (env DebugBuild) 5 [1%positive] second_start
  = Ok second_end ∧
  dom (lqp second_end) = dom (lqp second_start).
Proof.
  assert (H : _apply_to_plan_without_subqueries (env DebugBuild) 5
                [1%positive] second_start = Ok second_end)
    by (vm_compute; reflexivity).
  split; [exact H|].
  exact (proj1 (proj2 (X4_application_keeps_the_plan _ _ _ _ _ H))).
Defined.

(** The scan of the one-predicate plan, named twice among the leafs. *)
Lemma X5_witness :
  collect_predicate_chains 5 (plan_one_predicate scan_node)
    (collect_stored_table_nodes [1%positive; 1%positive])
  = Ok [ (1%positive, [ [ptr 2 a_gt_95] ]) ] ∧
  NoDup [ (1%positive, [ [ptr 2 a_gt_95] ]) ].*1.
Proof.
  assert (H : collect_predicate_chains 5 (plan_one_predicate scan_node)
                (collect_stored_table_nodes [1%positive; 1%positive])
              = Ok [ (1%positive, [ [ptr 2 a_gt_95] ]) ])
    by (vm_compute; reflexivity).
  split; [exact H|].
  exact (proj1 (X5_one_entry_per_stored_table_node _ _ _ _ H)).
Defined.

(** The chains of the scan feeding [a > 95] and [a < 5]. *)
Lemma X6_witness :
  ∃ chains,
    find_predicate_chains_recursively 4 (plan_two_branches a_gt_95 a_lt_5)
      1%positive 1%positive [] = Ok chains ∧
    ∀ found, found ∈ chains →
      ∃ suffix,
        found = [] ++ suffix ∧
        Forall (chain_entry_of (plan_two_branches a_gt_95 a_lt_5) 1%positive)
          suffix.
Proof.
  eexists.
  assert (H : find_predicate_chains_recursively 4
                (plan_two_branches a_gt_95 a_lt_5) 1%positive 1%positive []
              = Ok _)
    by (vm_compute; reflexivity).
  split; [exact H|].
  exact (X6_chains_hold_matching_predicate_nodes _ _ _ _ _ _ H).
Defined.

(** The plan that ends in a projection. *)
Lemma X7_witness :
  map_Forall (λ _ node, chain_compatible node = true)
    (lqp (start plan_without_end)) ∧
  _apply_to_plan_without_subqueries (env DebugBuild) 5 [1%positive]
    (start plan_without_end) = Ok (start plan_without_end) ∧
  start plan_without_end = start plan_without_end.
Proof.
  assert (H1 : map_Forall (λ _ node, chain_compatible node = true)
                 (lqp (start plan_without_end))).
  { refine (bool_decide_unpack _ _). vm_compute. exact I. }
  assert (H2 : _apply_to_plan_without_subqueries (env DebugBuild) 5
                 [1%positive] (start plan_without_end)
               = Ok (start plan_without_end))
    by (vm_compute; reflexivity).
  split; [exact H1|]. split; [exact H2|].
  exact (proj1 (X7_no_pruning_without_a_chain_end _ _ _ _ _ H1 H2)).
Defined.

(** A predicate without a column. *)
Lemma X8_witness :
  column_references (int 95) = [] ∧
  predicate_matches_table 1%positive (int 95) = true.
Proof.
  assert (H : column_references (int 95) = []) by reflexivity.
  split; [exact H|].
  exact (proj2 (X8_predicate_shared_by_two_scans_has_no_column (int 95)) H
           1%positive).
Defined.

(** The two chains of [a > 95] and [a < 5] in both orders. *)
Lemma X9_witness :
  [chunks_1_to_9; chunks_0_to_8] ≡ₚ [chunks_0_to_8; chunks_1_to_9] ∧
  intersect_chunk_ids [chunks_1_to_9; chunks_0_to_8]
  = intersect_chunk_ids [chunks_0_to_8; chunks_1_to_9].
Proof.
  assert (H : [chunks_1_to_9; chunks_0_to_8] ≡ₚ [chunks_0_to_8; chunks_1_to_9])
    by apply perm_swap.
  split; [exact H|].
  exact (proj1 (X9_intersection_ignores_order _ _ [] H)).
Defined.

(** The tuple on column 5 of a table with two columns. *)
Lemma X10_witness :
  length (column_statistics (table_table_statistics table_t))
  ≤ column_id tuple_beyond ∧
  ∃ new,
    _prune_table_statistics (table_table_statistics table_t) tuple_beyond 90
    = Ok new ∧
    row_count new = float_sub (float_of_nat 100) (float_of_nat 90).
Proof.
  assert (H : length (column_statistics (table_table_statistics table_t))
              ≤ column_id tuple_beyond) by (simpl; lia).
  split; [exact H|].
  eexists. split.
  - exact (proj1 (proj2 (X10_statistics_corrector_edges
                           (table_table_statistics table_t) tuple_beyond 90))
             H).
  - reflexivity.
Defined.

(** The scan of the one-predicate plan with one empty chain. *)
Lemma X11_witness :
  stored_table (start (plan_one_predicate scan_node)) 1%positive
  = Some scan_node ∧
  Forall (λ chain : list PredicateNodePtr, chain = []) [ [] ] ∧
  get_table (env DebugBuild) (table_name scan_node) = Ok table_t ∧
  prune_stored_table_node (env DebugBuild) 1%positive [ [] ]
    (start (plan_one_predicate scan_node))
  = Ok (start (plan_one_predicate scan_node)).
Proof.
  assert (H1 : stored_table (start (plan_one_predicate scan_node)) 1%positive
               = Some scan_node) by reflexivity.
  assert (H2 : Forall (λ chain : list PredicateNodePtr, chain = []) [ [] ])
    by (constructor; [reflexivity|constructor]).
  assert (H3 : get_table (env DebugBuild) (table_name scan_node) = Ok table_t)
    by reflexivity.
  split; [exact H1|]. split; [exact H2|]. split; [exact H3|].
  exact (proj1 (X11_empty_chains_change_nothing _ _ _ _ _ H1 H2) table_t H3).
Defined.

Import MetaSystemUtilizationTable StatusExample.

(** The line [VmSize:    123456 kB]. *)
Lemma X12_witness :
  Forall (λ x, isdigit x = false) key_part ∧
  number_part ≠ [] ∧
  Forall (λ x, isdigit x = true) number_part ∧
  isdigit blank = false ∧
  (decimal number_part < 2 ^ 63)%Z ∧
  (Z.of_nat (length (key_part ++ number_part ++ blank :: unit_part)) < 2 ^ 64)%Z ∧
  _int_from_string (key_part ++ number_part ++ blank :: unit_part)
  = Ok 123456%Z.
Proof.
  assert (H1 : Forall (λ x, isdigit x = false) key_part)
    by (repeat constructor).
  assert (H2 : number_part ≠ []) by discriminate.
  assert (H3 : Forall (λ x, isdigit x = true) number_part)
    by (repeat constructor).
  assert (H4 : isdigit blank = false) by reflexivity.
  assert (H5 : (decimal number_part < 2 ^ 63)%Z) by reflexivity.
  assert (H6 : (Z.of_nat (length (key_part ++ number_part ++ blank :: unit_part))
                < 2 ^ 64)%Z) by reflexivity.
  split; [exact H1|]. split; [exact H2|]. split; [exact H3|].
  split; [exact H4|]. split; [exact H5|]. split; [exact H6|].
  exact (X12_int_from_string_reads_the_first_number
           key_part number_part blank unit_part H1 H2 H3 H4 H5 H6).
Defined.

(** A line without a number. *)
Lemma X13_witness :
  Forall (λ c, isdigit c = false) (text "Name:   hyrise") ∧
  _int_from_string (text "Name:   hyrise")
  = Fault (FatalError "std::invalid_argument").
Proof.
  assert (H : Forall (λ c, isdigit c = false) (text "Name:   hyrise"))
    by (repeat constructor).
  split; [exact H|].
  exact (X13_int_from_string_needs_a_digit _ H).
Defined.

(** The line [VmSize:    123456] without a unit: the 6 is not read. *)
Lemma X14_witness :
  Forall (λ x, isdigit x = false) key_part ∧
  Forall (λ x, isdigit x = true) (text "12345" ++ text "6") ∧
  (Z.of_nat (length (key_part ++ text "12345" ++ text "6")) < 2 ^ 64)%Z ∧
  _int_from_string (key_part ++ text "12345" ++ text "6") = Ok 12345%Z.
Proof.
  assert (H1 : Forall (λ x, isdigit x = false) key_part)
    by (repeat constructor).
  assert (H2 : Forall (λ x, isdigit x = true) (text "12345" ++ text "6"))
    by (repeat constructor).
  assert (H3 : (Z.of_nat (length (key_part ++ text "12345" ++ text "6"))
                < 2 ^ 64)%Z) by reflexivity.
  split; [exact H1|]. split; [exact H2|]. split; [exact H3|].
  exact (X14_int_from_string_drops_a_final_digit
           key_part (text "12345") (Stdlib.Strings.Ascii.ascii_of_nat 54)
           H1 H2 H3).
Defined.

(** A number after a minus sign. *)
Lemma X15_witness :
  _int_from_string (text "x-42 y") = Ok 42%Z ∧ (0 ≤ 42 < 2 ^ 63)%Z.
Proof.
  assert (H : _int_from_string (text "x-42 y") = Ok 42%Z)
    by (vm_compute; reflexivity).
  split; [exact H|].
  exact (X15_int_from_string_is_never_negative _ _ H).
Defined.

(** Four status lines, two of them with the key [VmSize]. *)
Lemma X16_witness :
  _get_process_memory_usage status_lines
  = Ok {| virtual_memory := Some 5000%Z; physical_memory := Some 7000%Z |} ∧
  (∃ v, _int_from_string (text "VmSize:   5 kB") = Ok v ∧
        Some 5000%Z = Some (v * 1000)%Z) ∧
  (∃ v, _int_from_string (text "VmRSS:   7 kB") = Ok v ∧
        Some 7000%Z = Some (v * 1000)%Z).
Proof.
  assert (H : _get_process_memory_usage status_lines
              = Ok {| virtual_memory := Some 5000%Z;
                      physical_memory := Some 7000%Z |})
    by (vm_compute; reflexivity).
  split; [exact H|].
  exact (X16_process_memory_usage_reads_the_last_lines _ _ H).
Defined.

(** Status lines with other keys. *)
Lemma X17_witness :
  Forall (λ line, starts_with "VmSize" line = false ∧
                  starts_with "VmRSS" line = false) other_lines ∧
  _get_process_memory_usage other_lines
  = Ok {| virtual_memory := None; physical_memory := None |}.
Proof.
  assert (H : Forall (λ line, starts_with "VmSize" line = false ∧
                              starts_with "VmRSS" line = false) other_lines)
    by (repeat constructor).
  split; [exact H|].
  exact (X17_process_memory_usage_converts_keyed_lines_only _ H).
Defined.

Import RandomCache CacheExample.

Lemma full_cache_consistent : consistent full_cache.
Proof.
  destruct (set_all_well_formed requests 3 (clear_and_resize 3 empty_cache))
    as (c' & Hall & Hc' & _).
  - repeat constructor.
  - reflexivity.
  - intros key index. simpl. rewrite lookup_empty.
    split; [done|]. by intros [v Hv].
  - simpl. lia.
  - assert (set_all requests (clear_and_resize 3 empty_cache) = Ok full_cache)
      as Hfull by (vm_compute; reflexivity).
    rewrite Hall in Hfull. injection Hfull as <-. exact Hc'.
Qed.

(** A new key in the full cache, with the draw 1. *)
Lemma X18_witness :
  consistent full_cache ∧
  length (_list full_cache) ≤ _capacity full_cache ∧
  1 < _capacity full_cache ∧
  ∃ evicted c',
    set 4 40 1 full_cache = Ok (evicted, c') ∧
    consistent c' ∧
    length (_list c') ≤ _capacity c' ∧
    _capacity c' = _capacity full_cache.
Proof.
  assert (H1 : length (_list full_cache) ≤ _capacity full_cache)
    by (simpl; lia).
  assert (H2 : 1 < _capacity full_cache) by (simpl; lia).
  split; [exact full_cache_consistent|]. split; [exact H1|].
  split; [exact H2|].
  exact (X18_set_keeps_the_cache_well_formed 4 40 1 full_cache
           full_cache_consistent H1 H2).
Defined.


(** Key 3 is neither set nor evicted. *)
Lemma X20_witness :
  set 4 40 1 full_cache = Ok (Some 2, after_eviction) ∧
  3 ≠ 4 ∧
  Some 2 ≠ Some 3 ∧
  consistent full_cache ∧
  has 3 after_eviction = has 3 full_cache ∧
  get 3 after_eviction = get 3 full_cache.
Proof.
  assert (H1 : set 4 40 1 full_cache = Ok (Some 2, after_eviction))
    by (vm_compute; reflexivity).
  assert (H2 : 3 ≠ 4) by discriminate.
  assert (H3 : Some 2 ≠ Some 3) by discriminate.
  split; [exact H1|]. split; [exact H2|]. split; [exact H3|].
  split; [exact full_cache_consistent|].
  split.
  - exact (proj1 (X20_set_leaves_the_other_keys 4 40 1 full_cache (Some 2)
                    after_eviction 3 H1 H2 H3)).
  - exact (proj2 (X20_set_leaves_the_other_keys 4 40 1 full_cache (Some 2)
                    after_eviction 3 H1 H2 H3) full_cache_consistent).
Defined.



Lemma X23_witness :
  consistent full_cache ∧
  NoDup (dump_cache full_cache) ∧
  (∀ key, key ∈ dump_cache full_cache ↔ has key full_cache = true) ∧
  length (dump_cache full_cache) = size full_cache.
Proof.
  split; [exact full_cache_consistent|].
  exact (X23_dump_cache_lists_the_cached_keys full_cache
           full_cache_consistent).
Defined.



Lemma X26_witness :
  (Z.of_nat (length (_list full_cache)) < 2 ^ 64)%Z ∧
  resize 1 full_cache = Ok after_resize ∧
  1 + 2 ≤ length (_list full_cache) ∧
  _capacity after_resize < length (_list after_resize).
Proof.
  assert (H1 : (Z.of_nat (length (_list full_cache)) < 2 ^ 64)%Z)
    by reflexivity.
  assert (H2 : resize 1 full_cache = Ok after_resize)
    by (vm_compute; reflexivity).
  assert (H3 : 1 + 2 ≤ length (_list full_cache)) by (simpl; lia).
  split; [exact H1|]. split; [exact H2|]. split; [exact H3|].
  exact (proj2 (X26_resize_erases_half_of_the_excess 1 full_cache
                  after_resize H1 H2) H3).
Defined.


(** Key 2 after the four sets, [resize 2] and [set 5 50] with the draw 1:
    it is neither set nor evicted, and [get] returns 50 for it where it
    returned 30 before. *)
Lemma X28_witness :
  set_all four_requests (clear_and_resize 4 empty_cache) = Ok four_cache ∧
  resize 2 four_cache = Ok stale_cache ∧
  set 5 50 1 stale_cache = Ok (Some 3, after_stale_set) ∧
  2 ≠ 5 ∧
  2 ≠ 3 ∧
  _map stale_cache !! 2 = Some 1 ∧
  get 2 stale_cache = Ok 30 ∧
  has 2 after_stale_set = true ∧
  get 2 after_stale_set = Ok 50.
Proof.
  assert (H1 : set 5 50 1 stale_cache = Ok (Some 3, after_stale_set))
    by (vm_compute; reflexivity).
  assert (H2 : 2 ≠ 5) by discriminate.
  assert (H3 : 2 ≠ 3) by discriminate.
  assert (H4 : _map stale_cache !! 2 = Some 1) by (vm_compute; reflexivity).
  split; [vm_compute; reflexivity|]. split; [vm_compute; reflexivity|].
  split; [exact H1|]. split; [exact H2|]. split; [exact H3|].
  split; [exact H4|]. split; [vm_compute; reflexivity|].
  exact (X28_set_overwrites_a_stale_position 5 50 1 stale_cache 3
           after_stale_set 2 H1 H2 H3 H4).
Defined.
